(** * RocketZero: the EfficientZero search tree (cnode.cpp)

    A shallow embedding of [lzero/mcts/ctree/ctree_efficientzero/lib/cnode.cpp]
    and the properties of its specification.

    Conventions of the embedding.
    - floating-point values are elements of an abstract type [F] with the
      operations of the class [FloatOps]; [float] and [double] are not told
      apart.  No law of arithmetic is assumed, so every general theorem
      holds for each interpretation of the operations, the IEEE one
      included.  The module [Rat] gives one executable interpretation (exact
      rationals plus a not-a-number element) on which the concrete examples
      are evaluated.
    - [int] values are [Z]; [uint64_t] and [size_t] values are [Z] reduced
      modulo [2^64] by [u64] wherever the source computes in those types.
      Signed overflow of the counters is undefined in C++ and outside the
      model.
    - Nodes live in a heap [gmap addr CNode]; a [CNode*] is an [option addr],
      [None] being [nullptr].
    - A computation that dereferences a null or dangling pointer, indexes a
      vector out of range, fails an [assert], or runs out of loop fuel yields
      [None]. *)

From Stdlib Require Import ZArith QArith List Bool Lia.
From stdpp Require Import base option list gmap.

Local Open Scope Z_scope.

(** ** Floating-point interface *)

Class FloatOps (F : Type) := {
  of_int : Z → F;            (* conversion of an [int] value or literal *)
  of_lit : Q → F;            (* a decimal literal *)
  fadd : F → F → F;
  fsub : F → F → F;
  fmul : F → F → F;
  fdiv : F → F → F;
  fneg : F → F;
  fexp : F → F;
  flog : F → F;
  fsqrt : F → F;
  flt : F → F → bool;        (* [a < b] *)
  fle : F → F → bool         (* [a <= b] *)
}.

Definition fgt {F} `{FloatOps F} (a b : F) : bool := flt b a.
Definition fge {F} `{FloatOps F} (a b : F) : bool := fle b a.

(** The literals [0], [0.0] and [1] stored into a [float]. *)
Definition fzero {F} `{FloatOps F} : F := of_int 0.
Definition fone {F} `{FloatOps F} : F := of_int 1.

(** ** Build-time constants

    [cnode.h] defines them; the header comment of [cnode.cpp] fixes
    [TOTAL_ACTIONS = ACTIONS_PER_PLAYER * NUM_ACTION_HEADS]. *)

Class Consts := {
  NUM_ACTION_HEADS : Z;
  ACTIONS_PER_PLAYER : Z
}.

Definition TOTAL_ACTIONS `{Consts} : Z := ACTIONS_PER_PLAYER * NUM_ACTION_HEADS.

(** [FLOAT_MIN] comes from [common_lib/utils.cpp]. *)
Class Utils (F : Type) := { FLOAT_MIN : F }.

(** ** Unsigned 64-bit arithmetic *)

Definition u64 (z : Z) : Z := z mod 2 ^ 64.

(** ** Action codec: [CNode::encode_action] *)

Section Codec.
Context `{K : Consts}.

(** The loop [for (i = 0; i < NUM_ACTION_HEADS && i < actions.size(); ++i)],
    entered at index [i] with the remaining entries [actions] and the
    accumulator [encoded]. *)
Fixpoint encode_from (i : Z) (actions : list Z) (encoded : Z) : Z :=
  match actions with
  | [] => encoded
  | a :: rest =>
      if i <? u64 NUM_ACTION_HEADS then
        encode_from (i + 1) rest
          (if (0 <=? a) && (a <? ACTIONS_PER_PLAYER)
           then u64 (encoded + u64 (u64 a + u64 (i * ACTIONS_PER_PLAYER)))
           else encoded)
      else encoded
  end.

Definition encode_action (actions : list Z) : Z :=
  let encoded := encode_from 0 actions 0 in
  if encoded <? u64 TOTAL_ACTIONS then encoded else u64 (TOTAL_ACTIONS - 1).

(** The sum [Σ_i (a_i + i * ACTIONS_PER_PLAYER)] of the specification,
    for the entries from head index [i] on. *)
Fixpoint head_sum (i : Z) (actions : list Z) : Z :=
  match actions with
  | [] => 0
  | a :: rest => (a + i * ACTIONS_PER_PLAYER) + head_sum (i + 1) rest
  end.
End Codec.

(** ** Player count: the [max_element] test of [cbatch_traverse] *)

Fixpoint max_element_from (best : Z) (l : list Z) : Z :=
  match l with
  | [] => best
  | x :: rest => max_element_from (if best <? x then x else best) rest
  end.

(** [*max_element(v.begin(), v.end())]; on an empty vector the source
    dereferences [end()]. *)
Definition max_element (l : list Z) : option Z :=
  match l with
  | [] => None
  | x :: rest => Some (max_element_from x rest)
  end.

Definition infer_players (virtual_to_play_batch : list Z) : option Z :=
  largest_element ← max_element virtual_to_play_batch;
  Some (if largest_element =? -1 then 1 else 2).

(** ** Nodes and the heap *)

Abbreviation addr := positive.

(** The fields the source assigns and reads; [int] fields are [Z], [float]
    fields are [F], vectors are lists. *)
Record CNode (F : Type) := mkCNode {
  prior : F;
  legal_actions : list Z;
  is_reset : Z;
  visit_count : Z;
  value_sum : F;
  best_action : list Z;
  to_play : Z;
  value_prefix : F;
  parent_value_prefix : F;
  current_latent_state_index : Z;
  batch_index : Z;
  (* [cnode.h] is not part of the sources; the specification gives
     [children : Map<ActionKey, NodeHandle>], and [expand] fills it with
     [children[a] = new CNode(...)]. *)
  children : gmap Z addr
}.

Arguments mkCNode {F}.
Arguments prior {F}.
Arguments legal_actions {F}.
Arguments is_reset {F}.
Arguments visit_count {F}.
Arguments value_sum {F}.
Arguments best_action {F}.
Arguments to_play {F}.
Arguments value_prefix {F}.
Arguments parent_value_prefix {F}.
Arguments current_latent_state_index {F}.
Arguments batch_index {F}.
Arguments children {F}.

Abbreviation heap F := (gmap positive (CNode F)).

(** The allocator: [new_addr this j] is the address returned by the [j]-th
    [new CNode] that [expand] executes on the node at [this].  Theorems that
    depend on allocation assume these addresses fresh. *)
Class Allocator := { new_addr : addr → nat → addr }.

(** [tools::CMinMaxStats] ([common_lib/cminimax.cpp]) through the two
    methods the tree calls. *)
Class MinMaxStats (F St : Type) := {
  update : St → F → St;
  normalize : St → F → F
}.

(** [v[i]] for an [int] index; a negative or too large index is out of
    range. *)
Definition index {A} (v : list A) (i : Z) : option A :=
  if i <? 0 then None else v !! Z.to_nat i.

(** [v[v.size() - 2]]; with fewer than two elements the index wraps around
    and is out of range. *)
Definition second_to_last {A} (v : list A) : option A :=
  if (2 <=? length v)%nat then v !! (length v - 2)%nat else None.

(** [std::vector<int>(n, x)] *)
Definition vector_fill (n : Z) (x : Z) : list Z := replicate (Z.to_nat n) x.

Section Node.
Context {F : Type} `{FO : FloatOps F} `{K : Consts} `{U : Utils F}
        `{AL : Allocator}.

(** [CNode::CNode()]; the two index fields are left uninitialised by the
    source and are parameters here. *)
Definition CNode_default (cli bi : Z) : CNode F :=
  mkCNode fzero [] 0 0 fzero [-1; -1; -1; -1] 0 fzero fzero cli bi ∅.

(** [CNode::CNode(float prior, std::vector<int> &legal_actions)] *)
Definition CNode_new (prior : F) (legal_actions : list Z) : CNode F :=
  mkCNode prior legal_actions 0 0 fzero [-1; -1; -1; -1] 0 fzero fzero (-1) (-1) ∅.

Definition set_prior (n : CNode F) (p : F) : CNode F :=
  mkCNode p (legal_actions n) (is_reset n) (visit_count n) (value_sum n)
    (best_action n) (to_play n) (value_prefix n) (parent_value_prefix n)
    (current_latent_state_index n) (batch_index n) (children n).

Definition set_is_reset (n : CNode F) (r : Z) : CNode F :=
  mkCNode (prior n) (legal_actions n) r (visit_count n) (value_sum n)
    (best_action n) (to_play n) (value_prefix n) (parent_value_prefix n)
    (current_latent_state_index n) (batch_index n) (children n).

Definition set_best_action (n : CNode F) (b : list Z) : CNode F :=
  mkCNode (prior n) (legal_actions n) (is_reset n) (visit_count n) (value_sum n)
    b (to_play n) (value_prefix n) (parent_value_prefix n)
    (current_latent_state_index n) (batch_index n) (children n).

Definition set_children (n : CNode F) (ch : gmap Z addr) : CNode F :=
  mkCNode (prior n) (legal_actions n) (is_reset n) (visit_count n) (value_sum n)
    (best_action n) (to_play n) (value_prefix n) (parent_value_prefix n)
    (current_latent_state_index n) (batch_index n) ch.

(** [visit_count += 1] *)
Definition incr_visit_count (n : CNode F) : CNode F :=
  mkCNode (prior n) (legal_actions n) (is_reset n) (visit_count n + 1) (value_sum n)
    (best_action n) (to_play n) (value_prefix n) (parent_value_prefix n)
    (current_latent_state_index n) (batch_index n) (children n).

(** [value_sum += x] *)
Definition add_value_sum (n : CNode F) (x : F) : CNode F :=
  mkCNode (prior n) (legal_actions n) (is_reset n) (visit_count n)
    (fadd (value_sum n) x)
    (best_action n) (to_play n) (value_prefix n) (parent_value_prefix n)
    (current_latent_state_index n) (batch_index n) (children n).

(** The four assignments that open [CNode::expand], and the default
    [legal_actions]. *)
Definition set_expand_fields (n : CNode F) (tp cli bi : Z) (vp : F)
    (legal : list Z) : CNode F :=
  mkCNode (prior n) legal (is_reset n) (visit_count n) (value_sum n)
    (best_action n) tp vp (parent_value_prefix n) cli bi (children n).

(** [CNode::expanded] *)
Definition expanded (n : CNode F) : bool := bool_decide (0 < Z.of_nat (size (children n))).

(** [CNode::value] *)
Definition value (n : CNode F) : F :=
  if visit_count n =? 0 then fzero
  else fdiv (value_sum n) (of_int (visit_count n)).

(** [CNode::get_child(uint64_t action)].  [children[action]] is read only
    when [action < children.size()], the number of entries of the map; on a
    key that is absent it yields the null pointer.  (On such a key
    [operator[]] of a [std::map] also inserts a null entry.  Every caller
    in [cnode.cpp] dereferences the result at once, which is a fault here,
    so the entry is never observed and is not modelled.) *)
Definition get_child (n : CNode F) (action : Z) : option addr :=
  if Z.of_nat (size (children n)) <=? action then None
  else children n !! action.

(** [CNode::get_child(std::vector<int> actions)] *)
Definition get_child_vec (n : CNode F) (actions : list Z) : option addr :=
  if negb (Z.of_nat (length actions) =? u64 NUM_ACTION_HEADS) then None
  else
    let action_key := encode_action actions in
    if Z.of_nat (size (children n)) <=? action_key then None
    else children n !! action_key.

(** *** [CNode::expand] *)

Definition default_legal_actions (n : CNode F) (action_num : Z) : list Z :=
  if (length (legal_actions n) =? 0)%nat then seqZ 0 action_num
  else legal_actions n.

(** first loop: the maximum logit over the legal actions *)
Fixpoint expand_max (policy_logits : list F) (policy_max : F)
    (legal : list Z) : option F :=
  match legal with
  | [] => Some policy_max
  | a :: rest =>
      x ← index policy_logits a;
      expand_max policy_logits (if flt policy_max x then x else policy_max) rest
  end.

(** second loop: [policy[a] = exp(logit - max)] and their sum *)
Fixpoint expand_exp (policy_logits : list F) (policy_max : F)
    (policy_sum : F) (policy : gmap Z F) (legal : list Z)
    : option (F * gmap Z F) :=
  match legal with
  | [] => Some (policy_sum, policy)
  | a :: rest =>
      x ← index policy_logits a;
      let temp_policy := fexp (fsub x policy_max) in
      expand_exp policy_logits policy_max (fadd policy_sum temp_policy)
        (<[a := temp_policy]> policy) rest
  end.

(** third loop: [children[a] = new CNode(policy[a] / policy_sum, {})] *)
Fixpoint expand_children (this : addr) (policy : gmap Z F) (policy_sum : F)
    (j : nat) (legal : list Z) (h : heap F) (ch : gmap Z addr)
    : option (heap F * gmap Z addr) :=
  match legal with
  | [] => Some (h, ch)
  | a :: rest =>
      p ← policy !! a;
      let c := new_addr this j in
      expand_children this policy policy_sum (S j) rest
        (<[c := CNode_new (fdiv p policy_sum) []]> h) (<[a := c]> ch)
  end.

Definition expand (h : heap F) (this : addr) (tp cli bi : Z) (vp : F)
    (policy_logits : list F) : option (heap F) :=
  n ← h !! this;
  let action_num := Z.of_nat (length policy_logits) in
  let legal := default_legal_actions n action_num in
  policy_max ← expand_max policy_logits FLOAT_MIN legal;
  '(policy_sum, policy) ← expand_exp policy_logits policy_max fzero ∅ legal;
  '(h', ch) ← expand_children this policy policy_sum 0 legal h (children n);
  Some (<[this := set_children (set_expand_fields n tp cli bi vp legal) ch]> h').

(** *** [CNode::add_exploration_noise] *)

Fixpoint add_noise_loop (n : CNode F) (exploration_fraction : F)
    (noises : list F) (i : nat) (legal : list Z) (h : heap F)
    : option (heap F) :=
  match legal with
  | [] => Some h
  | a :: rest =>
      noise ← noises !! i;
      c ← get_child n (u64 a);
      child ← h !! c;
      let p := prior child in
      add_noise_loop n exploration_fraction noises (S i) rest
        (<[c := set_prior child
                  (fadd (fmul p (fsub fone exploration_fraction))
                        (fmul noise exploration_fraction))]> h)
  end.

Definition add_exploration_noise (h : heap F) (this : addr)
    (exploration_fraction : F) (noises : list F) : option (heap F) :=
  n ← h !! this;
  add_noise_loop n exploration_fraction noises 0 (legal_actions n) h.

(** *** [CNode::compute_mean_q] *)

(** body of the inner loop for the key [a + i * ACTIONS_PER_PLAYER] *)
Definition mean_q_step (h : heap F) (n : CNode F) (discount_factor : F)
    (acc : F * Z) (key : Z) : option (F * Z) :=
  c ← get_child n (u64 key);
  child ← h !! c;
  if 0 <? visit_count child then
    let true_reward :=
      if is_reset n =? 1 then value_prefix child
      else fsub (value_prefix child) (value_prefix n) in
    let qsa := fadd true_reward (fmul discount_factor (value child)) in
    Some (fadd acc.1 qsa, acc.2 + 1)
  else Some acc.

Fixpoint mean_q_loop (h : heap F) (n : CNode F) (discount_factor : F)
    (acc : F * Z) (keys : list Z) : option (F * Z) :=
  match keys with
  | [] => Some acc
  | key :: rest =>
      acc' ← mean_q_step h n discount_factor acc key;
      mean_q_loop h n discount_factor acc' rest
  end.

(** the keys in the order of the two nested loops *)
Definition mean_q_keys (n : CNode F) : list Z :=
  i ← seqZ 0 NUM_ACTION_HEADS;
  (λ a, a + i * ACTIONS_PER_PLAYER) <$> legal_actions n.

Definition compute_mean_q (h : heap F) (n : CNode F) (isRoot : Z)
    (parent_q discount_factor : F) : option F :=
  '(total_unsigned_q, total_visits) ←
     mean_q_loop h n discount_factor (fzero, 0) (mean_q_keys n);
  Some (if negb (isRoot =? 0) && (0 <? total_visits)
        then fdiv total_unsigned_q (of_int total_visits)
        else fdiv (fadd parent_q total_unsigned_q) (of_int (total_visits + 1))).
End Node.

(** ** Selection: [cucb_score] and [cselect_child] *)

Section Select.
Context {F : Type} `{FO : FloatOps F} `{K : Consts} `{U : Utils F}
        {St : Type} `{MM : MinMaxStats F St}.

Definition cucb_score (child : CNode F) (min_max_stats : St)
    (parent_mean_q : F) (is_reset : Z) (total_children_visit_counts : F)
    (parent_value_prefix : F) (pb_c_base pb_c_init discount_factor : F)
    (players : Z) : F :=
  let pb_c :=
    fadd (flog (fdiv (fadd (fadd total_children_visit_counts pb_c_base) fone)
                     pb_c_base))
         pb_c_init in
  let pb_c :=
    fmul pb_c (fdiv (fsqrt total_children_visit_counts)
                    (of_int (visit_count child + 1))) in
  let prior_score := fmul pb_c (prior child) in
  let value_score :=
    if visit_count child =? 0 then parent_mean_q
    else
      let true_reward :=
        if is_reset =? 1 then value_prefix child
        else fsub (value_prefix child) parent_value_prefix in
      if players =? 1 then
        fadd true_reward (fmul discount_factor (value child))
      else if players =? 2 then
        fadd true_reward (fmul discount_factor (fneg (value child)))
      else fzero in
  let value_score := normalize min_max_stats value_score in
  let value_score :=
    if flt value_score fzero then fzero
    else if fgt value_score fone then fone
    else value_score in
  fadd prior_score value_score.

(** [const float epsilon = 0.000001] *)
Definition epsilon : F := of_lit (1 # 1000000)%Q.

(** The two branches that follow the scoring of action [a] in the loop of
    [cselect_child]; the state is [(max_score, max_index_lst)]. *)
Definition select_update (st : F * list Z) (a : Z) (temp_score : F)
    : F * list Z :=
  let '(max_score, max_index_lst) := st in
  if flt max_score temp_score then (temp_score, [a])
  else if fge temp_score (fsub max_score epsilon)
       then (max_score, max_index_lst ++ [a])
       else (max_score, max_index_lst).

(** The score the loop computes for the legal action [a]. *)
Definition child_score (h : heap F) (root : CNode F) (min_max_stats : St)
    (pb_c_base : Z) (pb_c_init discount_factor mean_q : F) (players : Z)
    (a : Z) : option F :=
  c ← get_child root (u64 a);
  child ← h !! c;
  Some (cucb_score child min_max_stats mean_q (is_reset root)
          (of_int (visit_count root - 1)) (value_prefix root)
          (of_int pb_c_base) pb_c_init discount_factor players).

Fixpoint select_loop (h : heap F) (root : CNode F) (min_max_stats : St)
    (pb_c_base : Z) (pb_c_init discount_factor mean_q : F) (players : Z)
    (st : F * list Z) (legal : list Z) : option (F * list Z) :=
  match legal with
  | [] => Some st
  | a :: rest =>
      temp_score ← child_score h root min_max_stats pb_c_base pb_c_init
                     discount_factor mean_q players a;
      select_loop h root min_max_stats pb_c_base pb_c_init discount_factor
        mean_q players (select_update st a temp_score) rest
  end.

(** [result[0] = x] on [std::vector<int> result(NUM_ACTION_HEADS, -1)] *)
Definition first_slot (x : Z) : option (list Z) :=
  match vector_fill NUM_ACTION_HEADS (-1) with
  | [] => None
  | _ :: rest => Some (x :: rest)
  end.

(** [cselect_child].  [rand] is the sequence of values that [rand()]
    returns after the last seeding and [rng] the number of values drawn so
    far; the result carries the new count. *)
Definition cselect_child (h : heap F) (root : CNode F) (min_max_stats : St)
    (pb_c_base : Z) (pb_c_init discount_factor mean_q : F) (players : Z)
    (rand : nat → Z) (rng : nat) : option (list Z * nat) :=
  '(_, max_index_lst) ←
     select_loop h root min_max_stats pb_c_base pb_c_init discount_factor
       mean_q players (FLOAT_MIN, []) (legal_actions root);
  if (0 <? length max_index_lst)%nat then
    let rand_index := rand rng `mod` Z.of_nat (length max_index_lst) in
    a ← index max_index_lst rand_index;
    result ← first_slot a;
    Some (result, S rng)
  else Some (vector_fill NUM_ACTION_HEADS (-1), rng).
End Select.

(** ** Backpropagation: [cbackpropagate] *)

Section Backprop.
Context {F : Type} `{FO : FloatOps F} {St : Type} `{MM : MinMaxStats F St}.

(** [parent_value_prefix] and [is_reset] as read for [search_path[i]] *)
Definition parent_info (h : heap F) (search_path : list addr) (i : nat)
    : option (F * Z) :=
  match i with
  | O => Some (fzero, 0)
  | S i' =>
      pa ← search_path !! i';
      parent ← h !! pa;
      Some (value_prefix parent, is_reset parent)
  end.

(** The loop of the play-with-bot branch; [k] is [i + 1]. *)
Fixpoint backprop_single (search_path : list addr) (discount_factor : F)
    (k : nat) (h : heap F) (min_max_stats : St) (bootstrap_value : F)
    : option (heap F * St) :=
  match k with
  | O => Some (h, min_max_stats)
  | S i =>
      a ← search_path !! i;
      node ← h !! a;
      let node := incr_visit_count (add_value_sum node bootstrap_value) in
      let h := <[a := node]> h in
      '(parent_value_prefix, is_reset) ← parent_info h search_path i;
      let true_reward := fsub (value_prefix node) parent_value_prefix in
      let min_max_stats :=
        update min_max_stats
          (fadd true_reward (fmul discount_factor (value node))) in
      let true_reward :=
        if is_reset =? 1 then value_prefix node else true_reward in
      backprop_single search_path discount_factor i h min_max_stats
        (fadd true_reward (fmul discount_factor bootstrap_value))
  end.

(** The loop of the self-play branch. *)
Fixpoint backprop_two (search_path : list addr) (tp : Z)
    (discount_factor : F) (k : nat) (h : heap F) (min_max_stats : St)
    (bootstrap_value : F) : option (heap F * St) :=
  match k with
  | O => Some (h, min_max_stats)
  | S i =>
      a ← search_path !! i;
      node ← h !! a;
      let node :=
        incr_visit_count
          (add_value_sum node
             (if to_play node =? tp then bootstrap_value
              else fneg bootstrap_value)) in
      let h := <[a := node]> h in
      '(parent_value_prefix, is_reset) ← parent_info h search_path i;
      let true_reward := fsub (value_prefix node) parent_value_prefix in
      let min_max_stats :=
        update min_max_stats
          (fadd true_reward (fmul discount_factor (value node))) in
      let true_reward :=
        if is_reset =? 1 then value_prefix node else true_reward in
      backprop_two search_path tp discount_factor i h min_max_stats
        (if to_play node =? tp
         then fadd (fneg true_reward) (fmul discount_factor bootstrap_value)
         else fadd true_reward (fmul discount_factor bootstrap_value))
  end.

Definition cbackpropagate (h : heap F) (search_path : list addr)
    (min_max_stats : St) (tp : Z) (v : F) (discount_factor : F)
    : option (heap F * St) :=
  if (tp =? -1) || (tp =? 1) || (tp =? 2) then
    if tp =? -1
    then backprop_single search_path discount_factor (length search_path)
           h min_max_stats v
    else backprop_two search_path tp discount_factor (length search_path)
           h min_max_stats v
  else None.
End Backprop.

(** ** Roots: [CRoots::prepare] and [CRoots::prepare_no_noise] *)

Record CRoots := mkCRoots {
  root_num : Z;
  roots : list addr     (* the addresses of the elements of [roots] *)
}.

Section Roots.
Context {F : Type} `{FO : FloatOps F} `{K : Consts} `{U : Utils F}
        `{AL : Allocator}.

(** One iteration of the loop of [prepare], for the root index [i]. *)
Definition prepare_root (R : CRoots) (root_noise_weight : F)
    (noises : list (list F)) (value_prefixs : list F)
    (policies : list (list F)) (to_play_batch : list Z)
    (h : heap F) (i : nat) : option (heap F) :=
  r ← roots R !! i;
  tp ← to_play_batch !! i;
  vp ← value_prefixs !! i;
  pol ← policies !! i;
  h ← expand h r tp 0 (Z.of_nat i) vp pol;
  ns ← noises !! i;
  h ← add_exploration_noise h r root_noise_weight ns;
  n ← h !! r;
  Some (<[r := incr_visit_count n]> h).

Definition prepare_no_noise_root (R : CRoots) (value_prefixs : list F)
    (policies : list (list F)) (to_play_batch : list Z)
    (h : heap F) (i : nat) : option (heap F) :=
  r ← roots R !! i;
  tp ← to_play_batch !! i;
  vp ← value_prefixs !! i;
  pol ← policies !! i;
  h ← expand h r tp 0 (Z.of_nat i) vp pol;
  n ← h !! r;
  Some (<[r := incr_visit_count n]> h).

(** [for (int i = 0; i < num; ++i) body(i)] over a heap *)
Fixpoint for_each (body : heap F → nat → option (heap F)) (ixs : list nat)
    (h : heap F) : option (heap F) :=
  match ixs with
  | [] => Some h
  | i :: rest => h' ← body h i; for_each body rest h'
  end.

Definition prepare (R : CRoots) (h : heap F) (root_noise_weight : F)
    (noises : list (list F)) (value_prefixs : list F)
    (policies : list (list F)) (to_play_batch : list Z) : option (heap F) :=
  for_each (prepare_root R root_noise_weight noises value_prefixs policies
              to_play_batch)
    (seq 0 (Z.to_nat (root_num R))) h.

Definition prepare_no_noise (R : CRoots) (h : heap F)
    (value_prefixs : list F) (policies : list (list F))
    (to_play_batch : list Z) : option (heap F) :=
  for_each (prepare_no_noise_root R value_prefixs policies to_play_batch)
    (seq 0 (Z.to_nat (root_num R))) h.
End Roots.

(** ** Traversal: [cbatch_traverse] *)

(** What [cbatch_traverse] stores in slot [i] of [CSearchResults]. *)
Record SearchSlot := mkSlot {
  search_path : list addr;
  latent_state_index_in_search_path : Z;
  latent_state_index_in_batch : Z;
  last_action : list Z;
  search_len : Z;
  virtual_to_play : Z;
  leaf : addr
}.

(** [CSearchResults]: [num] and, slot by slot, the seven vectors. *)
Record CSearchResults := mkResults {
  num : Z;
  slots : list SearchSlot
}.

(** The variables that the iterations of the outer loop of
    [cbatch_traverse] share besides the heap: [parent_q], declared before
    the loop, and the state of [rand()]. *)
Record Shared (F : Type) := mkShared {
  sh_parent_q : F;
  sh_rng : nat
}.
Arguments mkShared {F}.
Arguments sh_parent_q {F}.
Arguments sh_rng {F}.

(** Local state of the [while (node->expanded())] loop. *)
Record Walk (F : Type) := mkWalk {
  w_node : addr;
  w_is_root : Z;
  w_parent_q : F;
  w_vtp : Z;
  w_rng : nat;
  w_path : list addr;
  w_last : list Z;
  w_len : Z
}.
Arguments mkWalk {F}.
Arguments w_node {F}.
Arguments w_is_root {F}.
Arguments w_parent_q {F}.
Arguments w_vtp {F}.
Arguments w_rng {F}.
Arguments w_path {F}.
Arguments w_last {F}.
Arguments w_len {F}.

Section Traverse.
Context {F : Type} `{FO : FloatOps F} `{K : Consts} `{U : Utils F}
        {St : Type} `{MM : MinMaxStats F St}.

(** [last_actions[i][j] = actions[j]] for [j < actions.size()] and
    [j < NUM_ACTION_HEADS], after the resize of an empty vector. *)
Fixpoint copy_actions (j : Z) (actions dst : list Z) : list Z :=
  match actions, dst with
  | a :: actions', d :: dst' =>
      if j <? u64 NUM_ACTION_HEADS
      then a :: copy_actions (j + 1) actions' dst'
      else d :: dst'
  | _, _ => dst
  end.

Definition record_last_actions (last actions : list Z) : list Z :=
  let last :=
    if (length last =? 0)%nat then vector_fill NUM_ACTION_HEADS (-1)
    else last in
  copy_actions 0 actions last.

(** The flip of [virtual_to_play_batch[i]] guarded by [players > 1]. *)
Definition flip_to_play (players vtp : Z) : option Z :=
  if 1 <? players then
    if (vtp =? 1) || (vtp =? 2)
    then Some (if vtp =? 1 then 2 else 1)
    else None
  else Some vtp.

Fixpoint traverse_loop (fuel : nat) (min_max_stats : St) (pb_c_base : Z)
    (pb_c_init discount_factor : F) (players : Z) (rand : nat → Z)
    (h : heap F) (w : Walk F) : option (heap F * Walk F) :=
  n ← h !! w_node w;
  if expanded n then
    match fuel with
    | O => None
    | S fuel' =>
        mean_q ← compute_mean_q h n (w_is_root w) (w_parent_q w)
                   discount_factor;
        '(actions, rng) ←
           cselect_child h n min_max_stats pb_c_base pb_c_init
             discount_factor mean_q players rand (w_rng w);
        vtp ← flip_to_play players (w_vtp w);
        let h := <[w_node w := set_best_action n actions]> h in
        c ← get_child_vec n actions;
        traverse_loop fuel' min_max_stats pb_c_base pb_c_init
          discount_factor players rand h
          (mkWalk c 0 mean_q vtp rng (w_path w ++ [c])
             (record_last_actions (w_last w) actions) (w_len w + 1))
    end
  else Some (h, w).

(** One iteration of the outer loop: the traversal from [root]. *)
Definition traverse_root (fuel : nat) (min_max_stats : St) (pb_c_base : Z)
    (pb_c_init discount_factor : F) (players : Z) (rand : nat → Z)
    (root : addr) (vtp : Z) (h : heap F) (sh : Shared F)
    : option (heap F * Shared F * SearchSlot) :=
  '(h, w) ← traverse_loop fuel min_max_stats pb_c_base pb_c_init
              discount_factor players rand h
              (mkWalk root 1 (sh_parent_q sh) vtp (sh_rng sh) [root] [] 0);
  pa ← second_to_last (w_path w);
  parent ← h !! pa;
  Some (h, mkShared (w_parent_q w) (w_rng w),
        mkSlot (w_path w) (current_latent_state_index parent)
          (batch_index parent) (w_last w) (w_len w) (w_vtp w) (w_node w)).

(** The outer loop over the batch indices [ixs]. *)
Fixpoint traverse_batch (fuel : nat) (stats_lst : list St) (pb_c_base : Z)
    (pb_c_init discount_factor : F) (players : Z) (rand : nat → Z)
    (rts : list addr) (virtual_to_play_batch : list Z)
    (ixs : list nat) (h : heap F) (sh : Shared F)
    : option (heap F * Shared F * list SearchSlot) :=
  match ixs with
  | [] => Some (h, sh, [])
  | i :: rest =>
      root ← rts !! i;
      stats ← stats_lst !! i;
      vtp ← virtual_to_play_batch !! i;
      '(h, sh, slot) ← traverse_root fuel stats pb_c_base pb_c_init
                         discount_factor players rand root vtp h sh;
      '(h, sh, slots) ← traverse_batch fuel stats_lst pb_c_base pb_c_init
                          discount_factor players rand rts
                          virtual_to_play_batch rest h sh;
      Some (h, sh, slot :: slots)
  end.

(** [cbatch_traverse].  [rand] is the sequence that
    [get_time_and_set_rand_seed] selects; [fuel] bounds each [while] loop.
    The result is the heap, the filled [results] and the updated
    [virtual_to_play_batch]. *)
Definition cbatch_traverse (fuel : nat) (rand : nat → Z) (h : heap F)
    (R : CRoots) (pb_c_base : Z) (pb_c_init discount_factor : F)
    (stats_lst : list St) (results_num : Z)
    (virtual_to_play_batch : list Z)
    : option (heap F * CSearchResults * list Z) :=
  let n := Z.to_nat results_num in
  if (n <=? length virtual_to_play_batch)%nat then
    players ← infer_players virtual_to_play_batch;
    '(h, _, slots) ← traverse_batch fuel stats_lst pb_c_base pb_c_init
                       discount_factor players rand (roots R)
                       virtual_to_play_batch (seq 0 n) h (mkShared fzero 0%nat);
    Some (h, mkResults results_num slots,
          (virtual_to_play <$> slots) ++ drop n virtual_to_play_batch)
  else None.
End Traverse.

(** ** Expansion and backpropagation of a batch: [cbatch_backpropagate] *)

Section BatchBackprop.
Context {F : Type} `{FO : FloatOps F} `{K : Consts} `{U : Utils F}
        `{AL : Allocator} {St : Type} `{MM : MinMaxStats F St}.

(** The three statements of the loop body, for the batch index [i], on the
    values they read from the vectors. *)
Definition backprop_leaf (current_latent_state_index : Z)
    (discount_factor : F) (i : nat) (slot : SearchSlot) (tp : Z) (vp : F)
    (pol : list F) (r : Z) (stats : St) (v : F) (h : heap F)
    : option (heap F * St) :=
  h ← expand h (leaf slot) tp current_latent_state_index (Z.of_nat i) vp pol;
  n ← h !! leaf slot;
  let h := <[leaf slot := set_is_reset n r]> h in
  cbackpropagate h (search_path slot) stats tp v discount_factor.

(** The body of the loop for the batch index [i]: the elements of the
    vectors, an index out of range being a fault wherever it occurs, then
    the three statements. *)
Definition backprop_slot (current_latent_state_index : Z)
    (discount_factor : F) (value_prefixs values : list F)
    (policies : list (list F)) (results : CSearchResults)
    (is_reset_list to_play_batch : list Z)
    (st : heap F * list St) (i : nat) : option (heap F * list St) :=
  let '(h, stats_lst) := st in
  slot ← slots results !! i;
  tp ← to_play_batch !! i;
  vp ← value_prefixs !! i;
  pol ← policies !! i;
  r ← is_reset_list !! i;
  stats ← stats_lst !! i;
  v ← values !! i;
  '(h, stats) ← backprop_leaf current_latent_state_index discount_factor i
                  slot tp vp pol r stats v h;
  Some (h, <[i := stats]> stats_lst).

Fixpoint backprop_batch (body : heap F * list St → nat → option (heap F * list St))
    (ixs : list nat) (st : heap F * list St) : option (heap F * list St) :=
  match ixs with
  | [] => Some st
  | i :: rest => st' ← body st i; backprop_batch body rest st'
  end.

Definition cbatch_backpropagate (h : heap F)
    (current_latent_state_index : Z) (discount_factor : F)
    (value_prefixs values : list F) (policies : list (list F))
    (stats_lst : list St) (results : CSearchResults)
    (is_reset_list to_play_batch : list Z) : option (heap F * list St) :=
  backprop_batch
    (backprop_slot current_latent_state_index discount_factor value_prefixs
       values policies results is_reset_list to_play_batch)
    (seq 0 (Z.to_nat (num results))) (h, stats_lst).

(** A search round: [cbatch_traverse], then [cbatch_backpropagate] on the
    leaves it found. *)
Definition search_round (fuel : nat) (rand : nat → Z) (h : heap F)
    (R : CRoots) (pb_c_base : Z) (pb_c_init discount_factor : F)
    (stats_lst : list St) (results_num : Z) (virtual_to_play_batch : list Z)
    (current_latent_state_index : Z) (value_prefixs values : list F)
    (policies : list (list F)) (is_reset_list to_play_batch : list Z)
    : option (heap F * list St * CSearchResults * list Z) :=
  '(h, results, vtps) ←
     cbatch_traverse fuel rand h R pb_c_base pb_c_init discount_factor
       stats_lst results_num virtual_to_play_batch;
  '(h, stats_lst) ←
     cbatch_backpropagate h current_latent_state_index discount_factor
       value_prefixs values policies stats_lst results is_reset_list
       to_play_batch;
  Some (h, stats_lst, results, vtps).

(** The two loop iterations of one root, with batch index [i]: its
    traversal, entered with the player count [players] and the shared
    variables [sh], then its expansion and backpropagation. *)
Definition root_round (fuel : nat) (rand : nat → Z) (i : nat) (players : Z)
    (sh : Shared F) (h : heap F) (root : addr) (pb_c_base : Z)
    (pb_c_init discount_factor : F) (stats : St) (vtp : Z)
    (current_latent_state_index : Z) (vp v : F) (pol : list F) (r tp : Z)
    : option (heap F * Shared F * SearchSlot * St) :=
  '(h, sh, slot) ←
     traverse_root fuel stats pb_c_base pb_c_init discount_factor players
       rand root vtp h sh;
  '(h, stats) ←
     backprop_leaf current_latent_state_index discount_factor i slot tp vp
       pol r stats v h;
  Some (h, sh, slot, stats).
End BatchBackprop.

(** ** [tools::CMinMaxStats] *)

Record CMinMaxStats (F : Type) := mkStats { maximum : F; minimum : F }.
Arguments mkStats {F}.
Arguments maximum {F}.
Arguments minimum {F}.

(** Modelled from the spec: [CMinMaxStats::update] and
    [CMinMaxStats::normalize] live in [common_lib/cminimax.cpp], which is not
    among the sources.  Section 4.2: running minimum and maximum over the
    values submitted by [update]; [normalize(q)] is
    [(q - min) / (max - min)] when [max > min] and [q] otherwise. *)
Definition CMinMaxStats_update {F} `{FloatOps F} (s : CMinMaxStats F) (q : F)
    : CMinMaxStats F :=
  mkStats (if flt (maximum s) q then q else maximum s)
          (if flt q (minimum s) then q else minimum s).

Definition CMinMaxStats_normalize {F} `{FloatOps F} (s : CMinMaxStats F)
    (q : F) : F :=
  if fgt (maximum s) (minimum s)
  then fdiv (fsub q (minimum s)) (fsub (maximum s) (minimum s))
  else q.

#[global] Instance CMinMaxStats_ops {F} `{FloatOps F}
    : MinMaxStats F (CMinMaxStats F) :=
  {| update := CMinMaxStats_update; normalize := CMinMaxStats_normalize |}.

(** A recorder in place of the statistics: it keeps, oldest first, every
    value passed to [update].  Run on it, [cbackpropagate] returns the
    sequence of its [update] calls. *)
Definition UpdateLog (F : Type) : Type := list F.

#[global] Instance UpdateLog_ops {F} : MinMaxStats F (UpdateLog F) :=
  {| update := λ (s : UpdateLog F) q, s ++ [q]; normalize := λ _ q, q |}.

(** ** An executable interpretation of the float operations

    Exact rational arithmetic with one not-a-number element, which absorbs
    every operation and fails every comparison, as the IEEE NaN does.
    Division by zero and the square root of a negative number give [NaN].
    [sqrt] is exact on squares of rationals and truncated elsewhere; [log]
    and [exp] are rational stand-ins, exact at [log 1 = 0] and
    [exp 0 = 1].  The examples below meet [log], [exp] and [sqrt] at exact
    points, multiply their result by zero, or add the same exploration term
    to the two scores they compare, so that the branches taken are those of
    the floating-point run. *)

Module Rat.
Inductive num := Fin (q : Q) | NaN.

Definition lift2 (f : Q → Q → Q) (a b : num) : num :=
  match a, b with
  | Fin x, Fin y => Fin (Qred (f x y))
  | _, _ => NaN
  end.

Definition div (a b : num) : num :=
  match a, b with
  | Fin x, Fin y => if Qeq_bool y 0 then NaN else Fin (Qred (x / y))
  | _, _ => NaN
  end.

Definition neg (a : num) : num :=
  match a with Fin x => Fin (Qred (- x)) | NaN => NaN end.

Definition exp (a : num) : num :=
  match a with
  | Fin x => if Qle_bool 0 x then Fin (Qred (1 + x)) else Fin (Qred (1 / (1 - x)))
  | NaN => NaN
  end.

Definition log (a : num) : num :=
  match a with
  | Fin x => if Qle_bool x 0 then NaN else Fin (Qred (x - 1))
  | NaN => NaN
  end.

Definition sqrt (a : num) : num :=
  match a with
  | Fin x =>
      if Qle_bool 0 x
      then Fin (Qred (Z.sqrt (Qnum x) # Pos.sqrt (Qden x)))
      else NaN
  | NaN => NaN
  end.

Definition lt (a b : num) : bool :=
  match a, b with
  | Fin x, Fin y => negb (Qle_bool y x)
  | _, _ => false
  end.

Definition le (a b : num) : bool :=
  match a, b with
  | Fin x, Fin y => Qle_bool x y
  | _, _ => false
  end.

#[global] Instance ops : FloatOps num :=
  {| of_int := λ z, Fin (z # 1);
     of_lit := λ q, Fin (Qred q);
     fadd := lift2 Qplus;
     fsub := lift2 Qminus;
     fmul := lift2 Qmult;
     fdiv := div;
     fneg := neg;
     fexp := exp;
     flog := log;
     fsqrt := sqrt;
     flt := lt;
     fle := le |}.

(** [FLOAT_MIN = -1000000.0], as in LightZero's [utils.cpp]; the examples
    only need it below every score. *)
#[global] Instance utils : Utils num := {| FLOAT_MIN := Fin (-1000000 # 1) |}.

(** The children of the node at [p] are allocated at [16 p + 1], ... *)
Definition alloc : Allocator :=
  {| new_addr := λ p j, (p * 16 + Pos.of_succ_nat j)%positive |}.

(** two heads of four actions, and one head of two *)
Definition consts_2_4 : Consts :=
  {| NUM_ACTION_HEADS := 2; ACTIONS_PER_PLAYER := 4 |}.
Definition consts_1_2 : Consts :=
  {| NUM_ACTION_HEADS := 1; ACTIONS_PER_PLAYER := 2 |}.
Definition consts_4_2 : Consts :=
  {| NUM_ACTION_HEADS := 4; ACTIONS_PER_PLAYER := 2 |}.
End Rat.

(** ** Views used by the statements *)

Section Views.
Context {F : Type} `{FO : FloatOps F} `{K : Consts} `{U : Utils F}
        {St : Type} `{MM : MinMaxStats F St}.

(** The children that [compute_mean_q] looks up, in the order of its
    loops. *)
Definition looked_up_children (h : heap F) (n : CNode F)
    : option (list (CNode F)) :=
  mapM (λ key, c ← get_child n (u64 key); h !! c) (mean_q_keys n).

Definition visited (cs : list (CNode F)) : list (CNode F) :=
  filter (λ c, 0 < visit_count c) cs.

(** [true_reward] and [qsa] of the specification, section 4.3. *)
Definition true_reward_of (n child : CNode F) : F :=
  if is_reset n =? 1 then value_prefix child
  else fsub (value_prefix child) (value_prefix n).

Definition qsa_of (n : CNode F) (discount_factor : F) (child : CNode F) : F :=
  fadd (true_reward_of n child) (fmul discount_factor (value child)).

(** Sum, from [0.0] and from left to right, and arithmetic mean. *)
Definition fsum (l : list F) : F := foldl fadd fzero l.
Definition mean (l : list F) : F :=
  fdiv (fsum l) (of_int (Z.of_nat (length l))).

(** The legal actions of [root] with the scores [cselect_child] computes
    for them. *)
Definition legal_scores (h : heap F) (root : CNode F) (min_max_stats : St)
    (pb_c_base : Z) (pb_c_init discount_factor mean_q : F) (players : Z)
    : option (list (Z * F)) :=
  mapM (λ a, s ← child_score h root min_max_stats pb_c_base pb_c_init
                   discount_factor mean_q players a;
             Some (a, s))
       (legal_actions root).

(** [s >= M - epsilon] *)
Definition within_margin (M s : F) : bool := fge s (fsub M epsilon).

(** The actions of [scs] whose score is within the margin of [M]. *)
Definition margin_filter (M : F) (scs : list (Z * F)) : list Z :=
  fst <$> filter (λ p, within_margin M p.2 = true) scs.
End Views.

(** ** Example data

    Two roots, at the addresses [1] and [2], constructed without legal
    actions and prepared without noise on the logits [[0; 0]]: the state in
    which a search starts. *)

Module Example.
Import Rat.

Definition fresh_roots : heap num :=
  {[ 1%positive := CNode_new (Fin 0) []; 2%positive := CNode_new (Fin 0) [] ]}.

Definition two_roots : CRoots := mkCRoots 2 [1%positive; 2%positive].

Definition prepared : option (heap num) :=
  prepare_no_noise (U := utils) (AL := alloc) two_roots fresh_roots
    [Fin 0; Fin 0] [[Fin 0; Fin 0]; [Fin 0; Fin 0]] [-1; -1].

(** statistics that have seen no value: [normalize] is the identity *)
Definition no_stats : CMinMaxStats num := mkStats (Fin 0) (Fin 0).
End Example.

(** Scenario S5 of the specification: a parent with [is_reset = 1] and
    [value_prefix = 5] at address [1], its child with [value_prefix = 3] at
    address [2]. *)
Module Reset.
Import Rat.

Definition parent : CNode num :=
  mkCNode (Fin 0) [0] 1 1 (Fin 0) [0; -1; -1; -1] (-1) (Fin 5) (Fin 0) 0 0
    {[ 0 := 2%positive ]}.

Definition child : CNode num :=
  mkCNode (Fin 1) [] 0 0 (Fin 0) [-1; -1; -1; -1] (-1) (Fin 3) (Fin 0) 1 0 ∅.

Definition h : heap num := {[ 1%positive := parent; 2%positive := child ]}.
End Reset.

(** The leaf [n] after the first iteration of [cbackpropagate]. *)
Definition leaf_visited {F} `{FO : FloatOps F} (tp : Z) (v : F) (n : CNode F)
    : CNode F :=
  incr_visit_count
    (add_value_sum n
       (if tp =? -1 then v else if to_play n =? tp then v else fneg v)).

(** ** Reachable heaps *)

(** Heaps built by the constructors and the operations of the tree. *)
Section Reach.
Context {F : Type} `{FO : FloatOps F} `{K : Consts} `{U : Utils F}
        `{AL : Allocator} {St : Type} `{MM : MinMaxStats F St}.

Inductive reachable : heap F → Prop :=
| reach_empty : reachable ∅
| reach_default h a cli bi :
    reachable h → reachable (<[a := CNode_default cli bi]> h)
| reach_new h a p legal :
    reachable h → reachable (<[a := CNode_new p legal]> h)
| reach_expand h h' a tp cli bi vp pol :
    reachable h → expand h a tp cli bi vp pol = Some h' → reachable h'
| reach_noise h h' a w noises :
    reachable h → add_exploration_noise h a w noises = Some h' →
    reachable h'
| reach_prepare h h' R w noises vps pols tps :
    reachable h → prepare R h w noises vps pols tps = Some h' →
    reachable h'
| reach_prepare_no_noise h h' R vps pols tps :
    reachable h → prepare_no_noise R h vps pols tps = Some h' →
    reachable h'
| reach_backpropagate h h' path (stats stats' : St) tp v γ :
    reachable h → cbackpropagate h path stats tp v γ = Some (h', stats') →
    reachable h'
| reach_batch_traverse h h' fuel rand R base init γ (sl : list St) rn vtp
    res vtp' :
    reachable h →
    cbatch_traverse fuel rand h R base init γ sl rn vtp
    = Some (h', res, vtp') →
    reachable h'
| reach_batch_backpropagate h h' cli γ vps vs pols (sl sl' : list St) res
    rl tps :
    reachable h →
    cbatch_backpropagate h cli γ vps vs pols sl res rl tps = Some (h', sl') →
    reachable h'.

(** The invariant carried along: counters are not negative, and an
    unvisited node has accumulated nothing. *)
Definition node_ok (n : CNode F) : Prop :=
  0 ≤ visit_count n ∧ (visit_count n = 0 → value_sum n = fzero).

Definition heap_ok (h : heap F) : Prop := map_Forall (λ _ n, node_ok n) h.
End Reach.

Section SelectViews.
Context {F : Type} `{FO : FloatOps F}.

(** The loop of [cselect_child] over a list of scored actions. *)
Definition select_fold (st : F * list Z) (scs : list (Z * F)) : F * list Z :=
  foldl (λ st p, select_update st p.1 p.2) st scs.

(** [s] enters an empty candidate list whose running maximum is [M]. *)
Definition admitted (M s : F) : bool := flt M s || within_margin M s.
End SelectViews.

(** A root after two simulations: both children visited once, with the
    values [0.5] and [0.5000005].  The children have the same prior and the
    same visit count, hence the same exploration term in their scores. *)
Module Tie.
Import Rat.

Definition root : CNode num :=
  mkCNode (Fin 0) [0; 1] 0 3 (Fin (10000005 # 10000000)) [1; -1; -1; -1]
    (-1) (Fin 0) (Fin 0) 0 0 {[ 0 := 2%positive; 1 := 3%positive ]}.

Definition child0 : CNode num :=
  mkCNode (Fin (1 # 2)) [] 0 1 (Fin (1 # 2)) [-1; -1; -1; -1] 0
    (Fin 0) (Fin 0) (-1) (-1) ∅.

Definition child1 : CNode num :=
  mkCNode (Fin (1 # 2)) [] 0 1 (Fin (5000005 # 10000000)) [-1; -1; -1; -1] 0
    (Fin 0) (Fin 0) (-1) (-1) ∅.

Definition h : heap num :=
  {[ 1%positive := root; 2%positive := child0; 3%positive := child1 ]}.

Definition scores : option (list (Z * num)) :=
  legal_scores h root Example.no_stats 19652 (Fin (5 # 4)) (Fin 1) (Fin 0) 1.
End Tie.

(** A root expanded on logits that are not numbers. *)
Module NotANumber.
Import Rat.

Definition fresh : heap num := {[ 1%positive := CNode_new (Fin 0) [] ]}.

Definition expanded_heap : option (heap num) :=
  prepare_no_noise (U := utils) (AL := alloc) (mkCRoots 1 [1%positive])
    fresh [Fin 0] [[NaN; NaN]] [-1].
End NotANumber.

(** ** Disjoint trees *)

(** A heap without dangling child pointers: every child of a node of [h]
    is a node of [h]. *)
Definition closed {F} (h : heap F) : Prop :=
  ∀ a n k c, h !! a = Some n → children n !! k = Some c → c ∈ dom h.

(** the children of [n] are nodes of [h] *)
Definition children_in {F} (h : heap F) (n : CNode F) : Prop :=
  ∀ k c, children n !! k = Some c → c ∈ dom h.

(** A result computed on [h], seen in the larger heap [h ∪ hR]. *)
Definition framed {F X} (hR : heap F) (r : heap F * X) : heap F * X :=
  (r.1 ∪ hR, r.2).

Definition framed3 {F X Y} (hR : heap F) (r : heap F * X * Y)
    : heap F * X * Y :=
  (r.1.1 ∪ hR, r.1.2, r.2).

(** The trees of the two prepared roots of [Example], written out, and an
    allocator whose addresses lie beyond them. *)
Module Pair.
Import Rat.

Definition unvisited_child : CNode num := CNode_new (Fin (1 # 2)) [].

Definition root1 : CNode num :=
  mkCNode (Fin 0) [0; 1] 0 1 (Fin 0) [-1; -1; -1; -1] (-1) (Fin 0) (Fin 0)
    0 0 {[ 0 := 17%positive; 1 := 18%positive ]}.

Definition root2 : CNode num :=
  mkCNode (Fin 0) [0; 1] 0 1 (Fin 0) [-1; -1; -1; -1] (-1) (Fin 0) (Fin 0)
    0 1 {[ 0 := 33%positive; 1 := 34%positive ]}.

Definition tree1 : heap num :=
  {[ 1%positive := root1; 17%positive := unvisited_child;
     18%positive := unvisited_child ]}.

Definition tree2 : heap num :=
  {[ 2%positive := root2; 33%positive := unvisited_child;
     34%positive := unvisited_child ]}.

(** [rand()] returns 0, 1, 2, ... *)
Definition counting : nat → Z := Z.of_nat.

(** the round of the batch of both roots, one simulation with value [1] *)
Definition both : option (heap num * list (CMinMaxStats num)
                          * CSearchResults * list Z) :=
  search_round (K := consts_1_2) (AL := alloc) 5 counting (tree1 ∪ tree2)
    (mkCRoots 2 [1%positive; 2%positive]) 19652 (Fin (5 # 4)) (Fin 1)
    [Example.no_stats; Example.no_stats] 2 [-1; -1] 1
    [Fin 0; Fin 0] [Fin 1; Fin 1] [[Fin 0; Fin 0]; [Fin 0; Fin 0]]
    [0; 0] [-1; -1].

(** the same round of the batch that holds the second root alone *)
Definition second_alone : option (heap num * list (CMinMaxStats num)
                                  * CSearchResults * list Z) :=
  search_round (K := consts_1_2) (AL := alloc) 5 counting tree2
    (mkCRoots 1 [2%positive]) 19652 (Fin (5 # 4)) (Fin 1)
    [Example.no_stats] 1 [-1] 1
    [Fin 0] [Fin 1] [[Fin 0; Fin 0]] [0] [-1].

(** addresses [64 + encode (p, j)]: beyond both trees, and injective *)
Definition beyond : Allocator :=
  {| new_addr := λ p j, (64 + encode (p, j))%positive |}.
End Pair.

(** ** Accessors: [get_children_distribution], [get_trajectory] *)

Section Accessors.
Context {F : Type} `{FO : FloatOps F} `{K : Consts}.

(** [CNode::get_children_distribution] *)
Definition get_children_distribution (h : heap F) (n : CNode F)
    : option (list Z) :=
  if expanded n then
    mapM (λ a, c ← get_child n (u64 a);
               child ← h !! c;
               Some (visit_count child))
         (legal_actions n)
  else Some [].

(** The loop of [CNode::get_trajectory], entered at [node] with the
    trajectory [traj] built so far.  [best_action[0]] of an empty vector is
    out of range. *)
Fixpoint trajectory_loop (fuel : nat) (h : heap F) (node : CNode F)
    (traj : list (list Z)) : option (list (list Z)) :=
  b0 ← index (best_action node) 0;
  if 0 <=? b0 then
    match fuel with
    | O => None
    | S fuel' =>
        c ← get_child_vec node (best_action node);
        child ← h !! c;
        trajectory_loop fuel' h child (traj ++ [best_action node])
    end
  else Some traj.

Definition get_trajectory (fuel : nat) (h : heap F) (this : CNode F)
    : option (list (list Z)) :=
  trajectory_loop fuel h this [].
End Accessors.

(** ** The container of the roots: constructor and getters *)

Section RootsAccess.
Context {F : Type} `{FO : FloatOps F} `{K : Consts}.

(** The loop of [CRoots::CRoots(int root_num, legal_actions_list)]:
    [roots.push_back(CNode(0, legal_actions_list[i]))].  [place i] is the
    address at which the element [roots[i]] ends up; the progress messages
    that the constructor writes to [std::cout] are left out. *)
Fixpoint CRoots_push (place : nat → addr) (legal_actions_list : list (list Z))
    (ixs : list nat) (h : heap F) (rs : list addr)
    : option (heap F * list addr) :=
  match ixs with
  | [] => Some (h, rs)
  | i :: rest =>
      legal ← legal_actions_list !! i;
      CRoots_push place legal_actions_list rest
        (<[place i := CNode_new fzero legal]> h) (rs ++ [place i])
  end.

Definition CRoots_new (place : nat → addr) (h : heap F) (root_num : Z)
    (legal_actions_list : list (list Z)) : option (heap F * CRoots) :=
  '(h, rs) ← CRoots_push place legal_actions_list
               (seq 0 (Z.to_nat root_num)) h [];
  Some (h, mkCRoots root_num rs).

(** [for (int i = 0; i < root_num; ++i) out.push_back(f(roots[i]))] *)
Definition each_root {X} (h : heap F) (R : CRoots)
    (f : CNode F → option X) : option (list X) :=
  mapM (λ i, r ← roots R !! i; n ← h !! r; f n)
       (seq 0 (Z.to_nat (root_num R))).

(** [CRoots::get_values] *)
Definition get_values (h : heap F) (R : CRoots) : option (list F) :=
  each_root h R (λ n, Some (value n)).

(** [CRoots::get_distributions]; [reserve(root_num)] with a negative
    [root_num] asks for more than the vector can hold and throws. *)
Definition get_distributions (h : heap F) (R : CRoots)
    : option (list (list Z)) :=
  if root_num R <? 0 then None
  else each_root h R (get_children_distribution h).

(** [CRoots::get_trajectories], with the same [reserve] *)
Definition get_trajectories (fuel : nat) (h : heap F) (R : CRoots)
    : option (list (list (list Z))) :=
  if root_num R <? 0 then None
  else each_root h R (get_trajectory fuel h).
End RootsAccess.

(** ** [update_tree_q] *)

Definition set_parent_value_prefix {F} (n : CNode F) (p : F) : CNode F :=
  mkCNode (prior n) (legal_actions n) (is_reset n) (visit_count n) (value_sum n)
    (best_action n) (to_play n) (value_prefix n) p
    (current_latent_state_index n) (batch_index n) (children n).

Section UpdateTreeQ.
Context {F : Type} `{FO : FloatOps F} {St : Type} `{MM : MinMaxStats F St}.

(** The loop over [node->legal_actions]: an expanded child receives the
    [value_prefix] of [node] as its [parent_value_prefix] and is pushed. *)
Fixpoint push_expanded (node : CNode F) (legal : list Z) (h : heap F)
    (node_stack : list addr) : option (heap F * list addr) :=
  match legal with
  | [] => Some (h, node_stack)
  | a :: rest =>
      c ← get_child node (u64 a);
      child ← h !! c;
      if expanded child then
        push_expanded node rest
          (<[c := set_parent_value_prefix child (value_prefix node)]> h)
          (c :: node_stack)
      else push_expanded node rest h node_stack
  end.

(** [qsa] of a node other than the root; with a player count other than 1
    and 2 the variable is read without having been assigned. *)
Definition tree_qsa (node : CNode F) (is_reset : Z) (discount_factor : F)
    (players : Z) : option F :=
  let true_reward :=
    if is_reset =? 1 then value_prefix node
    else fsub (value_prefix node) (parent_value_prefix node) in
  if players =? 1 then
    Some (fadd true_reward (fmul discount_factor (value node)))
  else if players =? 2 then
    Some (fadd true_reward
            (fmul (fmul discount_factor (of_int (-1))) (value node)))
  else None.

(** The [while (node_stack.size() > 0)] loop; the head of the list is the
    top of the stack and [reset] is the variable [is_reset]. *)
Fixpoint update_tree_q_loop (fuel : nat) (root : addr) (discount_factor : F)
    (players : Z) (node_stack : list addr) (reset : Z) (h : heap F)
    (min_max_stats : St) : option (heap F * St) :=
  match node_stack with
  | [] => Some (h, min_max_stats)
  | a :: node_stack =>
      match fuel with
      | O => None
      | S fuel' =>
          node ← h !! a;
          min_max_stats ←
            (if decide (a = root) then Some min_max_stats
             else update min_max_stats
                    <$> tree_qsa node reset discount_factor players);
          '(h, node_stack) ←
             push_expanded node (legal_actions node) h node_stack;
          update_tree_q_loop fuel' root discount_factor players node_stack
            (is_reset node) h min_max_stats
      end
  end.

Definition update_tree_q (fuel : nat) (h : heap F) (root : addr)
    (min_max_stats : St) (discount_factor : F) (players : Z)
    : option (heap F * St) :=
  update_tree_q_loop fuel root discount_factor players [root] 0 h
    min_max_stats.
End UpdateTreeQ.

(** ** Views used by the further properties *)

(** the sum of the entries of an action vector *)
Definition entry_sum (actions : list Z) : Z := foldr Z.add 0 actions.

(** The softmax that [CNode::expand] computes over the logits [ls] of the
    legal actions, in the order of its loops: the running maximum from
    [FLOAT_MIN], the sum of the exponentials from [0.0], and the quotient. *)
Section Softmax.
Context {F : Type} `{FO : FloatOps F} `{U : Utils F}.

Definition running_max (ls : list F) : F :=
  foldl (λ m x, if flt m x then x else m) FLOAT_MIN ls.

Definition exp_sum (m : F) (ls : list F) : F :=
  foldl (λ s x, fadd s (fexp (fsub x m))) fzero ls.

Definition softmax (ls : list F) (x : F) : F :=
  fdiv (fexp (fsub x (running_max ls))) (exp_sum (running_max ls) ls).
End Softmax.

(** Two heaps with the same addresses whose nodes are related by [R]. *)
Definition heap_rel {F} (R : CNode F → CNode F → Prop) (h h' : heap F)
    : Prop :=
  ∀ a, option_Forall2 R (h !! a) (h' !! a).

(** [n'] is [n] but for its prior *)
Definition same_but_prior {F} (n n' : CNode F) : Prop :=
  n' = set_prior n (prior n').

(** The prior after [add_exploration_noise]:
    [prior * (1 - exploration_fraction) + noise * exploration_fraction]. *)
Definition noised {F} `{FloatOps F} (exploration_fraction noise p : F) : F :=
  fadd (fmul p (fsub fone exploration_fraction))
       (fmul noise exploration_fraction).

(** [n'] is [n] but for its visit count and its value sum *)
Definition same_but_visits {F} (n n' : CNode F) : Prop :=
  n' = mkCNode (prior n) (legal_actions n) (is_reset n) (visit_count n')
         (value_sum n') (best_action n) (to_play n) (value_prefix n)
         (parent_value_prefix n) (current_latent_state_index n)
         (batch_index n) (children n).

(** how many times the node at [a] occurs on [path] *)
Definition occurrences (a : addr) (path : list addr) : Z :=
  Z.of_nat (length (filter (λ b, b = a) path)).

(** What a run of [cbackpropagate] along [path] does to the nodes of the
    heap. *)
Definition backprop_effect {F} (path : list addr) (h h' : heap F) : Prop :=
  ∀ a n, h !! a = Some n →
    ∃ n', h' !! a = Some n'
      ∧ same_but_visits n n'
      ∧ visit_count n' = visit_count n + occurrences a path
      ∧ (a ∉ path → n' = n).

(** [n'] is [n] but for its best action *)
Definition same_but_best_action {F} (n n' : CNode F) : Prop :=
  n' = set_best_action n (best_action n').

(** the node at [c] is a child of the node at [a] *)
Definition child_of {F} (h : heap F) (a c : addr) : Prop :=
  ∃ n k, h !! a = Some n ∧ children n !! k = Some c.

(** every node of [path] but the first is a child of the one before it *)
Definition chain {F} (h : heap F) (path : list addr) : Prop :=
  ∀ i a b, path !! i = Some a → path !! S i = Some b → child_of h a b.

(** no node is its own descendant: some rank grows from a node to its
    children *)
Definition acyclic {F} (h : heap F) : Prop :=
  ∃ rank : addr → nat, ∀ a b, child_of h a b → (rank a < rank b)%nat.

(** [virtual_to_play] after [k] flips between the players 1 and 2 *)
Definition flipped (k vtp : Z) : Z := if Z.even k then vtp else 3 - vtp.

Section WalkStep.
Context {F : Type} `{FO : FloatOps F} `{K : Consts} `{U : Utils F}
        {St : Type} `{MM : MinMaxStats F St}.

(** One turn of the [while] loop, as a relation between the states before
    and after it. *)
Definition walk_step (stats : St) (base : Z) (init γ : F) (players : Z)
    (rand : nat → Z) (h : heap F) (w : Walk F) (h' : heap F) (w' : Walk F)
    : Prop :=
  ∃ n mean_q actions rng vtp c,
    h !! w_node w = Some n ∧ expanded n = true
    ∧ compute_mean_q h n (w_is_root w) (w_parent_q w) γ = Some mean_q
    ∧ cselect_child h n stats base init γ mean_q players rand (w_rng w)
      = Some (actions, rng)
    ∧ flip_to_play players (w_vtp w) = Some vtp
    ∧ get_child_vec n actions = Some c
    ∧ h' = <[w_node w := set_best_action n actions]> h
    ∧ w' = mkWalk c 0 mean_q vtp rng (w_path w ++ [c])
             (record_last_actions (w_last w) actions) (w_len w + 1).
End WalkStep.

(** The traversal of the two prepared roots of [Pair], in single-player and
    in two-player mode. *)
Module Walked.
Import Rat.

Definition batch : heap num := Pair.tree1 ∪ Pair.tree2.

Definition both_roots : CRoots := mkCRoots 2 [1%positive; 2%positive].

Definition traverse (vtps : list Z)
    : option (heap num * CSearchResults * list Z) :=
  cbatch_traverse (K := consts_1_2) 5 Pair.counting batch both_roots 19652
    (Fin (5 # 4)) (Fin 1) [Example.no_stats; Example.no_stats] 2 vtps.
End Walked.

(** [n'] is [n] but for its parent value prefix *)
Definition same_but_parent_prefix {F} (n n' : CNode F) : Prop :=
  n' = set_parent_value_prefix n (parent_value_prefix n').

(** The bootstrap values of [cbackpropagate], computed on the heap as it is
    before the call: [bootstrap_from] follows the loop from the index
    [k - 1] down to [0] with the value [bv] and puts in front of [acc] the
    value with which each node is reached.  [tp = -1] is the branch of one
    player. *)
Section Bootstrap.
Context {F : Type} `{FO : FloatOps F}.

Fixpoint bootstrap_from (h : heap F) (path : list addr) (tp : Z) (γ : F)
    (k : nat) (bv : F) (acc : list F) : option (list F) :=
  match k with
  | O => Some acc
  | S i =>
      a ← path !! i;
      node ← h !! a;
      '(parent_value_prefix, r) ← parent_info h path i;
      let true_reward :=
        if r =? 1 then value_prefix node
        else fsub (value_prefix node) parent_value_prefix in
      bootstrap_from h path tp γ i
        (if negb (tp =? -1) && (to_play node =? tp)
         then fadd (fneg true_reward) (fmul γ bv)
         else fadd true_reward (fmul γ bv))
        (bv :: acc)
  end.

Definition bootstrap_values (h : heap F) (path : list addr) (tp : Z)
    (v γ : F) : option (list F) :=
  bootstrap_from h path tp γ (length path) v [].

(** the value added to [value_sum] of [n] for the bootstrap value [b] *)
Definition signed_for (tp : Z) (n : CNode F) (b : F) : F :=
  if (tp =? -1) || (to_play n =? tp) then b else fneg b.

(** The nodes at the first [k] addresses of [path] have received, in [h'],
    one visit and the values [Bs]. *)
Definition added (tp : Z) (path : list addr) (k : nat) (Bs : list F)
    (h h' : heap F) : Prop :=
  ∀ i a n, (i < k)%nat → path !! i = Some a → h !! a = Some n →
    ∃ B, Bs !! i = Some B
      ∧ h' !! a
        = Some (incr_visit_count (add_value_sum n (signed_for tp n B))).
End Bootstrap.

(** The best actions of the nodes of [path] lead from each of them to the
    next. *)
Definition recorded {F} `{K : Consts} (h : heap F) (path : list addr)
    : Prop :=
  ∀ i a b, path !! i = Some a → path !! S i = Some b →
    ∃ n, h !! a = Some n ∧ get_child_vec n (best_action n) = Some b.

(** The traversal of the first prepared root of [Pair], alone. *)
Module Alone.
Import Rat.

Definition traverse : option (heap num * CSearchResults * list Z) :=
  cbatch_traverse (K := consts_1_2) 5 Pair.counting Pair.tree1
    (mkCRoots 1 [1%positive]) 19652 (Fin (5 # 4)) (Fin 1)
    [Example.no_stats] 1 [-1].
End Alone.

(** What [prepare] and [prepare_no_noise] do to the root with index [i]:
    [n] is the root before and [n'] the root after the call. *)
Definition prepared_as {F} (i : nat) (tp : Z) (vp : F) (pol : list F)
    (n n' : CNode F) : Prop :=
  visit_count n' = visit_count n + 1
  ∧ to_play n' = tp
  ∧ current_latent_state_index n' = 0
  ∧ batch_index n' = Z.of_nat i
  ∧ value_prefix n' = vp
  ∧ value_sum n' = value_sum n
  ∧ legal_actions n' = default_legal_actions n (Z.of_nat (length pol))
  ∧ dom (children n') = dom (children n) ∪ list_to_set (legal_actions n').

(** What one iteration [body] of the loop of [prepare] or of
    [prepare_no_noise] does: the root with index [i] is prepared, and the
    nodes that are neither this root nor newly allocated keep every field
    but the prior. *)
Definition prepares {F} `{AL : Allocator} (R : CRoots) (vps : list F)
    (pols : list (list F)) (tps : list Z)
    (body : heap F → nat → option (heap F)) : Prop :=
  ∀ h h' i, body h i = Some h' →
    ∃ r tp vp pol,
      roots R !! i = Some r ∧ tps !! i = Some tp ∧ vps !! i = Some vp
      ∧ pols !! i = Some pol
      ∧ (∀ n, h !! r = Some n →
           ∃ n', h' !! r = Some n' ∧ prepared_as i tp vp pol n n')
      ∧ (∀ b n, b ≠ r → (∀ j, b ≠ new_addr r j) → h !! b = Some n →
           ∃ n', h' !! b = Some n' ∧ same_but_prior n n').

(** ** Views used by the properties of selection and of termination *)

(** The candidate list [lst] and the final [max_score] [M] of
    [cselect_child] for the scores [scs], taken in the order of the loop.
    While no score exceeds [FLOAT_MIN], [M] is [FLOAT_MIN] and the
    candidates are the children within the margin of it.  Otherwise [M] is
    the score of the child [a] that last raised [max_score]: [M] exceeds
    the running maximum of the scores before it, no later score exceeds
    [M], and the candidates are [a] and the later children within the
    margin of [M]. *)
Definition last_raise_candidates {F} `{FO : FloatOps F} `{U : Utils F}
    (scs : list (Z * F)) (M : F) (lst : list Z) : Prop :=
  (Forall (λ p, flt FLOAT_MIN p.2 = false) scs
   ∧ M = FLOAT_MIN ∧ lst = margin_filter FLOAT_MIN scs)
  ∨ (∃ pre a post,
       scs = pre ++ (a, M) :: post
       ∧ flt (running_max (snd <$> pre)) M = true
       ∧ Forall (λ p, flt M p.2 = false) post
       ∧ lst = a :: margin_filter M post).

(** The node that [get_child(key)] of [n] points to. *)
Definition child_at {F} (h : heap F) (n : CNode F) (key : Z)
    : option (CNode F) :=
  c ← get_child n key; h !! c.

(** A node from which the loop of [cbatch_traverse] can go on: the children
    that [compute_mean_q] and [cselect_child] look up are nodes of the heap,
    and so is the child with the key [0], which is the one that
    [get_child] returns for the vector of [-1]s and for a selected action
    outside [0, ACTIONS_PER_PLAYER). *)
Definition descends {F} `{K : Consts} (h : heap F) (n : CNode F) : Prop :=
  Forall (λ key, is_Some (child_at h n (u64 key))) (mean_q_keys n)
  ∧ is_Some (child_at h n 0).

(** every expanded node of the heap descends *)
Definition searchable {F} `{K : Consts} (h : heap F) : Prop :=
  map_Forall (λ _ n, expanded n = true → descends h n) h.

(** The inputs on which [cbatch_traverse] runs to its end: the constants
    are positive [int]s, the heap is searchable and without cycles, the
    vectors hold [results.num] entries, the roots are expanded nodes, and
    [virtual_to_play_batch] is that of one player (its largest entry is
    [-1]) or holds only [1] and [2]. *)
Definition traversable {F} `{K : Consts} {St : Type} (h : heap F)
    (R : CRoots) (stats_lst : list St) (results_num : Z)
    (virtual_to_play_batch : list Z) : Prop :=
  0 < NUM_ACTION_HEADS ∧ 0 < ACTIONS_PER_PLAYER ∧ TOTAL_ACTIONS < 2 ^ 31
  ∧ searchable h ∧ acyclic h
  ∧ 0 ≤ results_num
  ∧ (Z.to_nat results_num ≤ length (roots R))%nat
  ∧ (Z.to_nat results_num ≤ length stats_lst)%nat
  ∧ (Z.to_nat results_num ≤ length virtual_to_play_batch)%nat
  ∧ Forall (λ r, ∃ n, h !! r = Some n ∧ expanded n = true)
      (take (Z.to_nat results_num) (roots R))
  ∧ virtual_to_play_batch ≠ []
  ∧ (infer_players virtual_to_play_batch = Some 1
     ∨ Forall (λ v, v = 1 ∨ v = 2)
         (take (Z.to_nat results_num) virtual_to_play_batch)).

(** The legal actions of every node are indices of a vector of [m]
    logits. *)
Definition expandable_on {F} (m : nat) (h : heap F) : Prop :=
  map_Forall (λ _ n, Forall (λ a, 0 ≤ a < Z.of_nat m) (legal_actions n)) h.

(** The vectors that [cbatch_backpropagate] reads hold [results.num]
    entries, the policies have [m] logits each, and the players to play are
    [-1], [1] or [2]. *)
Definition backpropagable {F} (results_num : Z) (m : nat)
    (value_prefixs values : list F) (policies : list (list F))
    (is_reset_list to_play_batch : list Z) : Prop :=
  (Z.to_nat results_num ≤ length value_prefixs)%nat
  ∧ (Z.to_nat results_num ≤ length values)%nat
  ∧ (Z.to_nat results_num ≤ length policies)%nat
  ∧ (Z.to_nat results_num ≤ length is_reset_list)%nat
  ∧ (Z.to_nat results_num ≤ length to_play_batch)%nat
  ∧ Forall (λ pol, length pol = m) (take (Z.to_nat results_num) policies)
  ∧ Forall (λ tp, tp = -1 ∨ tp = 1 ∨ tp = 2)
      (take (Z.to_nat results_num) to_play_batch).

(** * Properties *)

Lemma u64_small z : 0 ≤ z < 2 ^ 64 → u64 z = z.
Proof. intros Hz. unfold u64. by apply Z.mod_small. Qed.

(** ** The action codec *)

Section CodecFacts.
Context `{K : Consts}.
Hypothesis heads_pos : 0 < NUM_ACTION_HEADS.
Hypothesis actions_pos : 0 < ACTIONS_PER_PLAYER.
Hypothesis total_int : TOTAL_ACTIONS < 2 ^ 31.

Lemma heads_le_total : NUM_ACTION_HEADS ≤ TOTAL_ACTIONS.
Proof using All. unfold TOTAL_ACTIONS. nia. Qed.

Lemma u64_heads : u64 NUM_ACTION_HEADS = NUM_ACTION_HEADS.
Proof using All. apply u64_small. pose proof heads_le_total. lia. Qed.

Lemma u64_total : u64 TOTAL_ACTIONS = TOTAL_ACTIONS.
Proof using All. apply u64_small. pose proof heads_le_total. lia. Qed.

Lemma head_sum_bounds (actions : list Z) (i : Z) :
  0 ≤ i →
  i + Z.of_nat (length actions) ≤ NUM_ACTION_HEADS →
  Forall (λ a, 0 ≤ a < ACTIONS_PER_PLAYER) actions →
  0 ≤ head_sum i actions ≤ Z.of_nat (length actions) * TOTAL_ACTIONS.
Proof using All.
  revert i. induction actions as [|a rest IH]; intros i Hi Hlen Hall.
  - simpl. lia.
  - apply Forall_cons in Hall as [Ha Hrest].
    cbn [head_sum length] in *.
    specialize (IH (i + 1) ltac:(lia) ltac:(lia) Hrest).
    assert (a + i * ACTIONS_PER_PLAYER < TOTAL_ACTIONS)
      by (unfold TOTAL_ACTIONS; nia).
    assert (0 ≤ i * ACTIONS_PER_PLAYER) by nia.
    nia.
Qed.

Lemma encode_from_sum (actions : list Z) (i encoded : Z) :
  0 ≤ i →
  i + Z.of_nat (length actions) ≤ NUM_ACTION_HEADS →
  Forall (λ a, 0 ≤ a < ACTIONS_PER_PLAYER) actions →
  0 ≤ encoded →
  encoded + head_sum i actions < 2 ^ 64 →
  encode_from i actions encoded = encoded + head_sum i actions.
Proof using All.
  revert i encoded.
  induction actions as [|a rest IH]; intros i encoded Hi Hlen Hall He Hlt.
  - simpl. lia.
  - pose proof (head_sum_bounds _ _ Hi Hlen Hall) as Hb.
    apply Forall_cons in Hall as [Ha Hrest].
    cbn [encode_from head_sum length] in *.
    pose proof (head_sum_bounds rest (i + 1) ltac:(lia) ltac:(lia) Hrest).
    assert (0 ≤ i * ACTIONS_PER_PLAYER) by nia.
    rewrite u64_heads.
    destruct (Z.ltb_spec i NUM_ACTION_HEADS); [|lia].
    destruct (Z.leb_spec 0 a); [|lia].
    destruct (Z.ltb_spec a ACTIONS_PER_PLAYER); [|lia].
    cbn [andb].
    rewrite (u64_small a), (u64_small (i * _)), (u64_small (a + _)),
      (u64_small (encoded + _)) by lia.
    rewrite IH; [lia | lia | lia | done | lia | lia].
Qed.

Lemma encode_from_negative (rest : list Z) (i encoded : Z) :
  Forall (λ a, a < 0) rest →
  encode_from i rest encoded = encoded.
Proof using All.
  revert i. induction rest as [|a rest IH]; intros i Hall; [done|].
  apply Forall_cons in Hall as [Ha Hrest]. cbn [encode_from].
  destruct (i <? u64 NUM_ACTION_HEADS); [|done].
  destruct (Z.leb_spec 0 a); [lia|]. cbn [andb]. by apply IH.
Qed.
End CodecFacts.

(** C6.  For an action vector of length [NUM_ACTION_HEADS] whose entries all
    lie in [0, ACTIONS_PER_PLAYER), [encode_action] returns the sum over the
    heads [i] of [a_i + i * ACTIONS_PER_PLAYER] when that sum is at most
    [TOTAL_ACTIONS - 1], and [TOTAL_ACTIONS - 1] otherwise.  The constants are
    positive and [TOTAL_ACTIONS] is an [int]. *)
Theorem encode_action_sum_clamped `{K : Consts} (actions : list Z) :
  0 < NUM_ACTION_HEADS →
  0 < ACTIONS_PER_PLAYER →
  TOTAL_ACTIONS < 2 ^ 31 →
  Z.of_nat (length actions) = NUM_ACTION_HEADS →
  Forall (λ a, 0 ≤ a < ACTIONS_PER_PLAYER) actions →
  encode_action actions =
    if decide (head_sum 0 actions ≤ TOTAL_ACTIONS - 1)
    then head_sum 0 actions else TOTAL_ACTIONS - 1.
Proof.
  intros HH HA HT Hlen Hall. unfold encode_action.
  pose proof (head_sum_bounds HH HA HT actions 0 ltac:(lia) ltac:(lia) Hall) as Hb.
  pose proof (heads_le_total HH HA HT).
  rewrite (encode_from_sum HH HA HT) by (done || nia).
  rewrite (u64_total HH HA HT), Z.add_0_l.
  destruct (Z.ltb_spec (head_sum 0 actions) TOTAL_ACTIONS);
    case_decide; try lia.
  apply u64_small. lia.
Qed.

Lemma encode_action_sum_clamped_witness :
  encode_action (K := Rat.consts_2_4) [0; 1] = 5.
Proof.
  rewrite (encode_action_sum_clamped (K := Rat.consts_2_4) [0; 1]).
  - reflexivity.
  - reflexivity.
  - reflexivity.
  - reflexivity.
  - reflexivity.
  - repeat constructor; cbn; lia.
Defined.

(** C10.  For an action vector of length [NUM_ACTION_HEADS] whose first entry
    [a] lies in [0, ACTIONS_PER_PLAYER) and whose other entries are negative
    sentinels, [encode_action] returns [a], and the vector overload of
    [get_child] returns what the scalar overload returns for [a]: the
    traversal descends to the child that was scored for [a]. *)
Theorem get_child_first_slot {F} `{K : Consts} (n : CNode F) (a : Z)
    (rest : list Z) :
  0 < NUM_ACTION_HEADS →
  0 < ACTIONS_PER_PLAYER →
  TOTAL_ACTIONS < 2 ^ 31 →
  Z.of_nat (length (a :: rest)) = NUM_ACTION_HEADS →
  0 ≤ a < ACTIONS_PER_PLAYER →
  Forall (λ x, x < 0) rest →
  encode_action (a :: rest) = a
  ∧ get_child_vec n (a :: rest) = get_child n (u64 a).
Proof.
  intros HH HA HT Hlen Ha Hneg.
  pose proof (heads_le_total HH HA HT) as Hle.
  assert (ACTIONS_PER_PLAYER ≤ TOTAL_ACTIONS) by (unfold TOTAL_ACTIONS; nia).
  assert (Henc : encode_action (a :: rest) = a).
  { unfold encode_action. cbn [encode_from].
    rewrite (u64_heads HH HA HT), (u64_total HH HA HT).
    destruct (Z.ltb_spec 0 NUM_ACTION_HEADS); [|lia].
    destruct (Z.leb_spec 0 a); [|lia].
    destruct (Z.ltb_spec a ACTIONS_PER_PLAYER); [|lia].
    cbn [andb]. rewrite encode_from_negative by done.
    rewrite Z.mul_0_l, (u64_small 0), Z.add_0_r, Z.add_0_l by lia.
    rewrite !(u64_small a) by lia.
    destruct (Z.ltb_spec a TOTAL_ACTIONS); [done | lia]. }
  split; [done|].
  unfold get_child_vec, get_child.
  rewrite Henc, (u64_heads HH HA HT), Hlen, Z.eqb_refl, (u64_small a) by lia.
  done.
Qed.

Lemma get_child_first_slot_witness :
  encode_action (K := Rat.consts_4_2) [1; -1; -1; -1] = 1
  ∧ get_child_vec (K := Rat.consts_4_2)
      (CNode_new (F := Rat.num) (Rat.Fin 0) []) [1; -1; -1; -1]
    = get_child (CNode_new (F := Rat.num) (Rat.Fin 0) []) (u64 1).
Proof.
  apply (get_child_first_slot (K := Rat.consts_4_2)).
  - reflexivity.
  - reflexivity.
  - reflexivity.
  - reflexivity.
  - cbn. lia.
  - repeat constructor.
Defined.

(** ** The player count *)

Lemma max_element_from_spec (l : list Z) (best : Z) :
  let m := max_element_from best l in
  (m = best ∨ m ∈ l) ∧ best ≤ m ∧ Forall (λ x, x ≤ m) l.
Proof.
  revert best. induction l as [|x rest IH]; intros best; cbn.
  - split; [by left | split; [reflexivity | constructor]].
  - destruct (IH (if best <? x then x else best)) as (Hm & Hle & Hall).
    rewrite elem_of_cons.
    destruct (Z.ltb_spec best x);
      (split; [tauto | split; [lia | constructor; [lia | done]]]).
Qed.

Lemma max_element_spec (l : list Z) (m : Z) :
  max_element l = Some m → m ∈ l ∧ Forall (λ x, x ≤ m) l.
Proof.
  destruct l as [|x rest]; [done|]. intros [= <-].
  destruct (max_element_from_spec rest x) as (Hm & Hle & Hall). cbn in *.
  rewrite elem_of_cons.
  split; [tauto | constructor; [lia | done]].
Qed.

(** C3, as stated: one player as soon as some entry of the batch is [-1].
    The batch [[-1; 1]] has such an entry and is searched with two. *)
Lemma players_any_minus_one_counterexample :
  ¬ (∀ (virtual_to_play_batch : list Z) (players : Z),
       infer_players virtual_to_play_batch = Some players →
       players = if decide (-1 ∈ virtual_to_play_batch) then 1 else 2).
Proof.
  intros Hclaim. specialize (Hclaim [-1; 1] 2 eq_refl).
  rewrite decide_True in Hclaim; [lia | apply elem_of_cons; by left].
Qed.

(** C3, amended.  [cbatch_traverse] passes [infer_players] of the batch to
    every [cselect_child] and flip.  On a non-empty batch it is [1] when
    the largest entry is [-1], that is when some entry is [-1] and none
    exceeds it, and [2] otherwise. *)
Theorem players_from_largest_element (virtual_to_play_batch : list Z) :
  virtual_to_play_batch ≠ [] →
  ∃ players,
    infer_players virtual_to_play_batch = Some players
    ∧ (players = 1 ∨ players = 2)
    ∧ (players = 1 ↔
         -1 ∈ virtual_to_play_batch
         ∧ Forall (λ v, v ≤ -1) virtual_to_play_batch).
Proof.
  intros Hne. unfold infer_players.
  destruct (max_element virtual_to_play_batch) as [m|] eqn:Hm.
  - apply max_element_spec in Hm as [Hin Hall]. cbn.
    destruct (Z.eqb_spec m (-1)) as [->|Hneq].
    + exists 1. split; [done|]. split; [by left|]. done.
    + exists 2. split; [done|]. split; [by right|].
      split; [lia|]. intros [Hin' Hall'].
      rewrite Forall_forall in Hall, Hall'.
      specialize (Hall _ Hin'). specialize (Hall' _ Hin). lia.
  - destruct virtual_to_play_batch; [done | discriminate].
Qed.

Lemma players_from_largest_element_witness :
  ∃ players,
    infer_players [-1; -1] = Some players
    ∧ (players = 1 ∨ players = 2)
    ∧ (players = 1 ↔ -1 ∈ [-1; -1] ∧ Forall (λ v, v ≤ -1) [-1; -1]).
Proof. apply (players_from_largest_element [-1; -1]). discriminate. Defined.

(** ** Child lookups of [compute_mean_q] *)

Section LookupFacts.
Context {F : Type} `{FO : FloatOps F} `{K : Consts} `{U : Utils F}
        `{AL : Allocator}.

Lemma mean_q_loop_null (h : heap F) (n : CNode F) (γ : F) (acc : F * Z)
    (keys : list Z) (key : Z) :
  key ∈ keys →
  get_child n (u64 key) = None →
  mean_q_loop h n γ acc keys = None.
Proof.
  intros Hin Hnull. revert acc.
  induction keys as [|k rest IH]; intros acc; [by apply elem_of_nil in Hin|].
  apply elem_of_cons in Hin as [<-|Hin]; cbn [mean_q_loop].
  - unfold mean_q_step. by rewrite Hnull.
  - destruct (mean_q_step h n γ acc k) as [acc'|]; [|done]. cbn.
    by apply IH.
Qed.

Lemma compute_mean_q_null (h : heap F) (n : CNode F) (isRoot : Z)
    (parent_q γ : F) (key : Z) :
  key ∈ mean_q_keys n →
  get_child n (u64 key) = None →
  compute_mean_q h n isRoot parent_q γ = None.
Proof.
  intros Hin Hnull. unfold compute_mean_q.
  by rewrite (mean_q_loop_null _ _ _ _ _ _ Hin Hnull).
Qed.

Lemma mean_q_keys_head (n : CNode F) (a : Z) :
  0 < NUM_ACTION_HEADS →
  a ∈ legal_actions n →
  a + 0 * ACTIONS_PER_PLAYER ∈ mean_q_keys n.
Proof.
  intros HH Ha. unfold mean_q_keys. apply list_elem_of_bind.
  exists 0. split; [|apply elem_of_seqZ; lia].
  apply list_elem_of_fmap. by exists a.
Qed.
End LookupFacts.

(** C9, at a failing input.  A root constructed with the legal actions
    [[1]] and expanded on two logits owns exactly one child, under the key
    [1]; the lookup [get_child(1 + 0 * ACTIONS_PER_PLAYER)] of
    [compute_mean_q] returns the null pointer, because the key is not below
    [children.size() = 1], and [compute_mean_q] dereferences it. *)
Theorem expand_sparse_legal_null_child {F} `{FO : FloatOps F} `{K : Consts}
    `{U : Utils F} `{AL : Allocator} (r : addr) (p x0 x1 vp : F)
    (tp cli bi : Z) :
  0 < NUM_ACTION_HEADS →
  ∃ h' n',
    expand {[ r := CNode_new p [1] ]} r tp cli bi vp [x0; x1] = Some h'
    ∧ h' !! r = Some n'
    ∧ legal_actions n' = [1]
    ∧ dom (children n') = {[ 1 ]}
    ∧ get_child n' (u64 (1 + 0 * ACTIONS_PER_PLAYER)) = None
    ∧ ∀ isRoot parent_q γ, compute_mean_q h' n' isRoot parent_q γ = None.
Proof.
  intros HH. unfold expand. rewrite lookup_singleton_eq. cbn.
  change (Z.to_nat 1) with 1%nat. cbn.
  rewrite lookup_insert_eq. cbn.
  eexists _, _. split; [reflexivity|].
  split; [apply lookup_insert_eq|]. cbn.
  split; [done|].
  split; [by rewrite insert_empty, dom_singleton_L|].
  assert (Hnull : ∀ ch : gmap Z addr, ch = <[1 := new_addr r 0]> ∅ →
            ∀ n' : CNode F, children n' = ch →
            get_child n' (u64 (1 + 0 * ACTIONS_PER_PLAYER)) = None).
  { intros ch -> n' Hch. unfold get_child.
    rewrite Hch, insert_empty, map_size_singleton, Z.mul_0_l. done. }
  split.
  - by eapply Hnull.
  - intros isRoot parent_q γ.
    eapply compute_mean_q_null; [|by eapply Hnull].
    apply mean_q_keys_head; [done|]. cbn. by left.
Qed.

Lemma expand_sparse_legal_null_child_witness :
  ∃ h' n',
    expand (U := Rat.utils) (AL := Rat.alloc)
      {[ 1%positive := CNode_new (Rat.Fin 0) [1] ]} 1%positive (-1) 0 0
      (Rat.Fin 0) [Rat.Fin 0; Rat.Fin 0] = Some h'
    ∧ h' !! 1%positive = Some n'
    ∧ legal_actions n' = [1]
    ∧ dom (children n') = {[ 1 ]}
    ∧ get_child n' (u64 (1 + 0 * ACTIONS_PER_PLAYER (Consts := Rat.consts_4_2))) = None
    ∧ ∀ isRoot parent_q γ,
        compute_mean_q (K := Rat.consts_4_2) h' n' isRoot parent_q γ = None.
Proof.
  apply (expand_sparse_legal_null_child (K := Rat.consts_4_2)).
  reflexivity.
Defined.

(** With two or more heads, [compute_mean_q] also looks up
    [a + ACTIONS_PER_PLAYER] for the largest legal action [a]; [expand] never
    creates that key. *)
Section TwoHeads.
Context {F : Type} `{FO : FloatOps F} `{K : Consts} `{U : Utils F}
        `{AL : Allocator}.

Lemma expand_children_keys (this : addr) (policy : gmap Z F) (policy_sum : F)
    (legal : list Z) (j : nat) (h h' : heap F) (ch ch' : gmap Z addr) :
  expand_children this policy policy_sum j legal h ch = Some (h', ch') →
  dom ch' = dom ch ∪ list_to_set legal.
Proof.
  revert j h ch. induction legal as [|a rest IH]; intros j h ch Hrun.
  - cbn in Hrun. injection Hrun as <- <-.
    by rewrite list_to_set_nil, (right_id_L ∅ (∪)).
  - cbn [expand_children] in Hrun.
    destruct (policy !! a) as [p|]; [|done]. cbn in Hrun.
    apply IH in Hrun. rewrite Hrun, dom_insert_L, list_to_set_cons.
    apply set_eq. intros x. rewrite !elem_of_union. tauto.
Qed.

Lemma expand_node (h h' : heap F) (this : addr) (n : CNode F)
    (tp cli bi : Z) (vp : F) (policy_logits : list F) :
  h !! this = Some n →
  expand h this tp cli bi vp policy_logits = Some h' →
  ∃ n', h' !! this = Some n'
    ∧ legal_actions n'
      = default_legal_actions n (Z.of_nat (length policy_logits))
    ∧ dom (children n') = dom (children n) ∪ list_to_set (legal_actions n').
Proof.
  intros Hn Hrun. unfold expand in Hrun. rewrite Hn in Hrun. cbn in Hrun.
  destruct (expand_max _ _ _) as [pm|]; [|done]. cbn in Hrun.
  destruct (expand_exp _ _ _ _ _) as [[ps pol]|]; [|done]. cbn in Hrun.
  destruct (expand_children _ _ _ _ _ _ _) as [[h1 ch]|] eqn:Hch; [|done].
  cbn in Hrun. injection Hrun as <-.
  eexists. split; [apply lookup_insert_eq|]. cbn. split; [done|].
  by eapply expand_children_keys.
Qed.

Lemma two_heads_null_lookup (n : CNode F) :
  2 ≤ NUM_ACTION_HEADS →
  0 < ACTIONS_PER_PLAYER < 2 ^ 31 →
  legal_actions n ≠ [] →
  Forall (λ a, 0 ≤ a < 2 ^ 31) (legal_actions n) →
  dom (children n) = list_to_set (legal_actions n) →
  ∃ key, key ∈ mean_q_keys n ∧ get_child n (u64 key) = None.
Proof.
  intros HH HA Hne Hrange Hdom.
  destruct (max_element (legal_actions n)) as [m|] eqn:Hm;
    [|by destruct (legal_actions n)].
  apply max_element_spec in Hm as [Hin Hmax].
  exists (m + 1 * ACTIONS_PER_PLAYER). split.
  - unfold mean_q_keys. apply list_elem_of_bind. exists 1.
    split; [|apply elem_of_seqZ; lia].
    apply list_elem_of_fmap. by exists m.
  - rewrite Forall_forall in Hrange. specialize (Hrange _ Hin).
    rewrite u64_small by lia. unfold get_child.
    destruct (_ <=? _); [done|].
    apply not_elem_of_dom. rewrite Hdom, elem_of_list_to_set.
    intros Hin'. rewrite Forall_forall in Hmax.
    specialize (Hmax _ Hin'). cbn in Hmax. lia.
Qed.

(** Every node expanded from a childless one on non-negative legal
    actions makes [compute_mean_q] dereference a null pointer. *)
Lemma compute_mean_q_faults_with_two_heads (h h' : heap F) (this : addr)
    (n : CNode F) (tp cli bi : Z) (vp : F) (policy_logits : list F) :
  2 ≤ NUM_ACTION_HEADS →
  0 < ACTIONS_PER_PLAYER < 2 ^ 31 →
  h !! this = Some n →
  children n = ∅ →
  expand h this tp cli bi vp policy_logits = Some h' →
  ∃ n', h' !! this = Some n' ∧
    (legal_actions n' ≠ [] →
     Forall (λ a, 0 ≤ a < 2 ^ 31) (legal_actions n') →
     ∀ isRoot parent_q γ, compute_mean_q h' n' isRoot parent_q γ = None).
Proof.
  intros HH HA Hn Hch Hrun.
  destruct (expand_node _ _ _ _ _ _ _ _ _ Hn Hrun) as (n' & Hn' & _ & Hdom).
  exists n'. split; [done|]. intros Hne Hrange isRoot parent_q γ.
  rewrite Hch, dom_empty_L, (left_id_L ∅ (∪)) in Hdom.
  destruct (two_heads_null_lookup n' HH HA Hne Hrange Hdom)
    as (key & Hkey & Hnull).
  by eapply compute_mean_q_null.
Qed.
End TwoHeads.

(** ** [compute_mean_q] at the root *)

Section MeanQ.
Context {F : Type} `{FO : FloatOps F} `{K : Consts}.

Lemma mean_q_loop_views (h : heap F) (n : CNode F) (γ : F) (keys : list Z)
    (cs : list (CNode F)) (q : F) (v : Z) :
  mapM (λ key, c ← get_child n (u64 key); h !! c) keys = Some cs →
  mean_q_loop h n γ (q, v) keys
  = Some (foldl fadd q (qsa_of n γ <$> visited cs),
          v + Z.of_nat (length (visited cs))).
Proof.
  revert cs q v. induction keys as [|key rest IH]; intros cs q v Hcs.
  - cbn in Hcs. injection Hcs as <-. cbn. do 2 f_equal. lia.
  - cbn [mapM] in Hcs. cbn [mean_q_loop]. unfold mean_q_step at 1.
    destruct (get_child n (u64 key)) as [c|]; [|done]. cbn in Hcs |- *.
    destruct (h !! c) as [child|]; [|done]. cbn in Hcs |- *.
    destruct (mapM _ rest) as [cs'|] eqn:Hrest; [|done].
    cbn in Hcs. injection Hcs as <-.
    unfold visited. rewrite filter_cons.
    destruct (Z.ltb_spec 0 (visit_count child)).
    + rewrite decide_True by done. cbn.
      rewrite (IH cs') by done. unfold visited, qsa_of, true_reward_of.
      do 2 f_equal. lia.
    + rewrite decide_False by lia. cbn. by rewrite (IH cs').
Qed.
End MeanQ.

(** C1, as stated: at a root without visited children the result is [0]
    for every [parent_q].  On the first prepared root, none of whose children
    is visited, [parent_q = 1] gives [1]. *)
Lemma mean_q_unvisited_root_counterexample :
  ∃ h n cs,
    Example.prepared = Some h
    ∧ h !! 1%positive = Some n
    ∧ looked_up_children (K := Rat.consts_1_2) h n = Some cs
    ∧ visited cs = []
    ∧ compute_mean_q (K := Rat.consts_1_2) h n 1 (Rat.Fin 1) (Rat.Fin 1)
      = Some (Rat.Fin 1)
    ∧ Rat.Fin 1 ≠ fzero.
Proof.
  eexists _, _, _.
  split; [vm_compute; reflexivity|].
  split; [vm_compute; reflexivity|].
  split; [vm_compute; reflexivity|].
  split; [vm_compute; reflexivity|].
  split; [vm_compute; reflexivity|].
  discriminate.
Qed.

(** C1, amended.  Called with [isRoot] set on a node all of whose child
    lookups succeed, [compute_mean_q] returns the arithmetic mean of
    [qsa = true_reward + discount_factor * child.value()] over the visited
    children it looked up; when none is visited it returns
    [(parent_q + 0.0) / (0 + 1)], the value of [parent_q]. *)
Theorem compute_mean_q_at_root {F} `{FO : FloatOps F} `{K : Consts}
    (h : heap F) (n : CNode F) (isRoot : Z) (parent_q γ : F)
    (cs : list (CNode F)) :
  isRoot ≠ 0 →
  looked_up_children h n = Some cs →
  compute_mean_q h n isRoot parent_q γ
  = Some (if decide (visited cs = [])
          then fdiv (fadd parent_q fzero) (of_int (0 + 1))
          else mean (qsa_of n γ <$> visited cs)).
Proof.
  intros Hroot Hcs. unfold compute_mean_q, looked_up_children in *.
  rewrite (mean_q_loop_views _ _ _ _ _ _ _ Hcs). cbn.
  destruct (Z.eqb_spec isRoot 0); [done|]. cbn.
  destruct (visited cs) as [|c cs'] eqn:Hv.
  - rewrite decide_True by done. done.
  - rewrite decide_False by done.
    destruct (Z.ltb_spec 0 (0 + Z.of_nat (length (c :: cs'))));
      [|cbn in *; lia].
    unfold mean, fsum. by rewrite length_fmap, Z.add_0_l.
Qed.

Lemma compute_mean_q_at_root_witness :
  compute_mean_q (K := Rat.consts_1_2) Tie.h Tie.root 1 (Rat.Fin 1) (Rat.Fin 1)
  = Some (if decide (visited [Tie.child0; Tie.child1] = [])
          then fdiv (fadd (Rat.Fin 1) fzero) (of_int (0 + 1))
          else mean (qsa_of Tie.root (Rat.Fin 1)
                       <$> visited [Tie.child0; Tie.child1])).
Proof.
  apply (compute_mean_q_at_root (K := Rat.consts_1_2) Tie.h Tie.root 1
           (Rat.Fin 1) (Rat.Fin 1) [Tie.child0; Tie.child1]).
  - lia.
  - vm_compute. reflexivity.
Defined.


(** ** Backpropagation and the reset flag *)

(** C4, what the code does.  On a path of a parent and its child, in the
    single-player and in the two-player branch, the first value passed to
    [MinMaxStats.update] is
    [child.value_prefix - parent.value_prefix + discount_factor * child.value()]
    although the parent has [is_reset] set: the override of [true_reward]
    comes after the call of [update]. *)
Theorem backprop_update_precedes_reset_override {F} `{FO : FloatOps F}
    (h : heap F) (p c : addr) (np nc : CNode F) (tp : Z) (v γ : F) :
  p ≠ c →
  h !! p = Some np →
  h !! c = Some nc →
  is_reset np = 1 →
  tp = -1 ∨ tp = 1 ∨ tp = 2 →
  ∃ h' q_root,
    cbackpropagate (St := UpdateLog F) h [p; c] [] tp v γ
    = Some (h', [fadd (fsub (value_prefix nc) (value_prefix np))
                      (fmul γ (value (leaf_visited tp v nc)));
                 q_root]).
Proof.
  intros Hpc Hp Hc Hreset Htp. unfold cbackpropagate.
  assert (Hlook : ∀ x : CNode F, <[c := x]> h !! p = Some np)
    by (intros x; by rewrite lookup_insert_ne).
  destruct Htp as [-> | [-> | ->]]; cbn; rewrite Hc; cbn;
    rewrite (Hlook _); cbn; rewrite Hreset; cbn; eexists _, _; reflexivity.
Qed.

Lemma backprop_update_precedes_reset_override_witness :
  ∃ h' q_root,
    cbackpropagate (St := UpdateLog Rat.num) Reset.h [1%positive; 2%positive]
      [] (-1) (Rat.Fin 0) (Rat.Fin 1)
    = Some (h', [fadd (fsub (value_prefix Reset.child)
                            (value_prefix Reset.parent))
                      (fmul (Rat.Fin 1)
                         (value (leaf_visited (-1) (Rat.Fin 0) Reset.child)));
                 q_root]).
Proof.
  apply (backprop_update_precedes_reset_override Reset.h 1%positive 2%positive
           Reset.parent Reset.child (-1) (Rat.Fin 0) (Rat.Fin 1)).
  - discriminate.
  - reflexivity.
  - reflexivity.
  - reflexivity.
  - left. reflexivity.
Defined.

(** At the input of scenario S5 the code submits [3 - 5 + 1 * 0 = -2]; the
    value with the override, [child.value_prefix + 1 * child.value()], is
    [3]. *)
Lemma backprop_reset_scenario :
  (fst <$> cbackpropagate (St := UpdateLog Rat.num) Reset.h
             [1%positive; 2%positive] [] (-1) (Rat.Fin 0) (Rat.Fin 1)) ≫=
    (λ h', (λ n, fadd (value_prefix n) (fmul (Rat.Fin 1) (value n)))
             <$> h' !! 2%positive)
  = Some (Rat.Fin 3)
  ∧ snd <$> cbackpropagate (St := UpdateLog Rat.num) Reset.h
              [1%positive; 2%positive] [] (-1) (Rat.Fin 0) (Rat.Fin 1)
    = Some [Rat.Fin (-2); Rat.Fin (13 # 2)].
Proof. split; vm_compute; reflexivity. Qed.

(** ** The visit-count invariant *)

Section Invariant.
Context {F : Type} `{FO : FloatOps F} `{K : Consts} `{U : Utils F}
        `{AL : Allocator} {St : Type} `{MM : MinMaxStats F St}.

Lemma heap_ok_insert (h : heap F) (a : addr) (n : CNode F) :
  heap_ok h → node_ok n → heap_ok (<[a := n]> h).
Proof. intros Hh Hn. by apply map_Forall_insert_2. Qed.

Lemma heap_ok_lookup (h : heap F) (a : addr) (n : CNode F) :
  heap_ok h → h !! a = Some n → node_ok n.
Proof. intros Hh Hn. by apply (Hh a n). Qed.

Lemma node_ok_new (p : F) (legal : list Z) : node_ok (CNode_new p legal).
Proof. split; cbn; [lia | done]. Qed.

Lemma node_ok_default (cli bi : Z) : node_ok (CNode_default cli bi).
Proof. split; cbn; [lia | done]. Qed.

Lemma node_ok_incr (n : CNode F) (x : F) :
  node_ok n → node_ok (incr_visit_count (add_value_sum n x)).
Proof. intros [Hge _]. split; cbn; lia. Qed.

Lemma node_ok_incr_only (n : CNode F) :
  node_ok n → node_ok (incr_visit_count n).
Proof. intros [Hge _]. split; cbn; lia. Qed.

Lemma expand_children_ok (this : addr) (policy : gmap Z F) (policy_sum : F)
    (legal : list Z) (j : nat) (h h' : heap F) (ch ch' : gmap Z addr) :
  heap_ok h →
  expand_children this policy policy_sum j legal h ch = Some (h', ch') →
  heap_ok h'.
Proof.
  revert j h ch. induction legal as [|a rest IH]; intros j h ch Hh Hrun.
  - cbn in Hrun. by injection Hrun as <- <-.
  - cbn [expand_children] in Hrun.
    destruct (policy !! a) as [p|]; [|done]. cbn in Hrun.
    eapply IH; [|done]. apply heap_ok_insert; [done | apply node_ok_new].
Qed.

Lemma expand_ok (h h' : heap F) (this : addr) (tp cli bi : Z) (vp : F)
    (policy_logits : list F) :
  heap_ok h →
  expand h this tp cli bi vp policy_logits = Some h' →
  heap_ok h'.
Proof.
  intros Hh Hrun. unfold expand in Hrun.
  destruct (h !! this) as [n|] eqn:Hn; [|done]. cbn in Hrun.
  destruct (expand_max _ _ _) as [pm|]; [|done]. cbn in Hrun.
  destruct (expand_exp _ _ _ _ _) as [[ps pol]|]; [|done]. cbn in Hrun.
  destruct (expand_children _ _ _ _ _ _ _) as [[h1 ch]|] eqn:Hch; [|done].
  cbn in Hrun. injection Hrun as <-.
  apply heap_ok_insert; [by eapply expand_children_ok|].
  exact (heap_ok_lookup _ _ _ Hh Hn).
Qed.

Lemma add_noise_loop_ok (n : CNode F) (w : F) (noises : list F)
    (legal : list Z) (i : nat) (h h' : heap F) :
  heap_ok h →
  add_noise_loop n w noises i legal h = Some h' →
  heap_ok h'.
Proof.
  revert i h. induction legal as [|a rest IH]; intros i h Hh Hrun.
  - cbn in Hrun. by injection Hrun as <-.
  - cbn [add_noise_loop] in Hrun.
    destruct (noises !! i) as [noise|]; [|done]. cbn in Hrun.
    destruct (get_child n (u64 a)) as [c|]; [|done]. cbn in Hrun.
    destruct (h !! c) as [child|] eqn:Hc; [|done]. cbn in Hrun.
    eapply IH; [|done]. apply heap_ok_insert; [done|].
    exact (heap_ok_lookup _ _ _ Hh Hc).
Qed.

Lemma add_exploration_noise_ok (h h' : heap F) (this : addr) (w : F)
    (noises : list F) :
  heap_ok h →
  add_exploration_noise h this w noises = Some h' →
  heap_ok h'.
Proof.
  intros Hh Hrun. unfold add_exploration_noise in Hrun.
  destruct (h !! this) as [n|]; [|done]. cbn in Hrun.
  by eapply add_noise_loop_ok.
Qed.

Lemma for_each_ok (body : heap F → nat → option (heap F))
    (ixs : list nat) (h h' : heap F) :
  (∀ h h' i, heap_ok h → body h i = Some h' → heap_ok h') →
  heap_ok h →
  for_each body ixs h = Some h' →
  heap_ok h'.
Proof.
  intros Hbody. revert h. induction ixs as [|i rest IH]; intros h Hh Hrun.
  - cbn in Hrun. by injection Hrun as <-.
  - cbn [for_each] in Hrun.
    destruct (body h i) as [h1|] eqn:Hb; [|done]. cbn in Hrun.
    eapply IH; [|done]. by eapply Hbody.
Qed.

Lemma prepare_ok (R : CRoots) (h h' : heap F) (w : F)
    (noises : list (list F)) (vps : list F) (pols : list (list F))
    (tps : list Z) :
  heap_ok h →
  prepare R h w noises vps pols tps = Some h' →
  heap_ok h'.
Proof.
  apply for_each_ok. clear. intros h h' i Hh Hrun.
  unfold prepare_root in Hrun.
  destruct (roots R !! i) as [r|]; [|done]. cbn in Hrun.
  destruct (tps !! i) as [tp|]; [|done]. cbn in Hrun.
  destruct (vps !! i) as [vp|]; [|done]. cbn in Hrun.
  destruct (pols !! i) as [pol|]; [|done]. cbn in Hrun.
  destruct (expand _ _ _ _ _ _ _) as [h1|] eqn:He; [|done]. cbn in Hrun.
  destruct (noises !! i) as [ns|]; [|done]. cbn in Hrun.
  destruct (add_exploration_noise _ _ _ _) as [h2|] eqn:Hn; [|done].
  cbn in Hrun.
  destruct (h2 !! r) as [n|] eqn:Hr; [|done]. cbn in Hrun.
  injection Hrun as <-.
  assert (heap_ok h2)
    by (eapply add_exploration_noise_ok; [|done]; by eapply expand_ok).
  apply heap_ok_insert; [done|].
  apply node_ok_incr_only. by eapply heap_ok_lookup.
Qed.

Lemma prepare_no_noise_ok (R : CRoots) (h h' : heap F) (vps : list F)
    (pols : list (list F)) (tps : list Z) :
  heap_ok h →
  prepare_no_noise R h vps pols tps = Some h' →
  heap_ok h'.
Proof.
  apply for_each_ok. clear. intros h h' i Hh Hrun.
  unfold prepare_no_noise_root in Hrun.
  destruct (roots R !! i) as [r|]; [|done]. cbn in Hrun.
  destruct (tps !! i) as [tp|]; [|done]. cbn in Hrun.
  destruct (vps !! i) as [vp|]; [|done]. cbn in Hrun.
  destruct (pols !! i) as [pol|]; [|done]. cbn in Hrun.
  destruct (expand _ _ _ _ _ _ _) as [h1|] eqn:He; [|done]. cbn in Hrun.
  destruct (h1 !! r) as [n|] eqn:Hr; [|done]. cbn in Hrun.
  injection Hrun as <-.
  assert (heap_ok h1) by (by eapply expand_ok).
  apply heap_ok_insert; [done|].
  apply node_ok_incr_only. by eapply heap_ok_lookup.
Qed.

Lemma backprop_single_ok (path : list addr) (γ : F) (k : nat)
    (h h' : heap F) (stats stats' : St) (bv : F) :
  heap_ok h →
  backprop_single path γ k h stats bv = Some (h', stats') →
  heap_ok h'.
Proof.
  revert h stats bv. induction k as [|i IH]; intros h stats bv Hh Hrun.
  - cbn in Hrun. by injection Hrun as <- <-.
  - cbn [backprop_single] in Hrun.
    destruct (path !! i) as [a|]; [|done]. cbn in Hrun.
    destruct (h !! a) as [node|] eqn:Ha; [|done]. cbn in Hrun.
    destruct (parent_info _ _ _) as [[pvp r]|]; [|done]. cbn in Hrun.
    eapply IH; [|done]. apply heap_ok_insert; [done|].
    apply node_ok_incr. by eapply heap_ok_lookup.
Qed.

Lemma backprop_two_ok (path : list addr) (tp : Z) (γ : F) (k : nat)
    (h h' : heap F) (stats stats' : St) (bv : F) :
  heap_ok h →
  backprop_two path tp γ k h stats bv = Some (h', stats') →
  heap_ok h'.
Proof.
  revert h stats bv. induction k as [|i IH]; intros h stats bv Hh Hrun.
  - cbn in Hrun. by injection Hrun as <- <-.
  - cbn [backprop_two] in Hrun.
    destruct (path !! i) as [a|]; [|done]. cbn in Hrun.
    destruct (h !! a) as [node|] eqn:Ha; [|done]. cbn in Hrun.
    destruct (parent_info _ _ _) as [[pvp r]|]; [|done]. cbn in Hrun.
    eapply IH; [|done]. apply heap_ok_insert; [done|].
    apply node_ok_incr. by eapply heap_ok_lookup.
Qed.

Lemma cbackpropagate_ok (h h' : heap F) (path : list addr)
    (stats stats' : St) (tp : Z) (v γ : F) :
  heap_ok h →
  cbackpropagate h path stats tp v γ = Some (h', stats') →
  heap_ok h'.
Proof.
  intros Hh Hrun. unfold cbackpropagate in Hrun.
  destruct (_ || _); [|done].
  destruct (tp =? -1);
    [by eapply backprop_single_ok | by eapply backprop_two_ok].
Qed.
End Invariant.

Section InvariantBatch.
Context {F : Type} `{FO : FloatOps F} `{K : Consts} `{U : Utils F}
        `{AL : Allocator} {St : Type} `{MM : MinMaxStats F St}.

Lemma traverse_loop_ok (fuel : nat) (stats : St) (base : Z) (init γ : F)
    (players : Z) (rand : nat → Z) (h h' : heap F) (w w' : Walk F) :
  heap_ok h →
  traverse_loop fuel stats base init γ players rand h w = Some (h', w') →
  heap_ok h'.
Proof.
  revert h w. induction fuel as [|fuel IH]; intros h w Hh Hrun.
  - cbn [traverse_loop] in Hrun.
    destruct (h !! w_node w) as [n|]; [|done]. cbn in Hrun.
    destruct (expanded n); [done|]. by injection Hrun as <- <-.
  - cbn [traverse_loop] in Hrun.
    destruct (h !! w_node w) as [n|] eqn:Hn; [|done]. cbn in Hrun.
    destruct (expanded n); [|by injection Hrun as <- <-].
    destruct (compute_mean_q _ _ _ _ _) as [mq|]; [|done]. cbn in Hrun.
    destruct (cselect_child _ _ _ _ _ _ _ _ _ _) as [[actions rng]|];
      [|done]. cbn in Hrun.
    destruct (flip_to_play _ _) as [vtp|]; [|done]. cbn in Hrun.
    destruct (get_child_vec _ _) as [c|]; [|done]. cbn in Hrun.
    eapply IH; [|done]. apply heap_ok_insert; [done|].
    exact (heap_ok_lookup _ _ _ Hh Hn).
Qed.

Lemma traverse_root_ok (fuel : nat) (stats : St) (base : Z) (init γ : F)
    (players : Z) (rand : nat → Z) (root : addr) (vtp : Z)
    (h h' : heap F) (sh sh' : Shared F) (slot : SearchSlot) :
  heap_ok h →
  traverse_root fuel stats base init γ players rand root vtp h sh
  = Some (h', sh', slot) →
  heap_ok h'.
Proof.
  intros Hh Hrun. unfold traverse_root in Hrun.
  destruct (traverse_loop _ _ _ _ _ _ _ _ _) as [[h1 w]|] eqn:Hw; [|done].
  cbn in Hrun.
  destruct (second_to_last _) as [pa|]; [|done]. cbn in Hrun.
  destruct (h1 !! pa) as [parent|]; [|done]. cbn in Hrun.
  injection Hrun as <- <- <-.
  by eapply traverse_loop_ok; [|exact Hw].
Qed.

Lemma traverse_batch_ok (fuel : nat) (sl : list St) (base : Z) (init γ : F)
    (players : Z) (rand : nat → Z) (rts : list addr) (vtps : list Z)
    (ixs : list nat) (h h' : heap F) (sh sh' : Shared F)
    (slots : list SearchSlot) :
  heap_ok h →
  traverse_batch fuel sl base init γ players rand rts vtps ixs h sh
  = Some (h', sh', slots) →
  heap_ok h'.
Proof.
  revert h sh slots. induction ixs as [|i rest IH]; intros h sh slots Hh Hrun.
  - cbn in Hrun. by injection Hrun as <- <- <-.
  - cbn [traverse_batch] in Hrun.
    destruct (rts !! i) as [root|]; [|done]. cbn in Hrun.
    destruct (sl !! i) as [stats|]; [|done]. cbn in Hrun.
    destruct (vtps !! i) as [vtp|]; [|done]. cbn in Hrun.
    destruct (traverse_root _ _ _ _ _ _ _ _ _ _ _) as [[[h1 sh1] slot]|]
      eqn:Hr; [|done]. cbn in Hrun.
    destruct (traverse_batch _ _ _ _ _ _ _ _ _ _ _ _) as [[[h2 sh2] slots']|]
      eqn:Hb; [|done]. cbn in Hrun.
    injection Hrun as <- <- <-.
    eapply IH; [|done]. by eapply traverse_root_ok.
Qed.

Lemma cbatch_traverse_ok (fuel : nat) (rand : nat → Z) (h h' : heap F)
    (R : CRoots) (base : Z) (init γ : F) (sl : list St) (rn : Z)
    (vtps vtps' : list Z) (res : CSearchResults) :
  heap_ok h →
  cbatch_traverse fuel rand h R base init γ sl rn vtps
  = Some (h', res, vtps') →
  heap_ok h'.
Proof.
  intros Hh Hrun. unfold cbatch_traverse in Hrun.
  destruct (_ <=? _)%nat; [|done].
  destruct (infer_players vtps) as [players|]; [|done]. cbn in Hrun.
  destruct (traverse_batch _ _ _ _ _ _ _ _ _ _ _ _) as [[[h1 sh] slots]|]
    eqn:Hb; [|done]. cbn in Hrun.
  injection Hrun as <- <- <-.
  by eapply traverse_batch_ok; [|exact Hb].
Qed.

Lemma backprop_leaf_ok (cli : Z) (γ : F) (i : nat) (slot : SearchSlot)
    (tp : Z) (vp : F) (pol : list F) (r : Z) (stats stats' : St) (v : F)
    (h h' : heap F) :
  heap_ok h →
  backprop_leaf cli γ i slot tp vp pol r stats v h = Some (h', stats') →
  heap_ok h'.
Proof.
  intros Hh Hrun. unfold backprop_leaf in Hrun.
  destruct (expand _ _ _ _ _ _ _) as [h1|] eqn:He; [|done]. cbn in Hrun.
  destruct (h1 !! leaf slot) as [n|] eqn:Hn; [|done]. cbn in Hrun.
  eapply cbackpropagate_ok; [|done].
  assert (heap_ok h1) by (by eapply expand_ok).
  apply heap_ok_insert; [done|].
  exact (heap_ok_lookup _ _ _ ltac:(done) Hn).
Qed.

Lemma backprop_slot_ok (cli : Z) (γ : F) (vps vs : list F)
    (pols : list (list F)) (res : CSearchResults) (rl tps : list Z)
    (h h' : heap F) (sl sl' : list St) (i : nat) :
  heap_ok h →
  backprop_slot cli γ vps vs pols res rl tps (h, sl) i = Some (h', sl') →
  heap_ok h'.
Proof.
  intros Hh Hrun. unfold backprop_slot in Hrun.
  destruct (slots res !! i) as [slot|]; [|done]. cbn in Hrun.
  destruct (tps !! i) as [tp|]; [|done]. cbn in Hrun.
  destruct (vps !! i) as [vp|]; [|done]. cbn in Hrun.
  destruct (pols !! i) as [pol|]; [|done]. cbn in Hrun.
  destruct (rl !! i) as [r|]; [|done]. cbn in Hrun.
  destruct (sl !! i) as [stats|]; [|done]. cbn in Hrun.
  destruct (vs !! i) as [v|]; [|done]. cbn in Hrun.
  destruct (backprop_leaf _ _ _ _ _ _ _ _ _ _ _) as [[h2 stats']|] eqn:Hb;
    [|done].
  cbn in Hrun. injection Hrun as <- <-.
  by eapply backprop_leaf_ok.
Qed.

Lemma cbatch_backpropagate_ok (h h' : heap F) (cli : Z) (γ : F)
    (vps vs : list F) (pols : list (list F)) (sl sl' : list St)
    (res : CSearchResults) (rl tps : list Z) :
  heap_ok h →
  cbatch_backpropagate h cli γ vps vs pols sl res rl tps = Some (h', sl') →
  heap_ok h'.
Proof.
  unfold cbatch_backpropagate. generalize (seq 0 (Z.to_nat (num res))).
  intros ixs. revert h sl.
  induction ixs as [|i rest IH]; intros h sl Hh Hrun.
  - cbn in Hrun. by injection Hrun as <- <-.
  - cbn [backprop_batch] in Hrun.
    destruct (backprop_slot _ _ _ _ _ _ _ _ _ _) as [[h1 sl1]|] eqn:Hs;
      [|done]. cbn in Hrun.
    eapply IH; [|done]. by eapply backprop_slot_ok.
Qed.

Lemma reachable_ok (h : heap F) : reachable h → heap_ok h.
Proof.
  induction 1.
  - apply map_Forall_empty.
  - apply heap_ok_insert; [done | apply node_ok_default].
  - apply heap_ok_insert; [done | apply node_ok_new].
  - by eapply expand_ok.
  - by eapply add_exploration_noise_ok.
  - by eapply prepare_ok.
  - by eapply prepare_no_noise_ok.
  - by eapply cbackpropagate_ok.
  - by eapply cbatch_traverse_ok.
  - by eapply cbatch_backpropagate_ok.
Qed.
End InvariantBatch.

(** C7.  In every heap built by the constructors, [expand],
    [add_exploration_noise], [prepare], [prepare_no_noise], [cbackpropagate]
    and the two batch operations, a node with [visit_count == 0] has
    [value_sum == 0] and [value() == 0]. *)
Theorem unvisited_node_has_no_value {F} `{FO : FloatOps F} `{K : Consts}
    `{U : Utils F} `{AL : Allocator} {St : Type} `{MM : MinMaxStats F St}
    (h : heap F) (a : addr) (n : CNode F) :
  reachable (St := St) h →
  h !! a = Some n →
  visit_count n = 0 →
  value_sum n = fzero ∧ value n = fzero.
Proof.
  intros Hreach Hn Hvc. apply reachable_ok in Hreach.
  destruct (heap_ok_lookup _ _ _ Hreach Hn) as [_ Hsum].
  split; [by apply Hsum|]. unfold value. by rewrite Hvc.
Qed.

Lemma unvisited_node_has_no_value_witness :
  value_sum (CNode_new (Rat.Fin (1 # 2)) []) = fzero
  ∧ value (CNode_new (Rat.Fin (1 # 2)) []) = fzero.
Proof.
  apply (unvisited_node_has_no_value (K := Rat.consts_1_2) (AL := Rat.alloc)
           (St := CMinMaxStats Rat.num)
           (<[1%positive := CNode_new (Rat.Fin (1 # 2)) []]> ∅) 1%positive).
  - apply reach_new, reach_empty.
  - vm_compute. reflexivity.
  - reflexivity.
Defined.


(** ** Selection *)

Section SelectFacts.
Context {F : Type} `{FO : FloatOps F} `{K : Consts} `{U : Utils F}
        {St : Type} `{MM : MinMaxStats F St}.

Lemma select_loop_fold (h : heap F) (root : CNode F) (stats : St)
    (base : Z) (init γ mean_q : F) (players : Z) (legal : list Z)
    (scs : list (Z * F)) (st : F * list Z) :
  mapM (λ a, s ← child_score h root stats base init γ mean_q players a;
             Some (a, s)) legal = Some scs →
  select_loop h root stats base init γ mean_q players st legal
  = Some (select_fold st scs).
Proof.
  revert scs st. induction legal as [|a rest IH]; intros scs st Hscs.
  - cbn in Hscs. by injection Hscs as <-.
  - cbn [mapM] in Hscs. cbn [select_loop].
    destruct (child_score _ _ _ _ _ _ _ _ a) as [s|]; [|done].
    cbn in Hscs |- *.
    destruct (mapM _ rest) as [scs'|] eqn:Hrest; [|done].
    cbn in Hscs. injection Hscs as <-.
    by rewrite (IH scs').
Qed.

Lemma legal_scores_actions (h : heap F) (root : CNode F) (stats : St)
    (base : Z) (init γ mean_q : F) (players : Z) (scs : list (Z * F)) :
  legal_scores h root stats base init γ mean_q players = Some scs →
  fst <$> scs = legal_actions root.
Proof.
  unfold legal_scores. generalize (legal_actions root). intros legal.
  revert scs. induction legal as [|a rest IH]; intros scs Hscs.
  - cbn in Hscs. by injection Hscs as <-.
  - cbn [mapM] in Hscs.
    destruct (child_score _ _ _ _ _ _ _ _ a) as [s|]; [|done].
    cbn in Hscs.
    destruct (mapM _ rest) as [scs'|] eqn:Hrest; [|done].
    cbn in Hscs. injection Hscs as <-. cbn. f_equal. by apply IH.
Qed.

Lemma select_fold_cons (st : F * list Z) (p : Z * F) (scs : list (Z * F)) :
  select_fold st (p :: scs) = select_fold (select_update st p.1 p.2) scs.
Proof. done. Qed.

Lemma margin_filter_cons (M : F) (a : Z) (s : F) (scs : list (Z * F)) :
  margin_filter M ((a, s) :: scs)
  = if within_margin M s then a :: margin_filter M scs
    else margin_filter M scs.
Proof.
  unfold margin_filter. rewrite filter_cons. cbn.
  destruct (within_margin M s) eqn:Hw.
  - by rewrite decide_True.
  - by rewrite decide_False.
Qed.

Lemma select_fold_actions (scs : list (Z * F)) (M0 M : F)
    (l0 lst : list Z) :
  select_fold (M0, l0) scs = (M, lst) →
  ∀ a, a ∈ lst → a ∈ l0 ∨ a ∈ fst <$> scs.
Proof.
  revert M0 l0. induction scs as [|[b s] rest IH]; intros M0 l0 Hrun a Ha.
  - cbn in Hrun. injection Hrun as <- <-. by left.
  - rewrite select_fold_cons in Hrun. cbn [select_update fst snd] in Hrun.
    rewrite fmap_cons, elem_of_cons. cbn.
    destruct (flt M0 s).
    + destruct (IH _ _ Hrun a Ha) as [Hin|Hin]; [|tauto].
      apply list_elem_of_singleton in Hin. tauto.
    + destruct (fge s (fsub M0 epsilon)).
      * destruct (IH _ _ Hrun a Ha) as [Hin|Hin]; [|tauto].
        apply elem_of_app in Hin as [Hin|Hin]; [tauto|].
        apply list_elem_of_singleton in Hin. tauto.
      * destruct (IH _ _ Hrun a Ha); tauto.
Qed.

Lemma select_fold_nonempty (scs : list (Z * F)) (M0 : F) (l0 : list Z) :
  l0 ≠ [] → (select_fold (M0, l0) scs).2 ≠ [].
Proof.
  revert M0 l0. induction scs as [|[b s] rest IH]; intros M0 l0 Hne; [done|].
  rewrite select_fold_cons. cbn [select_update fst snd].
  destruct (flt M0 s); [by apply IH|].
  destruct (fge s (fsub M0 epsilon)); apply IH; [|done].
  by destruct l0.
Qed.

(** The candidate list stays empty exactly when no score is admitted
    against the initial [max_score]. *)
Lemma select_fold_empty (scs : list (Z * F)) (M0 : F) :
  (select_fold (M0, []) scs).2 = []
  ↔ existsb (λ p, admitted M0 p.2) scs = false.
Proof.
  induction scs as [|[b s] rest IH]; [done|].
  rewrite select_fold_cons. cbn [select_update fst snd existsb].
  unfold admitted at 1, within_margin.
  destruct (flt M0 s); cbn.
  - split; [|done]. intros Hnil.
    by apply (select_fold_nonempty rest s [b]) in Hnil.
  - destruct (fge s (fsub M0 epsilon)); cbn; [|done].
    split; [|done]. intros Hnil.
    by apply (select_fold_nonempty rest M0 [b]) in Hnil.
Qed.

Lemma first_slot_heads (x : Z) :
  0 < NUM_ACTION_HEADS →
  first_slot x = Some (x :: vector_fill (NUM_ACTION_HEADS - 1) (-1)).
Proof.
  intros HH. unfold first_slot, vector_fill.
  replace (Z.to_nat NUM_ACTION_HEADS)
    with (S (Z.to_nat (NUM_ACTION_HEADS - 1))) by lia.
  done.
Qed.

Lemma index_mod (l : list Z) (r : Z) :
  l ≠ [] →
  ∃ a, index l (r `mod` Z.of_nat (length l)) = Some a ∧ a ∈ l.
Proof.
  intros Hne. unfold index.
  assert (0 ≤ r `mod` Z.of_nat (length l) < Z.of_nat (length l))
    by (apply Z.mod_pos_bound; destruct l; [done | cbn; lia]).
  destruct (Z.ltb_spec (r `mod` Z.of_nat (length l)) 0); [lia|].
  destruct (lookup_lt_is_Some_2 l (Z.to_nat (r `mod` Z.of_nat (length l))))
    as [a Ha]; [lia|].
  exists a. split; [done|]. by eapply list_elem_of_lookup_2.
Qed.
End SelectFacts.

(** Where comparison is a total preorder, the final [max_score] bounds the
    initial value and every score. *)
Section SelectOrder.
Context {F : Type} `{FO : FloatOps F}.
Hypothesis lt_le : ∀ a b : F, flt a b = true → fle a b = true.
Hypothesis not_lt_ge : ∀ a b : F, flt a b = false → fle b a = true.
Hypothesis le_trans :
  ∀ a b c : F, fle a b = true → fle b c = true → fle a c = true.

Lemma select_fold_max (scs : list (Z * F)) (M0 M : F) (l0 lst : list Z) :
  select_fold (M0, l0) scs = (M, lst) →
  fle M0 M = true ∧ Forall (λ p, fle p.2 M = true) scs.
Proof using All.
  assert (Hrefl : ∀ a : F, fle a a = true).
  { intros a. destruct (flt a a) eqn:Hlt; [by apply lt_le | by apply not_lt_ge]. }
  revert M0 l0. induction scs as [|[a s] rest IH]; intros M0 l0 Hrun.
  - cbn in Hrun. injection Hrun as <- <-. split; [apply Hrefl | constructor].
  - rewrite select_fold_cons in Hrun. cbn [select_update fst snd] in Hrun.
    destruct (flt M0 s) eqn:Hlt.
    + destruct (IH _ _ Hrun) as [Hle Hall]. split.
      * eapply le_trans; [by apply lt_le | done].
      * by constructor.
    + assert (fle s M0 = true) by (by apply not_lt_ge).
      destruct (fge s (fsub M0 epsilon));
        (destruct (IH _ _ Hrun) as [Hle Hall]; split; [done|];
         constructor; [by eapply le_trans | done]).
Qed.
End SelectOrder.

(** C5, as stated: the pick is among all the legal children whose score is
    within [1e-6] of the maximum.  At the root [Tie.root] the second child
    has the largest score and the first one is within the margin of it, yet
    the candidate list is [[1]]: the first child is dropped when the second
    raises [max_score], and no value of [rand()] selects it. *)
Lemma select_drops_earlier_tie_counterexample :
  ∃ s0 s1,
    Tie.scores = Some [(0, s0); (1, s1)]
    ∧ fle s0 s1 = true
    ∧ within_margin s1 s0 = true
    ∧ select_loop Tie.h Tie.root Example.no_stats 19652 (Rat.Fin (5 # 4))
        (Rat.Fin 1) (Rat.Fin 0) 1 (FLOAT_MIN (Utils := Rat.utils), [])
        (legal_actions Tie.root)
      = Some (s1, [1])
    ∧ (∀ rand rng,
         cselect_child (K := Rat.consts_4_2) (U := Rat.utils) Tie.h Tie.root
           Example.no_stats 19652 (Rat.Fin (5 # 4)) (Rat.Fin 1) (Rat.Fin 0) 1
           rand rng
         = Some ([1; -1; -1; -1], S rng)).
Proof.
  eexists _, _.
  split; [vm_compute; reflexivity|].
  split; [vm_compute; reflexivity|].
  split; [vm_compute; reflexivity|].
  split; [vm_compute; reflexivity|].
  intros rand rng. unfold cselect_child.
  replace (select_loop _ _ _ _ _ _ _ _ _ _)
    with (Some (Rat.Fin (7984004913 # 9826000000), [1]))
    by (vm_compute; reflexivity).
  cbn. by rewrite Z.mod_1_r.
Qed.

Section SelectRaise.
Context {F : Type} `{FO : FloatOps F} `{K : Consts} `{U : Utils F}
        {St : Type} `{MM : MinMaxStats F St}.

(** The candidate list, with the turn of the loop that built it: the child
    that raised the running maximum for the last time, followed by the
    later children within the margin of its score; before any raise it is
    the children within the margin of the initial value. *)
Lemma select_fold_raise (scs : list (Z * F)) (M0 M : F) (l0 lst : list Z) :
  select_fold (M0, l0) scs = (M, lst) →
  (Forall (λ p, flt M0 p.2 = false) scs
   ∧ M = M0 ∧ lst = l0 ++ margin_filter M0 scs)
  ∨ (∃ pre a post,
       scs = pre ++ (a, M) :: post
       ∧ flt (foldl (λ m x, if flt m x then x else m) M0 (snd <$> pre)) M
         = true
       ∧ Forall (λ p, flt M p.2 = false) post
       ∧ lst = a :: margin_filter M post).
Proof.
  revert M0 l0. induction scs as [|[a s] rest IH]; intros M0 l0 Hrun.
  - cbn in Hrun. injection Hrun as <- <-. left.
    split; [constructor|]. split; [done|].
    unfold margin_filter. cbn. by rewrite app_nil_r.
  - rewrite select_fold_cons in Hrun. cbn [select_update fst snd] in Hrun.
    destruct (flt M0 s) eqn:Hlt.
    + right. destruct (IH _ _ Hrun)
        as [(Hall & -> & ->)|(pre & b & post & -> & Hraise & Hall & ->)].
      * exists [], a, rest. done.
      * exists ((a, s) :: pre), b, post. cbn. by rewrite Hlt.
    + rewrite margin_filter_cons.
      assert (Hw : fge s (fsub M0 epsilon) = within_margin M0 s) by done.
      rewrite Hw in Hrun.
      destruct (within_margin M0 s);
        (destruct (IH _ _ Hrun)
           as [(Hall & -> & ->)|(pre & b & post & -> & Hraise & Hall & ->)];
         [ left; split; [by constructor|]; split; [done|];
           by rewrite <- ?app_assoc
         | right; exists ((a, s) :: pre), b, post; cbn; by rewrite Hlt ]).
Qed.

(** the loop over scores none of which raises the maximum *)
Lemma select_fold_no_raise (scs : list (Z * F)) (M0 : F) (l0 : list Z) :
  Forall (λ p, flt M0 p.2 = false) scs →
  select_fold (M0, l0) scs = (M0, l0 ++ margin_filter M0 scs).
Proof.
  revert l0. induction scs as [|[a s] rest IH]; intros l0 Hall.
  - unfold margin_filter. cbn. by rewrite app_nil_r.
  - apply Forall_cons in Hall as [Hs Hrest]. cbn in Hs.
    rewrite select_fold_cons. cbn [select_update fst snd].
    rewrite Hs, margin_filter_cons.
    assert (Hw : fge s (fsub M0 epsilon) = within_margin M0 s) by done.
    rewrite Hw. destruct (within_margin M0 s); rewrite (IH _ Hrest);
      [by rewrite <- app_assoc | done].
Qed.

(** the running maximum of the loop *)
Lemma select_fold_running_max (scs : list (Z * F)) (M0 : F) (l0 : list Z) :
  (select_fold (M0, l0) scs).1
  = foldl (λ m x, if flt m x then x else m) M0 (snd <$> scs).
Proof.
  revert M0 l0. induction scs as [|[a s] rest IH]; intros M0 l0; [done|].
  rewrite select_fold_cons. cbn [select_update fst snd fmap list_fmap foldl].
  destruct (flt M0 s); [apply IH|].
  destruct (fge s (fsub M0 epsilon)); apply IH.
Qed.

(** the loop over scores the last raise of which is known *)
Lemma select_fold_last_raise (pre post : list (Z * F)) (a : Z) (M0 M : F)
    (l0 : list Z) :
  flt (foldl (λ m x, if flt m x then x else m) M0 (snd <$> pre)) M = true →
  Forall (λ p, flt M p.2 = false) post →
  select_fold (M0, l0) (pre ++ (a, M) :: post)
  = (M, a :: margin_filter M post).
Proof.
  intros Hraise Hall. unfold select_fold at 1. rewrite foldl_app.
  fold (select_fold (M0, l0) pre). cbn [foldl].
  rewrite <- (select_fold_running_max pre M0 l0) in Hraise.
  destruct (select_fold (M0, l0) pre) as [m l]. cbn in Hraise.
  cbn [select_update fst snd]. rewrite Hraise.
  fold (select_fold (M, [a]) post). by rewrite select_fold_no_raise.
Qed.

(** the description of the candidates determines them *)
Lemma last_raise_candidates_fold (scs : list (Z * F)) (M : F)
    (lst : list Z) :
  last_raise_candidates scs M lst
  ↔ select_fold (FLOAT_MIN, []) scs = (M, lst).
Proof.
  split.
  - intros [(Hall & -> & ->)|(pre & a & post & -> & Hraise & Hall & ->)].
    + by rewrite select_fold_no_raise.
    + by apply select_fold_last_raise.
  - intros Hfold. by apply select_fold_raise in Hfold.
Qed.
End SelectRaise.

(** C5, amended.  On a node all of whose legal children exist, the
    candidates of [cselect_child] are the child that last raised [max_score]
    strictly, whose score [M] is the final [max_score], followed by exactly
    the children scored after it whose score is at least [M - 1e-6]; while
    no score has exceeded [FLOAT_MIN] they are the children within the
    margin of [FLOAT_MIN].  This description fits one candidate list only,
    and the result is the candidate at position [rand() % count] of it. *)
Theorem cselect_child_candidates {F} `{FO : FloatOps F} `{K : Consts}
    `{U : Utils F} {St : Type} `{MM : MinMaxStats F St}
    (h : heap F) (root : CNode F) (stats : St) (base : Z)
    (init γ mean_q : F) (players : Z) (rand : nat → Z) (rng : nat)
    (scs : list (Z * F)) :
  0 < NUM_ACTION_HEADS →
  legal_scores h root stats base init γ mean_q players = Some scs →
  ∃ M lst,
    last_raise_candidates scs M lst
    ∧ (∀ M' lst', last_raise_candidates scs M' lst' → M' = M ∧ lst' = lst)
    ∧ cselect_child h root stats base init γ mean_q players rand rng
      = match lst with
        | [] => Some (vector_fill NUM_ACTION_HEADS (-1), rng)
        | _ :: _ =>
            a ← index lst (rand rng `mod` Z.of_nat (length lst));
            Some (a :: vector_fill (NUM_ACTION_HEADS - 1) (-1), S rng)
        end.
Proof.
  intros HH Hscs. unfold cselect_child.
  rewrite (select_loop_fold _ _ _ _ _ _ _ _ _ _ _ Hscs). cbn.
  destruct (select_fold (FLOAT_MIN, []) scs) as [M lst] eqn:Hfold.
  exists M, lst. split; [by apply last_raise_candidates_fold|]. split.
  - intros M' lst' Hc. apply last_raise_candidates_fold in Hc.
    rewrite Hfold in Hc. by injection Hc as <- <-.
  - destruct lst as [|a lst']; [done|].
    cbn [length Nat.ltb Nat.leb].
    destruct (index _ _) as [b|]; [|done]. cbn.
    by rewrite (first_slot_heads _ HH).
Qed.

Lemma cselect_child_candidates_witness :
  ∃ M lst,
    last_raise_candidates (U := Rat.utils)
      [(0, Rat.Fin (3992 # 4913)); (1, Rat.Fin (7984004913 # 9826000000))]
      M lst
    ∧ (∀ M' lst',
         last_raise_candidates (U := Rat.utils)
           [(0, Rat.Fin (3992 # 4913));
            (1, Rat.Fin (7984004913 # 9826000000))] M' lst' →
         M' = M ∧ lst' = lst)
    ∧ cselect_child (K := Rat.consts_4_2) (U := Rat.utils) Tie.h Tie.root
        Example.no_stats 19652 (Rat.Fin (5 # 4)) (Rat.Fin 1) (Rat.Fin 0) 1
        (λ _, 7) 0%nat
      = match lst with
        | [] => Some (vector_fill (NUM_ACTION_HEADS (Consts := Rat.consts_4_2)) (-1), 0%nat)
        | _ :: _ =>
            a ← index lst (7 `mod` Z.of_nat (length lst));
            Some (a :: vector_fill (NUM_ACTION_HEADS (Consts := Rat.consts_4_2) - 1) (-1), 1%nat)
        end.
Proof.
  apply (cselect_child_candidates (K := Rat.consts_4_2) (U := Rat.utils)
           Tie.h Tie.root Example.no_stats 19652 (Rat.Fin (5 # 4))
           (Rat.Fin 1) (Rat.Fin 0) 1 (λ _, 7) 0%nat).
  - reflexivity.
  - vm_compute. reflexivity.
Defined.

(** C8, as stated: with every legal child present the fallback vector is
    never returned.  A root expanded on logits that are not numbers gives its
    children the prior NaN; every score is NaN, no comparison holds, the
    candidate list stays empty and [cselect_child] returns
    [[-1; -1; -1; -1]], whose first entry is no legal action. *)
Lemma select_fallback_counterexample :
  ∃ h root scs,
    NotANumber.expanded_heap = Some h
    ∧ h !! 1%positive = Some root
    ∧ legal_actions root = [0; 1]
    ∧ legal_scores h root Example.no_stats 19652 (Rat.Fin (5 # 4))
        (Rat.Fin 1) (Rat.Fin 0) 1 = Some scs
    ∧ cselect_child (K := Rat.consts_4_2) (U := Rat.utils) h root
        Example.no_stats 19652 (Rat.Fin (5 # 4)) (Rat.Fin 1) (Rat.Fin 0) 1
        (λ _, 0) 0%nat
      = Some ([-1; -1; -1; -1], 0%nat).
Proof.
  eexists _, _, _.
  split; [vm_compute; reflexivity|].
  split; [vm_compute; reflexivity|].
  split; [vm_compute; reflexivity|].
  split; [vm_compute; reflexivity|].
  vm_compute; reflexivity.
Qed.

(** C8, amended.  On a node all of whose legal children exist,
    [cselect_child] returns a vector whose first entry is one of the legal
    actions as soon as the score [s] of some legal child satisfies
    [FLOAT_MIN < s] or [s >= FLOAT_MIN - 1e-6]; when no score does, the
    candidate list is empty and the all-minus-one vector is returned. *)
Theorem cselect_child_first_entry {F} `{FO : FloatOps F} `{K : Consts}
    `{U : Utils F} {St : Type} `{MM : MinMaxStats F St}
    (h : heap F) (root : CNode F) (stats : St) (base : Z)
    (init γ mean_q : F) (players : Z) (rand : nat → Z) (rng : nat)
    (scs : list (Z * F)) :
  0 < NUM_ACTION_HEADS →
  legal_scores h root stats base init γ mean_q players = Some scs →
  ∃ res rng',
    cselect_child h root stats base init γ mean_q players rand rng
    = Some (res, rng')
    ∧ if existsb (λ p, admitted FLOAT_MIN p.2) scs
      then ∃ a, res = a :: vector_fill (NUM_ACTION_HEADS - 1) (-1)
                ∧ a ∈ legal_actions root ∧ rng' = S rng
      else res = vector_fill NUM_ACTION_HEADS (-1) ∧ rng' = rng.
Proof.
  intros HH Hscs. unfold cselect_child.
  rewrite (select_loop_fold _ _ _ _ _ _ _ _ _ _ _ Hscs). cbn.
  pose proof (select_fold_empty scs FLOAT_MIN) as Hempty.
  destruct (select_fold (FLOAT_MIN, []) scs) as [M lst] eqn:Hfold.
  pose proof (select_fold_actions scs FLOAT_MIN M [] lst Hfold) as Hacts.
  cbn in Hempty.
  destruct lst as [|a lst'].
  - rewrite (proj1 Hempty eq_refl). cbn. by eexists _, _.
  - destruct (existsb _ scs); [|discriminate (proj2 Hempty eq_refl)].
    destruct (index_mod (a :: lst') (rand rng)) as (b & Hb & Hin); [done|].
    rewrite Hb. cbn. rewrite (first_slot_heads _ HH). cbn.
    eexists _, _. split; [done|]. exists b. split; [done|]. split; [|done].
    destruct (Hacts b Hin) as [Hn|Hl]; [by apply elem_of_nil in Hn|].
    by rewrite (legal_scores_actions _ _ _ _ _ _ _ _ _ Hscs) in Hl.
Qed.

Lemma cselect_child_first_entry_witness :
  ∃ res rng',
    cselect_child (K := Rat.consts_4_2) (U := Rat.utils) Tie.h Tie.root
      Example.no_stats 19652 (Rat.Fin (5 # 4)) (Rat.Fin 1) (Rat.Fin 0) 1
      (λ _, 7) 0%nat
    = Some (res, rng')
    ∧ if existsb (λ p, admitted (FLOAT_MIN (Utils := Rat.utils)) p.2)
           [(0, Rat.Fin (3992 # 4913));
            (1, Rat.Fin (7984004913 # 9826000000))]
      then ∃ a, res = a :: vector_fill
                             (NUM_ACTION_HEADS (Consts := Rat.consts_4_2) - 1)
                             (-1)
                ∧ a ∈ legal_actions Tie.root ∧ rng' = 1%nat
      else res = vector_fill (NUM_ACTION_HEADS (Consts := Rat.consts_4_2)) (-1)
           ∧ rng' = 0%nat.
Proof.
  apply (cselect_child_first_entry (K := Rat.consts_4_2) (U := Rat.utils)
           Tie.h Tie.root Example.no_stats 19652 (Rat.Fin (5 # 4))
           (Rat.Fin 1) (Rat.Fin 0) 1 (λ _, 7) 0%nat).
  - reflexivity.
  - vm_compute. reflexivity.
Defined.

(** ** Independence of the batch elements *)

(** C2, as stated: each root of a two-root batch ends a round with the tree
    it gets from the round of the batch that holds it alone.  The two
    prepared roots of [Pair] own disjoint trees; with the same seed, the
    second root of the pair receives the second value of [rand()] for its
    tie and descends to the child at [34], alone it receives the first value
    and descends to the child at [33]. *)
Lemma batch_round_shares_rand_counterexample :
  Example.prepared = Some (Pair.tree1 ∪ Pair.tree2)
  ∧ Pair.tree1 ##ₘ Pair.tree2
  ∧ ∃ h_both h_alone s_both s_alone r_both r_alone v_both v_alone,
      Pair.both = Some (h_both, s_both, r_both, v_both)
      ∧ Pair.second_alone = Some (h_alone, s_alone, r_alone, v_alone)
      ∧ visit_count <$> h_both !! 33%positive = Some 0
      ∧ visit_count <$> h_alone !! 33%positive = Some 1
      ∧ visit_count <$> h_both !! 34%positive = Some 1
      ∧ visit_count <$> h_alone !! 34%positive = Some 0.
Proof.
  split; [vm_compute; reflexivity|].
  split.
  { unfold Pair.tree1.
    rewrite !map_disjoint_insert_l, map_disjoint_singleton_l.
    repeat split; reflexivity. }
  eexists _, _, _, _, _, _, _, _.
  split; [vm_compute; reflexivity|].
  split; [vm_compute; reflexivity|].
  repeat split; vm_compute; reflexivity.
Qed.

(** *** Reads stay inside a closed heap *)

Section FrameReads.
Context {F : Type} `{FO : FloatOps F} `{K : Consts} `{U : Utils F}
        {St : Type} `{MM : MinMaxStats F St}.

Lemma lookup_union_dom (h hR : heap F) (a : addr) :
  a ∈ dom h → (h ∪ hR) !! a = h !! a.
Proof.
  intros [n Hn]%elem_of_dom. rewrite Hn. by apply lookup_union_Some_l.
Qed.

Lemma get_child_children (n : CNode F) (action : Z) (c : addr) :
  get_child n action = Some c → children n !! action = Some c.
Proof. unfold get_child. by destruct (_ <=? _). Qed.

Lemma get_child_vec_children (n : CNode F) (actions : list Z) (c : addr) :
  get_child_vec n actions = Some c → ∃ k, children n !! k = Some c.
Proof.
  unfold get_child_vec. destruct (negb _); [done|].
  destruct (_ <=? _); [done|]. eauto.
Qed.

Lemma mean_q_loop_frame (h hR : heap F) (n : CNode F) (γ : F)
    (keys : list Z) (acc : F * Z) :
  children_in h n →
  mean_q_loop (h ∪ hR) n γ acc keys = mean_q_loop h n γ acc keys.
Proof.
  intros Hin. revert acc. induction keys as [|key rest IH]; intros acc; [done|].
  cbn [mean_q_loop].
  assert (mean_q_step (h ∪ hR) n γ acc key = mean_q_step h n γ acc key) as ->.
  { unfold mean_q_step.
    destruct (get_child n (u64 key)) as [c|] eqn:Hc; [|done]. cbn.
    apply get_child_children in Hc.
    by rewrite (lookup_union_dom _ _ _ (Hin _ _ Hc)). }
  destruct (mean_q_step h n γ acc key); [|done]. cbn. apply IH.
Qed.

Lemma compute_mean_q_frame (h hR : heap F) (n : CNode F) (isRoot : Z)
    (parent_q γ : F) :
  children_in h n →
  compute_mean_q (h ∪ hR) n isRoot parent_q γ
  = compute_mean_q h n isRoot parent_q γ.
Proof.
  intros Hin. unfold compute_mean_q. by rewrite mean_q_loop_frame.
Qed.

Lemma child_score_frame (h hR : heap F) (root : CNode F) (stats : St)
    (base : Z) (init γ mean_q : F) (players a : Z) :
  children_in h root →
  child_score (h ∪ hR) root stats base init γ mean_q players a
  = child_score h root stats base init γ mean_q players a.
Proof.
  intros Hin. unfold child_score.
  destruct (get_child root (u64 a)) as [c|] eqn:Hc; [|done]. cbn.
  apply get_child_children in Hc.
  by rewrite (lookup_union_dom _ _ _ (Hin _ _ Hc)).
Qed.

Lemma select_loop_frame (h hR : heap F) (root : CNode F) (stats : St)
    (base : Z) (init γ mean_q : F) (players : Z) (legal : list Z)
    (st : F * list Z) :
  children_in h root →
  select_loop (h ∪ hR) root stats base init γ mean_q players st legal
  = select_loop h root stats base init γ mean_q players st legal.
Proof.
  intros Hin. revert st. induction legal as [|a rest IH]; intros st; [done|].
  cbn [select_loop]. rewrite child_score_frame by done.
  destruct (child_score _ _ _ _ _ _ _ _ _); [|done]. cbn. apply IH.
Qed.

Lemma cselect_child_frame (h hR : heap F) (root : CNode F) (stats : St)
    (base : Z) (init γ mean_q : F) (players : Z) (rand : nat → Z)
    (rng : nat) :
  children_in h root →
  cselect_child (h ∪ hR) root stats base init γ mean_q players rand rng
  = cselect_child h root stats base init γ mean_q players rand rng.
Proof.
  intros Hin. unfold cselect_child. by rewrite select_loop_frame.
Qed.

Lemma closed_insert (h : heap F) (a : addr) (n n' : CNode F) :
  closed h →
  h !! a = Some n →
  children n' = children n →
  closed (<[a := n']> h).
Proof.
  intros Hcl Hn Hch b m k c Hb Hc. rewrite dom_insert_L.
  apply elem_of_union_r.
  destruct (decide (a = b)) as [<-|Hne].
  - rewrite lookup_insert_eq in Hb. injection Hb as <-.
    rewrite Hch in Hc. by eapply Hcl.
  - rewrite lookup_insert_ne in Hb by done. by eapply Hcl.
Qed.

Lemma dom_insert_present (h : heap F) (a : addr) (n : CNode F) :
  a ∈ dom h → dom (<[a := n]> h) = dom h.
Proof.
  intros Ha. rewrite dom_insert_L. apply set_eq. intros x.
  rewrite elem_of_union, elem_of_singleton. split; [|tauto].
  by intros [->|Hx].
Qed.
End FrameReads.

(** *** The traversal of a root stays inside its tree *)

Section FrameTraverse.
Context {F : Type} `{FO : FloatOps F} `{K : Consts} `{U : Utils F}
        {St : Type} `{MM : MinMaxStats F St}.

Lemma closed_children_in (h : heap F) (a : addr) (n : CNode F) :
  closed h → h !! a = Some n → children_in h n.
Proof. intros Hcl Hn k c Hc. by eapply Hcl. Qed.

Lemma traverse_loop_frame (fuel : nat) (stats : St) (base : Z) (init γ : F)
    (players : Z) (rand : nat → Z) (h hR : heap F) (w : Walk F) :
  closed h →
  w_node w ∈ dom h →
  traverse_loop fuel stats base init γ players rand (h ∪ hR) w
  = framed hR <$> traverse_loop fuel stats base init γ players rand h w.
Proof.
  revert h w. induction fuel as [|fuel IH]; intros h w Hcl Hnode;
    cbn [traverse_loop]; rewrite (lookup_union_dom _ _ _ Hnode);
    destruct (h !! w_node w) as [n|] eqn:Hn; try done; cbn;
    destruct (expanded n); try done.
  pose proof (closed_children_in _ _ _ Hcl Hn) as Hin.
  rewrite compute_mean_q_frame by done.
  destruct (compute_mean_q _ _ _ _ _) as [mq|]; [|done]. cbn.
  rewrite cselect_child_frame by done.
  destruct (cselect_child _ _ _ _ _ _ _ _ _ _) as [[actions rng]|]; [|done].
  cbn. destruct (flip_to_play _ _) as [vtp|]; [|done]. cbn.
  destruct (get_child_vec n actions) as [c|] eqn:Hc; [|done]. cbn.
  rewrite insert_union_l. apply IH.
  - by eapply closed_insert.
  - apply get_child_vec_children in Hc as [k Hk]. cbn.
    rewrite dom_insert_L. apply elem_of_union_r. by eapply Hin.
Qed.

Lemma traverse_loop_inv (fuel : nat) (stats : St) (base : Z) (init γ : F)
    (players : Z) (rand : nat → Z) (h h' : heap F) (w w' : Walk F) :
  closed h →
  w_node w ∈ dom h →
  Forall (λ a, a ∈ dom h) (w_path w) →
  traverse_loop fuel stats base init γ players rand h w = Some (h', w') →
  closed h' ∧ dom h' = dom h ∧ w_node w' ∈ dom h'
  ∧ Forall (λ a, a ∈ dom h') (w_path w').
Proof.
  revert h w. induction fuel as [|fuel IH]; intros h w Hcl Hnode Hpath Hrun;
    cbn [traverse_loop] in Hrun;
    destruct (h !! w_node w) as [n|] eqn:Hn; try done; cbn in Hrun;
    destruct (expanded n); try done;
    try (by injection Hrun as <- <-).
  pose proof (closed_children_in _ _ _ Hcl Hn) as Hin.
  destruct (compute_mean_q _ _ _ _ _) as [mq|]; [|done]. cbn in Hrun.
  destruct (cselect_child _ _ _ _ _ _ _ _ _ _) as [[actions rng]|]; [|done].
  cbn in Hrun. destruct (flip_to_play _ _) as [vtp|]; [|done]. cbn in Hrun.
  destruct (get_child_vec n actions) as [c|] eqn:Hc; [|done]. cbn in Hrun.
  assert (Hdom : dom (<[w_node w := set_best_action n actions]> h) = dom h)
    by (by apply dom_insert_present).
  apply get_child_vec_children in Hc as [k Hk].
  apply IH in Hrun as (Hcl' & Hdom' & Hnode' & Hpath').
  - by rewrite Hdom' , Hdom in *.
  - by eapply closed_insert.
  - cbn. rewrite Hdom. by eapply Hin.
  - cbn. rewrite Hdom. apply Forall_app. split; [done|].
    apply Forall_singleton. by eapply Hin.
Qed.

Lemma second_to_last_elem {A} (l : list A) (x : A) :
  second_to_last l = Some x → x ∈ l.
Proof.
  unfold second_to_last. destruct (_ <=? _)%nat; [|done].
  apply list_elem_of_lookup_2.
Qed.

Lemma traverse_root_frame (fuel : nat) (stats : St) (base : Z) (init γ : F)
    (players : Z) (rand : nat → Z) (root : addr) (vtp : Z)
    (h hR : heap F) (sh : Shared F) :
  closed h →
  root ∈ dom h →
  traverse_root fuel stats base init γ players rand root vtp (h ∪ hR) sh
  = framed3 hR
      <$> traverse_root fuel stats base init γ players rand root vtp h sh.
Proof.
  intros Hcl Hroot. unfold traverse_root.
  rewrite traverse_loop_frame by done.
  destruct (traverse_loop _ _ _ _ _ _ _ h _) as [[h' w]|] eqn:Hw; [|done].
  cbn. apply traverse_loop_inv in Hw as (_ & _ & _ & Hpath);
    [|done|done|by apply Forall_singleton].
  destruct (second_to_last (w_path w)) as [pa|] eqn:Hpa; [|done]. cbn.
  apply second_to_last_elem in Hpa.
  rewrite Forall_forall in Hpath.
  rewrite (lookup_union_dom _ _ _ (Hpath _ Hpa)).
  by destruct (h' !! pa).
Qed.

Lemma traverse_root_inv (fuel : nat) (stats : St) (base : Z) (init γ : F)
    (players : Z) (rand : nat → Z) (root : addr) (vtp : Z)
    (h h' : heap F) (sh sh' : Shared F) (slot : SearchSlot) :
  closed h →
  root ∈ dom h →
  traverse_root fuel stats base init γ players rand root vtp h sh
  = Some (h', sh', slot) →
  closed h' ∧ dom h' = dom h ∧ leaf slot ∈ dom h'
  ∧ Forall (λ a, a ∈ dom h') (search_path slot).
Proof.
  intros Hcl Hroot Hrun. unfold traverse_root in Hrun.
  destruct (traverse_loop _ _ _ _ _ _ _ h _) as [[h1 w]|] eqn:Hw; [|done].
  cbn in Hrun.
  destruct (second_to_last _) as [pa|]; [|done]. cbn in Hrun.
  destruct (h1 !! pa) as [parent|]; [|done]. cbn in Hrun.
  injection Hrun as <- <- <-. cbn.
  apply traverse_loop_inv in Hw; [done|done|done|by apply Forall_singleton].
Qed.
End FrameTraverse.

(** *** Expansion and backpropagation stay inside the tree *)

Section FrameBackprop.
Context {F : Type} `{FO : FloatOps F} `{K : Consts} `{U : Utils F}
        `{AL : Allocator} {St : Type} `{MM : MinMaxStats F St}.

Lemma expand_children_frame (this : addr) (policy : gmap Z F)
    (policy_sum : F) (legal : list Z) (j : nat) (h hR : heap F)
    (ch : gmap Z addr) :
  expand_children this policy policy_sum j legal (h ∪ hR) ch
  = framed hR <$> expand_children this policy policy_sum j legal h ch.
Proof.
  revert j h ch. induction legal as [|a rest IH]; intros j h ch; [done|].
  cbn [expand_children]. destruct (policy !! a) as [p|]; [|done]. cbn.
  rewrite insert_union_l. apply IH.
Qed.

Lemma expand_frame (h hR : heap F) (this : addr) (tp cli bi : Z) (vp : F)
    (policy_logits : list F) :
  this ∈ dom h →
  expand (h ∪ hR) this tp cli bi vp policy_logits
  = (λ h', h' ∪ hR) <$> expand h this tp cli bi vp policy_logits.
Proof.
  intros Hthis. unfold expand. rewrite (lookup_union_dom _ _ _ Hthis).
  destruct (h !! this) as [n|]; [|done]. cbn.
  destruct (expand_max _ _ _) as [pm|]; [|done]. cbn.
  destruct (expand_exp _ _ _ _ _) as [[ps pol]|]; [|done]. cbn.
  rewrite expand_children_frame.
  destruct (expand_children _ _ _ _ _ h _) as [[h1 ch]|]; [|done]. cbn.
  by rewrite insert_union_l.
Qed.

Lemma expand_children_dom (this : addr) (policy : gmap Z F) (policy_sum : F)
    (legal : list Z) (j : nat) (h h' : heap F) (ch ch' : gmap Z addr) :
  expand_children this policy policy_sum j legal h ch = Some (h', ch') →
  dom h ⊆ dom h'
  ∧ ∀ a, a ∈ dom h' → a ∈ dom h ∨ ∃ j', a = new_addr this j'.
Proof.
  revert j h ch. induction legal as [|b rest IH]; intros j h ch Hrun.
  - cbn in Hrun. injection Hrun as <- <-. split; [done | by left].
  - cbn [expand_children] in Hrun.
    destruct (policy !! b) as [p|]; [|done]. cbn in Hrun.
    apply IH in Hrun as [Hsub Hnew]. rewrite dom_insert_L in Hsub, Hnew.
    split; [intros x Hx; by apply Hsub, elem_of_union_r|]. intros a Ha.
    destruct (Hnew a Ha) as [[->%elem_of_singleton|Hin]%elem_of_union|Hj];
      eauto.
Qed.

Lemma expand_dom (h h' : heap F) (this : addr) (tp cli bi : Z) (vp : F)
    (policy_logits : list F) :
  expand h this tp cli bi vp policy_logits = Some h' →
  dom h ⊆ dom h'
  ∧ ∀ a, a ∈ dom h' → a ∈ dom h ∨ ∃ j, a = new_addr this j.
Proof.
  intros Hrun. unfold expand in Hrun.
  destruct (h !! this) as [n|] eqn:Hn; [|done]. cbn in Hrun.
  destruct (expand_max _ _ _) as [pm|]; [|done]. cbn in Hrun.
  destruct (expand_exp _ _ _ _ _) as [[ps pol]|]; [|done]. cbn in Hrun.
  destruct (expand_children _ _ _ _ _ _ _) as [[h1 ch]|] eqn:Hch; [|done].
  cbn in Hrun. injection Hrun as <-.
  apply expand_children_dom in Hch as [Hsub Hnew].
  assert (this ∈ dom h) by (apply elem_of_dom; eauto).
  rewrite dom_insert_L. split; [set_solver|]. intros a Ha.
  apply elem_of_union in Ha as [->%elem_of_singleton|Ha]; [by left|].
  by apply Hnew.
Qed.

Lemma parent_info_frame (h hR : heap F) (path : list addr) (i : nat) :
  Forall (λ a, a ∈ dom h) path →
  parent_info (h ∪ hR) path i = parent_info h path i.
Proof.
  intros Hpath. destruct i as [|i]; [done|]. cbn.
  destruct (path !! i) as [pa|] eqn:Hpa; [|done]. cbn.
  rewrite Forall_forall in Hpath.
  by rewrite (lookup_union_dom _ _ _ (Hpath _ (list_elem_of_lookup_2 _ _ _ Hpa))).
Qed.

Lemma backprop_single_frame (path : list addr) (γ : F) (k : nat)
    (h hR : heap F) (stats : St) (bv : F) :
  Forall (λ a, a ∈ dom h) path →
  backprop_single path γ k (h ∪ hR) stats bv
  = framed hR <$> backprop_single path γ k h stats bv.
Proof.
  revert h stats bv. induction k as [|i IH]; intros h stats bv Hpath; [done|].
  cbn [backprop_single].
  destruct (path !! i) as [a|] eqn:Ha; [|done]. cbn.
  assert (Hin : a ∈ dom h).
  { rewrite Forall_forall in Hpath.
    by eapply Hpath, list_elem_of_lookup_2. }
  rewrite (lookup_union_dom _ _ _ Hin).
  destruct (h !! a) as [node|]; [|done]. cbn.
  rewrite insert_union_l.
  assert (Hpath' : Forall (λ b, b ∈ dom (<[a := incr_visit_count
                     (add_value_sum node bv)]> h)) path)
    by (by rewrite dom_insert_present).
  rewrite parent_info_frame by done.
  destruct (parent_info _ _ _) as [[pvp r]|]; [|done]. cbn.
  by apply IH.
Qed.

Lemma backprop_two_frame (path : list addr) (tp : Z) (γ : F) (k : nat)
    (h hR : heap F) (stats : St) (bv : F) :
  Forall (λ a, a ∈ dom h) path →
  backprop_two path tp γ k (h ∪ hR) stats bv
  = framed hR <$> backprop_two path tp γ k h stats bv.
Proof.
  revert h stats bv. induction k as [|i IH]; intros h stats bv Hpath; [done|].
  cbn [backprop_two].
  destruct (path !! i) as [a|] eqn:Ha; [|done]. cbn.
  assert (Hin : a ∈ dom h).
  { rewrite Forall_forall in Hpath.
    by eapply Hpath, list_elem_of_lookup_2. }
  rewrite (lookup_union_dom _ _ _ Hin).
  destruct (h !! a) as [node|]; [|done]. cbn.
  rewrite insert_union_l.
  set (node' := incr_visit_count _).
  assert (Hpath' : Forall (λ b, b ∈ dom (<[a := node']> h)) path)
    by (by rewrite dom_insert_present).
  rewrite parent_info_frame by done.
  destruct (parent_info _ _ _) as [[pvp r]|]; [|done]. cbn.
  by apply IH.
Qed.

Lemma cbackpropagate_frame (h hR : heap F) (path : list addr) (stats : St)
    (tp : Z) (v γ : F) :
  Forall (λ a, a ∈ dom h) path →
  cbackpropagate (h ∪ hR) path stats tp v γ
  = framed hR <$> cbackpropagate h path stats tp v γ.
Proof.
  intros Hpath. unfold cbackpropagate. destruct (_ || _); [|done].
  destruct (tp =? -1);
    [by apply backprop_single_frame | by apply backprop_two_frame].
Qed.

Lemma backprop_single_dom (path : list addr) (γ : F) (k : nat)
    (h h' : heap F) (stats stats' : St) (bv : F) :
  backprop_single path γ k h stats bv = Some (h', stats') → dom h' = dom h.
Proof.
  revert h stats bv. induction k as [|i IH]; intros h stats bv Hrun.
  - cbn in Hrun. by injection Hrun as <- <-.
  - cbn [backprop_single] in Hrun.
    destruct (path !! i) as [a|]; [|done]. cbn in Hrun.
    destruct (h !! a) as [node|] eqn:Ha; [|done]. cbn in Hrun.
    destruct (parent_info _ _ _) as [[pvp r]|]; [|done]. cbn in Hrun.
    apply IH in Hrun. rewrite Hrun. apply dom_insert_present.
    apply elem_of_dom. eauto.
Qed.

Lemma backprop_two_dom (path : list addr) (tp : Z) (γ : F) (k : nat)
    (h h' : heap F) (stats stats' : St) (bv : F) :
  backprop_two path tp γ k h stats bv = Some (h', stats') → dom h' = dom h.
Proof.
  revert h stats bv. induction k as [|i IH]; intros h stats bv Hrun.
  - cbn in Hrun. by injection Hrun as <- <-.
  - cbn [backprop_two] in Hrun.
    destruct (path !! i) as [a|]; [|done]. cbn in Hrun.
    destruct (h !! a) as [node|] eqn:Ha; [|done]. cbn in Hrun.
    destruct (parent_info _ _ _) as [[pvp r]|]; [|done]. cbn in Hrun.
    apply IH in Hrun. rewrite Hrun. apply dom_insert_present.
    apply elem_of_dom. eauto.
Qed.

Lemma cbackpropagate_dom (h h' : heap F) (path : list addr)
    (stats stats' : St) (tp : Z) (v γ : F) :
  cbackpropagate h path stats tp v γ = Some (h', stats') → dom h' = dom h.
Proof.
  unfold cbackpropagate. destruct (_ || _); [|done].
  destruct (tp =? -1);
    [apply backprop_single_dom | apply backprop_two_dom].
Qed.

Lemma backprop_leaf_frame (cli : Z) (γ : F) (i : nat) (slot : SearchSlot)
    (tp : Z) (vp : F) (pol : list F) (r : Z) (stats : St) (v : F)
    (h hR : heap F) :
  leaf slot ∈ dom h →
  Forall (λ a, a ∈ dom h) (search_path slot) →
  backprop_leaf cli γ i slot tp vp pol r stats v (h ∪ hR)
  = framed hR <$> backprop_leaf cli γ i slot tp vp pol r stats v h.
Proof.
  intros Hleaf Hpath. unfold backprop_leaf. rewrite expand_frame by done.
  destruct (expand h _ _ _ _ _ _) as [h1|] eqn:He; [|done]. cbn.
  apply expand_dom in He as [Hsub _].
  rewrite (lookup_union_dom _ _ _ (Hsub _ Hleaf)).
  destruct (h1 !! leaf slot) as [n|] eqn:Hn; [|done]. cbn.
  rewrite insert_union_l. apply cbackpropagate_frame.
  rewrite dom_insert_present by (apply elem_of_dom; eauto).
  eapply Forall_impl; [done|]. intros a Ha. by apply Hsub.
Qed.

Lemma backprop_leaf_dom (cli : Z) (γ : F) (i : nat) (slot : SearchSlot)
    (tp : Z) (vp : F) (pol : list F) (r : Z) (stats stats' : St) (v : F)
    (h h' : heap F) :
  backprop_leaf cli γ i slot tp vp pol r stats v h = Some (h', stats') →
  dom h ⊆ dom h'
  ∧ ∀ a, a ∈ dom h' → a ∈ dom h ∨ ∃ j, a = new_addr (leaf slot) j.
Proof.
  intros Hrun. unfold backprop_leaf in Hrun.
  destruct (expand h _ _ _ _ _ _) as [h1|] eqn:He; [|done]. cbn in Hrun.
  destruct (h1 !! leaf slot) as [n|] eqn:Hn; [|done]. cbn in Hrun.
  apply cbackpropagate_dom in Hrun.
  rewrite dom_insert_present in Hrun by (apply elem_of_dom; eauto).
  rewrite Hrun. by apply expand_dom in He.
Qed.
End FrameBackprop.

(** *** A round on two disjoint trees *)

Section TwoRoots.
Context {F : Type} `{FO : FloatOps F} `{K : Consts} `{U : Utils F}
        `{AL : Allocator} {St : Type} `{MM : MinMaxStats F St}.

Lemma union_comm_dom (h h' : heap F) :
  dom h ## dom h' → h ∪ h' = h' ∪ h.
Proof. intros Hd. by apply map_union_comm, map_disjoint_dom. Qed.

(** [cbatch_traverse] on two disjoint trees: each traversal runs in its own
    tree; [players] comes from the whole batch, and the second traversal is
    entered with the shared variables the first one leaves. *)
Lemma traverse_two_roots (fuel : nat) (rand : nat → Z) (h0 h1 : heap F)
    (r0 r1 : addr) (base : Z) (init γ : F) (s0 s1 : St) (v0 v1 : Z) :
  closed h0 →
  closed h1 →
  dom h0 ## dom h1 →
  r0 ∈ dom h0 →
  r1 ∈ dom h1 →
  cbatch_traverse fuel rand (h0 ∪ h1) (mkCRoots 2 [r0; r1]) base init γ
    [s0; s1] 2 [v0; v1]
  = players ← infer_players [v0; v1];
    '(h0', sh, slot0) ←
       traverse_root fuel s0 base init γ players rand r0 v0 h0
         (mkShared fzero 0%nat);
    '(h1', _, slot1) ←
       traverse_root fuel s1 base init γ players rand r1 v1 h1 sh;
    Some (h0' ∪ h1', mkResults 2 [slot0; slot1],
          [virtual_to_play slot0; virtual_to_play slot1]).
Proof.
  intros Hcl0 Hcl1 Hdisj Hr0 Hr1. unfold cbatch_traverse.
  change (Z.to_nat 2) with 2%nat.
  change (2 <=? length [v0; v1])%nat with true. cbv iota.
  destruct (infer_players [v0; v1]) as [players|]; [|done].
  change (seq 0 2) with [0; 1]%nat.
  cbn [mbind option_bind traverse_batch roots lookup list_lookup].
  rewrite traverse_root_frame by done.
  destruct (traverse_root _ _ _ _ _ _ _ _ _ h0 _) as [[[h0A sh0] slot0]|]
    eqn:HT0; [|done].
  apply traverse_root_inv in HT0 as (_ & Hdom0A & _ & _); [|done|done].
  cbn [fmap option_fmap option_map framed3 fst snd mbind option_bind].
  rewrite (union_comm_dom h0A h1) by (by rewrite Hdom0A).
  rewrite traverse_root_frame by done.
  destruct (traverse_root _ _ _ _ _ _ _ _ _ h1 _) as [[[h1A sh1] slot1]|]
    eqn:HT1; [|done].
  apply traverse_root_inv in HT1 as (_ & Hdom1A & _ & _); [|done|done].
  cbn [fmap option_fmap option_map framed3 fst snd mbind option_bind
       fmap list_fmap drop app].
  by rewrite (union_comm_dom h1A h0A) by (by rewrite Hdom0A, Hdom1A).
Qed.

(** [cbatch_backpropagate] on two disjoint trees whose leaves and search
    paths lie in their own tree, with an allocator that leaves both trees
    alone and never returns one address twice. *)
Lemma backprop_two_roots (h0 h1 : heap F) (slot0 slot1 : SearchSlot)
    (γ : F) (s0 s1 : St) (cli : Z) (vp0 vp1 x0 x1 : F)
    (pol0 pol1 : list F) (rs0 rs1 tp0 tp1 : Z) :
  dom h0 ## dom h1 →
  leaf slot0 ∈ dom h0 →
  leaf slot1 ∈ dom h1 →
  Forall (λ a, a ∈ dom h0) (search_path slot0) →
  Forall (λ a, a ∈ dom h1) (search_path slot1) →
  (∀ a j, new_addr a j ∉ dom h0 ∪ dom h1) →
  (∀ a b j j', new_addr a j = new_addr b j' → a = b) →
  cbatch_backpropagate (h0 ∪ h1) cli γ [vp0; vp1] [x0; x1] [pol0; pol1]
    [s0; s1] (mkResults 2 [slot0; slot1]) [rs0; rs1] [tp0; tp1]
  = '(h0', s0') ← backprop_leaf cli γ 0 slot0 tp0 vp0 pol0 rs0 s0 x0 h0;
    '(h1', s1') ← backprop_leaf cli γ 1 slot1 tp1 vp1 pol1 rs1 s1 x1 h1;
    Some (h0' ∪ h1', [s0'; s1']).
Proof.
  intros Hd01 Hleaf0 Hleaf1 Hpath0 Hpath1 Hfresh Hinj.
  unfold cbatch_backpropagate. cbn [num]. change (Z.to_nat 2) with 2%nat.
  change (seq 0 2) with [0; 1]%nat.
  cbn [backprop_batch backprop_slot slots lookup list_lookup mbind option_bind].
  rewrite backprop_leaf_frame by done.
  destruct (backprop_leaf _ _ _ _ _ _ _ _ _ _ h0) as [[h0B s0']|] eqn:HB0;
    [|done].
  destruct (backprop_leaf_dom _ _ _ _ _ _ _ _ _ _ _ _ _ HB0) as [Hsub0 Hnew0].
  cbn [fmap option_fmap option_map framed fst snd mbind option_bind
       insert list_insert backprop_slot slots lookup list_lookup].
  assert (Hd0B1 : dom h0B ## dom h1).
  { intros a Ha0 Ha1. destruct (Hnew0 a Ha0) as [Hin|[j ->]].
    - by apply (Hd01 a).
    - apply (Hfresh (leaf slot0) j). by apply elem_of_union_r. }
  rewrite (union_comm_dom h0B h1) by done.
  rewrite backprop_leaf_frame by done.
  destruct (backprop_leaf _ _ _ _ _ _ _ _ _ _ h1) as [[h1B s1']|] eqn:HB1;
    [|done].
  destruct (backprop_leaf_dom _ _ _ _ _ _ _ _ _ _ _ _ _ HB1) as [Hsub1 Hnew1].
  cbn [fmap option_fmap option_map framed fst snd mbind option_bind
       insert list_insert].
  assert (Hd1B0B : dom h1B ## dom h0B).
  { intros a Ha1 Ha0.
    destruct (Hnew1 a Ha1) as [Hin1|[j1 ->]];
      destruct (Hnew0 _ Ha0) as [Hin0|[j0 Heq]].
    - by apply (Hd01 a).
    - rewrite Heq in Hin1. apply (Hfresh (leaf slot0) j0).
      by apply elem_of_union_r.
    - apply (Hfresh (leaf slot1) j1). by apply elem_of_union_l.
    - apply Hinj in Heq. apply (Hd01 (leaf slot0)); [done|].
      by rewrite <- Heq. }
  by rewrite (union_comm_dom h1B h0B).
Qed.
End TwoRoots.

(** C2, amended.  Two roots own disjoint trees [h0] and [h1] without
    dangling pointers, and the allocator returns addresses outside both and
    never the same address for two nodes.  A search round on the batch of
    both roots then leaves the union of what the two loop iterations of each
    root leave in its own tree: the iterations of the first root run on [h0]
    alone, those of the second root on [h1] alone, both with the player
    count inferred from the whole batch, and the second one entered with the
    [parent_q] and the state of [rand()] that the traversal of the first root
    leaves behind.  Nothing else passes from one element to the other. *)
Theorem search_round_two_roots {F} `{FO : FloatOps F} `{K : Consts}
    `{U : Utils F} `{AL : Allocator} {St : Type} `{MM : MinMaxStats F St}
    (fuel : nat) (rand : nat → Z) (h0 h1 : heap F) (r0 r1 : addr)
    (base : Z) (init γ : F) (s0 s1 : St) (v0 v1 cli : Z)
    (vp0 vp1 x0 x1 : F) (pol0 pol1 : list F) (rs0 rs1 tp0 tp1 : Z) :
  closed h0 →
  closed h1 →
  dom h0 ## dom h1 →
  r0 ∈ dom h0 →
  r1 ∈ dom h1 →
  (∀ a j, new_addr a j ∉ dom h0 ∪ dom h1) →
  (∀ a b j j', new_addr a j = new_addr b j' → a = b) →
  search_round fuel rand (h0 ∪ h1) (mkCRoots 2 [r0; r1]) base init γ
    [s0; s1] 2 [v0; v1] cli [vp0; vp1] [x0; x1] [pol0; pol1] [rs0; rs1]
    [tp0; tp1]
  = players ← infer_players [v0; v1];
    '(h0', sh, slot0, s0') ←
       root_round fuel rand 0 players (mkShared fzero 0%nat) h0 r0 base init γ
         s0 v0 cli vp0 x0 pol0 rs0 tp0;
    '(h1', _, slot1, s1') ←
       root_round fuel rand 1 players sh h1 r1 base init γ
         s1 v1 cli vp1 x1 pol1 rs1 tp1;
    Some (h0' ∪ h1', [s0'; s1'], mkResults 2 [slot0; slot1],
          [virtual_to_play slot0; virtual_to_play slot1]).
Proof.
  intros Hcl0 Hcl1 Hdisj Hr0 Hr1 Hfresh Hinj.
  unfold search_round, root_round. rewrite traverse_two_roots by done.
  destruct (infer_players [v0; v1]) as [players|]; [|done].
  cbn [mbind option_bind].
  destruct (traverse_root _ _ _ _ _ _ _ _ _ h0 _) as [[[h0A sh0] slot0]|]
    eqn:HT0; [|done].
  cbn [mbind option_bind].
  destruct (traverse_root _ _ _ _ _ _ _ _ _ h1 _) as [[[h1A sh1] slot1]|]
    eqn:HT1.
  2:{ cbn. destruct (backprop_leaf _ _ _ _ _ _ _ _ _ _ _) as [[??]|];
        cbn; [by rewrite HT1 | done]. }
  destruct (traverse_root_inv _ _ _ _ _ _ _ _ _ _ _ _ _ _ Hcl0 Hr0 HT0)
    as (_ & Hdom0A & Hleaf0 & Hpath0).
  destruct (traverse_root_inv _ _ _ _ _ _ _ _ _ _ _ _ _ _ Hcl1 Hr1 HT1)
    as (_ & Hdom1A & Hleaf1 & Hpath1).
  cbn [mbind option_bind].
  rewrite backprop_two_roots;
    [| by rewrite Hdom0A, Hdom1A | done | done | done | done
     | by rewrite Hdom0A, Hdom1A | done].
  destruct (backprop_leaf _ _ _ _ _ _ _ _ _ _ h0A) as [[h0B s0']|]; [|done].
  cbn [mbind option_bind]. rewrite HT1. cbn [mbind option_bind].
  by destruct (backprop_leaf _ _ _ _ _ _ _ _ _ _ h1A) as [[h1B s1']|].
Qed.

(** a heap given by its entries is closed when a decision procedure says
    so *)
Lemma closed_decide {F} (h : heap F) :
  map_Forall (λ _ n, map_Forall (λ _ c, c ∈ dom h) (children n)) h →
  closed h.
Proof. intros Hall a n k c Hn Hc. exact (Hall a n Hn k c Hc). Qed.

Lemma search_round_two_roots_witness :
  search_round (K := Rat.consts_1_2) (AL := Pair.beyond) 5 Pair.counting
    (Pair.tree1 ∪ Pair.tree2) (mkCRoots 2 [1%positive; 2%positive]) 19652
    (Rat.Fin (5 # 4)) (Rat.Fin 1) [Example.no_stats; Example.no_stats] 2
    [-1; -1] 1 [Rat.Fin 0; Rat.Fin 0] [Rat.Fin 1; Rat.Fin 1]
    [[Rat.Fin 0; Rat.Fin 0]; [Rat.Fin 0; Rat.Fin 0]] [0; 0] [-1; -1]
  = players ← infer_players [-1; -1];
    '(h0', sh, slot0, s0') ←
       root_round (K := Rat.consts_1_2) (AL := Pair.beyond) 5 Pair.counting 0
         players (mkShared fzero 0%nat) Pair.tree1 1%positive 19652
         (Rat.Fin (5 # 4)) (Rat.Fin 1) Example.no_stats (-1) 1 (Rat.Fin 0)
         (Rat.Fin 1) [Rat.Fin 0; Rat.Fin 0] 0 (-1);
    '(h1', _, slot1, s1') ←
       root_round (K := Rat.consts_1_2) (AL := Pair.beyond) 5 Pair.counting 1
         players sh Pair.tree2 2%positive 19652
         (Rat.Fin (5 # 4)) (Rat.Fin 1) Example.no_stats (-1) 1 (Rat.Fin 0)
         (Rat.Fin 1) [Rat.Fin 0; Rat.Fin 0] 0 (-1);
    Some (h0' ∪ h1', [s0'; s1'], mkResults 2 [slot0; slot1],
          [virtual_to_play slot0; virtual_to_play slot1]).
Proof.
  apply (search_round_two_roots (K := Rat.consts_1_2) (AL := Pair.beyond)).
  - apply closed_decide. apply (bool_decide_unpack _). vm_compute. exact I.
  - apply closed_decide. apply (bool_decide_unpack _). vm_compute. exact I.
  - apply map_disjoint_dom. unfold Pair.tree1.
    rewrite !map_disjoint_insert_l, map_disjoint_singleton_l.
    repeat split; reflexivity.
  - apply elem_of_dom. eexists. reflexivity.
  - apply elem_of_dom. eexists. reflexivity.
  - intros a j. unfold Pair.tree1, Pair.tree2. cbn [new_addr Pair.beyond].
    rewrite !dom_insert_L, !dom_singleton_L. set_unfold. lia.
  - intros a b j j' Heq. cbn [new_addr Pair.beyond] in Heq.
    apply Pos.add_reg_l in Heq. apply (inj encode) in Heq.
    by injection Heq.
Defined.

(** The round of a batch that holds one root is the pair of loop
    iterations of that root, with batch index [0], the player count of its
    own entry, [parent_q = 0] and a freshly seeded [rand()]. *)
Lemma search_round_single {F} `{FO : FloatOps F} `{K : Consts}
    `{U : Utils F} `{AL : Allocator} {St : Type} `{MM : MinMaxStats F St}
    (fuel : nat) (rand : nat → Z) (h : heap F) (r : addr) (base : Z)
    (init γ : F) (s : St) (v cli : Z) (vp x : F) (pol : list F) (rs tp : Z) :
  search_round fuel rand h (mkCRoots 1 [r]) base init γ [s] 1 [v] cli [vp]
    [x] [pol] [rs] [tp]
  = players ← infer_players [v];
    '(h', _, slot, s') ←
       root_round fuel rand 0 players (mkShared fzero 0%nat) h r base init γ
         s v cli vp x pol rs tp;
    Some (h', [s'], mkResults 1 [slot], [virtual_to_play slot]).
Proof.
  unfold search_round, cbatch_traverse, root_round.
  change (Z.to_nat 1) with 1%nat.
  change (1 <=? length [v])%nat with true. cbv iota.
  destruct (infer_players [v]) as [players|]; [|done].
  change (seq 0 1) with [0]%nat.
  cbn [mbind option_bind traverse_batch roots lookup list_lookup].
  destruct (traverse_root _ _ _ _ _ _ _ _ _ _ _) as [[[h1 sh] slot]|]; [|done].
  cbn [fmap option_fmap option_map fst snd mbind option_bind
       fmap list_fmap drop app].
  unfold cbatch_backpropagate. cbn [num]. change (Z.to_nat 1) with 1%nat.
  change (seq 0 1) with [0]%nat.
  cbn [backprop_batch backprop_slot slots lookup list_lookup mbind option_bind].
  destruct (backprop_leaf _ _ _ _ _ _ _ _ _ _ _) as [[h2 s']|]; done.
Qed.

(** On the two prepared roots the round runs to its end with five units of
    fuel. *)
Lemma search_round_two_roots_runs :
  is_Some
    (search_round (K := Rat.consts_1_2) (AL := Pair.beyond) 5 Pair.counting
       (Pair.tree1 ∪ Pair.tree2) (mkCRoots 2 [1%positive; 2%positive]) 19652
       (Rat.Fin (5 # 4)) (Rat.Fin 1) [Example.no_stats; Example.no_stats] 2
       [-1; -1] 1 [Rat.Fin 0; Rat.Fin 0] [Rat.Fin 1; Rat.Fin 1]
       [[Rat.Fin 0; Rat.Fin 0]; [Rat.Fin 0; Rat.Fin 0]] [0; 0] [-1; -1]).
Proof. vm_compute. eexists. reflexivity. Qed.

(** When its own entry of [virtual_to_play_batch] gives the player count of
    the pair, the first root ends the round of the pair with the tree that
    the round of the batch holding it alone builds. *)
Lemma first_root_as_alone {F} `{FO : FloatOps F} `{K : Consts}
    `{U : Utils F} `{AL : Allocator} {St : Type} `{MM : MinMaxStats F St}
    (fuel : nat) (rand : nat → Z) (h0 h1 h' : heap F) (r0 r1 : addr)
    (base : Z) (init γ : F) (s0 s1 : St) (v0 v1 cli : Z)
    (vp0 vp1 x0 x1 : F) (pol0 pol1 : list F) (rs0 rs1 tp0 tp1 : Z)
    (sl' : list St) (res' : CSearchResults) (vtps' : list Z) :
  closed h0 →
  closed h1 →
  dom h0 ## dom h1 →
  r0 ∈ dom h0 →
  r1 ∈ dom h1 →
  (∀ a j, new_addr a j ∉ dom h0 ∪ dom h1) →
  (∀ a b j j', new_addr a j = new_addr b j' → a = b) →
  infer_players [v0; v1] = infer_players [v0] →
  search_round fuel rand (h0 ∪ h1) (mkCRoots 2 [r0; r1]) base init γ
    [s0; s1] 2 [v0; v1] cli [vp0; vp1] [x0; x1] [pol0; pol1] [rs0; rs1]
    [tp0; tp1] = Some (h', sl', res', vtps') →
  ∃ h0' sl0 res0 vtps0,
    search_round fuel rand h0 (mkCRoots 1 [r0]) base init γ [s0] 1 [v0] cli
      [vp0] [x0] [pol0] [rs0] [tp0] = Some (h0', sl0, res0, vtps0)
    ∧ ∀ a, a ∈ dom h0' → h' !! a = h0' !! a.
Proof.
  intros Hcl0 Hcl1 Hdisj Hr0 Hr1 Hfresh Hinj Hplayers Hrun.
  rewrite search_round_single, <- Hplayers.
  unfold search_round, root_round in *.
  rewrite traverse_two_roots in Hrun by done.
  destruct (infer_players [v0; v1]) as [players|]; [|done]. cbn in Hrun |- *.
  destruct (traverse_root _ _ _ _ _ _ _ _ _ h0 _) as [[[h0A sh0] slot0]|]
    eqn:HT0; [|done]. cbn in Hrun |- *.
  destruct (traverse_root _ _ _ _ _ _ _ _ _ h1 _) as [[[h1A sh1] slot1]|]
    eqn:HT1; [|done]. cbn in Hrun.
  destruct (traverse_root_inv _ _ _ _ _ _ _ _ _ _ _ _ _ _ Hcl0 Hr0 HT0)
    as (_ & Hdom0A & Hleaf0 & Hpath0).
  destruct (traverse_root_inv _ _ _ _ _ _ _ _ _ _ _ _ _ _ Hcl1 Hr1 HT1)
    as (_ & Hdom1A & Hleaf1 & Hpath1).
  rewrite backprop_two_roots in Hrun;
    [| by rewrite Hdom0A, Hdom1A | done | done | done | done
     | by rewrite Hdom0A, Hdom1A | done].
  destruct (backprop_leaf _ _ _ _ _ _ _ _ _ _ h0A) as [[h0B s0']|]; [|done].
  cbn in Hrun |- *.
  destruct (backprop_leaf _ _ _ _ _ _ _ _ _ _ h1A) as [[h1B s1']|]; [|done].
  cbn in Hrun. injection Hrun as <- <- <- <-.
  eexists _, _, _, _. split; [done|].
  intros a [n Hn]%elem_of_dom. rewrite Hn. by apply lookup_union_Some_l.
Qed.

(** * Further properties *)

(** ** The action codec and the child lookup *)

Lemma encode_from_nonneg `{K : Consts} (actions : list Z) (i encoded : Z) :
  0 ≤ encoded → 0 ≤ encode_from i actions encoded.
Proof.
  revert i encoded. induction actions as [|a rest IH]; intros i encoded He;
    cbn [encode_from]; [done|].
  destruct (i <? u64 NUM_ACTION_HEADS); [|done]. apply IH.
  destruct (_ && _); [|done]. unfold u64 at 1.
  apply Z.mod_pos_bound. lia.
Qed.

(** X1.  Whatever the action vector (any length, entries out of range
    included), [encode_action] returns a key in [0, TOTAL_ACTIONS), as soon
    as [TOTAL_ACTIONS] is positive and fits the key type. *)
Theorem encode_action_below_total `{K : Consts} (actions : list Z) :
  0 < TOTAL_ACTIONS < 2 ^ 64 →
  0 ≤ encode_action actions < TOTAL_ACTIONS.
Proof.
  intros HT. unfold encode_action.
  pose proof (encode_from_nonneg actions 0 0 ltac:(done)) as Hge.
  rewrite !u64_small by lia.
  destruct (Z.ltb_spec (encode_from 0 actions 0) TOTAL_ACTIONS); lia.
Qed.

Lemma encode_action_below_total_witness :
  0 ≤ encode_action (K := Rat.consts_2_4) [7; -3; 100] < 8.
Proof.
  apply (encode_action_below_total (K := Rat.consts_2_4) [7; -3; 100]).
  vm_compute. split; reflexivity.
Defined.

Lemma head_sum_entry_sum `{K : Consts} (actions : list Z) (i : Z) :
  head_sum i actions
  = entry_sum actions + head_sum i (replicate (length actions) 0).
Proof.
  revert i. induction actions as [|a rest IH]; intros i; [done|].
  cbn [head_sum entry_sum foldr length replicate].
  rewrite (IH (i + 1)). unfold entry_sum. lia.
Qed.

(** X2.  The key of a well-formed action vector depends on the sum of its
    entries only: two vectors of [NUM_ACTION_HEADS] entries in
    [0, ACTIONS_PER_PLAYER) with the same entry sum get the same key, so
    [encode_action] does not tell them apart. *)
Theorem encode_action_same_entry_sum `{K : Consts} (actions actions' : list Z) :
  0 < NUM_ACTION_HEADS →
  0 < ACTIONS_PER_PLAYER →
  TOTAL_ACTIONS < 2 ^ 31 →
  Z.of_nat (length actions) = NUM_ACTION_HEADS →
  Z.of_nat (length actions') = NUM_ACTION_HEADS →
  Forall (λ a, 0 ≤ a < ACTIONS_PER_PLAYER) actions →
  Forall (λ a, 0 ≤ a < ACTIONS_PER_PLAYER) actions' →
  entry_sum actions = entry_sum actions' →
  encode_action actions = encode_action actions'.
Proof.
  intros HH HA HT Hlen Hlen' Hall Hall' Hsum. unfold encode_action.
  pose proof (head_sum_bounds HH HA HT actions 0 ltac:(done) ltac:(lia) Hall).
  pose proof (head_sum_bounds HH HA HT actions' 0 ltac:(done) ltac:(lia) Hall').
  assert (TOTAL_ACTIONS * NUM_ACTION_HEADS < 2 ^ 62).
  { pose proof (heads_le_total HH HA HT). nia. }
  rewrite !(encode_from_sum HH HA HT) by (done || lia || nia).
  rewrite (head_sum_entry_sum actions), (head_sum_entry_sum actions').
  assert (length actions = length actions') as -> by lia.
  by rewrite Hsum.
Qed.

Lemma encode_action_same_entry_sum_witness :
  encode_action (K := Rat.consts_2_4) [1; 0]
  = encode_action (K := Rat.consts_2_4) [0; 1].
Proof.
  apply (encode_action_same_entry_sum (K := Rat.consts_2_4) [1; 0] [0; 1]);
    try reflexivity; repeat constructor; cbn; lia.
Defined.

(** X3.  The vector of [-1]s that [cselect_child] returns when it has no
    candidate is a valid argument of [get_child]: it encodes to the key [0],
    so the lookup gives the child of the action [0]. *)
Theorem fallback_vector_gets_child_zero {F} `{K : Consts} (n : CNode F) :
  0 < NUM_ACTION_HEADS →
  0 < ACTIONS_PER_PLAYER →
  TOTAL_ACTIONS < 2 ^ 31 →
  get_child_vec n (vector_fill NUM_ACTION_HEADS (-1)) = get_child n 0.
Proof.
  intros HH HA HT. unfold get_child_vec, get_child, vector_fill.
  rewrite length_replicate, (u64_heads HH HA HT), Z2Nat.id by lia.
  rewrite Z.eqb_refl. cbn [negb]. unfold encode_action.
  rewrite (encode_from_negative HH HA HT)
    by (apply Forall_replicate; lia).
  rewrite (u64_total HH HA HT).
  pose proof (heads_le_total HH HA HT).
  destruct (Z.ltb_spec 0 TOTAL_ACTIONS); [done | lia].
Qed.

Lemma fallback_vector_gets_child_zero_witness :
  get_child_vec (K := Rat.consts_2_4) Tie.root [-1; -1] = Some 2%positive.
Proof.
  apply (fallback_vector_gets_child_zero (K := Rat.consts_2_4) Tie.root);
    reflexivity.
Defined.

(** ** [CNode::expand] *)

Lemma index_is_Some {A} (v : list A) (i : Z) :
  is_Some (index v i) ↔ 0 ≤ i < Z.of_nat (length v).
Proof.
  unfold index. destruct (Z.ltb_spec i 0).
  - split; [by intros [? ?] | lia].
  - rewrite lookup_lt_is_Some. lia.
Qed.

Section ExpandFacts.
Context {F : Type} `{FO : FloatOps F} `{U : Utils F} `{AL : Allocator}.

Lemma expand_max_is_Some (logits : list F) (M : F) (legal : list Z) :
  is_Some (expand_max logits M legal)
  ↔ Forall (λ a, 0 ≤ a < Z.of_nat (length logits)) legal.
Proof.
  revert M. induction legal as [|a rest IH]; intros M; cbn [expand_max].
  - split; [constructor | eauto].
  - rewrite Forall_cons, <- index_is_Some.
    destruct (index logits a) as [x|]; cbn.
    + rewrite IH. split; [eauto | tauto].
    + split; [by intros [? ?] | by intros [[? ?] _]].
Qed.

Lemma expand_exp_is_Some (logits : list F) (M s : F) (pol : gmap Z F)
    (legal : list Z) :
  is_Some (expand_exp logits M s pol legal)
  ↔ Forall (λ a, 0 ≤ a < Z.of_nat (length logits)) legal.
Proof.
  revert s pol. induction legal as [|a rest IH]; intros s pol;
    cbn [expand_exp].
  - split; [constructor | eauto].
  - rewrite Forall_cons, <- index_is_Some.
    destruct (index logits a) as [x|]; cbn.
    + rewrite IH. split; [eauto | tauto].
    + split; [by intros [? ?] | by intros [[? ?] _]].
Qed.

Lemma expand_exp_policy (logits : list F) (M s s' : F) (pol pol' : gmap Z F)
    (legal : list Z) :
  expand_exp logits M s pol legal = Some (s', pol') →
  ∀ a, pol' !! a
       = if decide (a ∈ legal)
         then (λ x, fexp (fsub x M)) <$> index logits a
         else pol !! a.
Proof.
  revert s pol. induction legal as [|b rest IH]; intros s pol Hrun a.
  - cbn in Hrun. injection Hrun as <- <-.
    by rewrite decide_False by apply not_elem_of_nil.
  - cbn [expand_exp] in Hrun.
    destruct (index logits b) as [x|] eqn:Hb; [|done]. cbn in Hrun.
    rewrite (IH _ _ Hrun a).
    destruct (decide (a ∈ rest)) as [Hin|Hnin].
    + rewrite decide_True; [done | by apply elem_of_cons; right].
    + destruct (decide (a = b)) as [->|Hne].
      * rewrite lookup_insert_eq, decide_True by (apply elem_of_cons; by left).
        by rewrite Hb.
      * rewrite lookup_insert_ne by done.
        rewrite decide_False; [done|].
        rewrite elem_of_cons. tauto.
Qed.

Lemma expand_max_fold (logits ls : list F) (M : F) (legal : list Z) :
  mapM (index logits) legal = Some ls →
  expand_max logits M legal
  = Some (foldl (λ m x, if flt m x then x else m) M ls).
Proof.
  revert M ls. induction legal as [|a rest IH]; intros M ls Hls.
  - cbn in Hls. by injection Hls as <-.
  - cbn [mapM] in Hls. cbn [expand_max].
    destruct (index logits a) as [x|]; [|done]. cbn in Hls |- *.
    destruct (mapM _ rest) as [ls'|] eqn:Hrest; [|done].
    cbn in Hls. injection Hls as <-. by rewrite (IH _ ls').
Qed.

Lemma expand_exp_fold (logits ls : list F) (M s : F) (pol : gmap Z F)
    (legal : list Z) :
  mapM (index logits) legal = Some ls →
  ∃ pol', expand_exp logits M s pol legal
          = Some (foldl (λ s x, fadd s (fexp (fsub x M))) s ls, pol').
Proof.
  revert s pol ls. induction legal as [|a rest IH]; intros s pol ls Hls.
  - cbn in Hls. injection Hls as <-. by eexists.
  - cbn [mapM] in Hls. cbn [expand_exp].
    destruct (index logits a) as [x|]; [|done]. cbn in Hls |- *.
    destruct (mapM _ rest) as [ls'|] eqn:Hrest; [|done].
    cbn in Hls. injection Hls as <-. cbn [foldl]. by apply IH.
Qed.

Lemma mapM_index_is_Some (logits : list F) (legal : list Z) :
  is_Some (mapM (index logits) legal)
  ↔ Forall (λ a, 0 ≤ a < Z.of_nat (length logits)) legal.
Proof.
  induction legal as [|a rest IH]; cbn [mapM].
  - split; [constructor | eauto].
  - rewrite Forall_cons, <- index_is_Some, <- IH.
    destruct (index logits a) as [x|]; cbn;
      [|split; [by intros [? ?] | by intros [[? ?] _]]].
    destruct (mapM _ rest) as [ls|]; cbn.
    + split; eauto.
    + split; [by intros [? ?] | by intros [_ [? ?]]].
Qed.

Lemma expand_children_is_Some (this : addr) (policy : gmap Z F) (psum : F)
    (j : nat) (legal : list Z) (h : heap F) (ch : gmap Z addr) :
  is_Some (expand_children this policy psum j legal h ch)
  ↔ ∀ a, a ∈ legal → is_Some (policy !! a).
Proof.
  revert j h ch. induction legal as [|a rest IH]; intros j h ch;
    cbn [expand_children].
  - split; [by intros _ a Ha%elem_of_nil | eauto].
  - destruct (policy !! a) as [p|] eqn:Hp; cbn.
    + rewrite IH. split.
      * intros Hall b [->|Hb]%elem_of_cons; [by rewrite Hp | by apply Hall].
      * intros Hall b Hb. apply Hall, elem_of_cons. by right.
    + split; [by intros [? ?]|]. intros Hall.
      destruct (Hall a) as [p Hq]; [apply elem_of_cons; by left | congruence].
Qed.

(** the entries of the heap and of the child map that the third loop does
    not write *)
Lemma expand_children_other (this : addr) (policy : gmap Z F) (psum : F)
    (j : nat) (legal : list Z) (h h' : heap F) (ch ch' : gmap Z addr) :
  expand_children this policy psum j legal h ch = Some (h', ch') →
  (∀ a, a ∉ legal → ch' !! a = ch !! a)
  ∧ (∀ b, (∀ i, (i < length legal)%nat → b ≠ new_addr this (j + i)) →
          h' !! b = h !! b).
Proof.
  revert j h ch. induction legal as [|a rest IH]; intros j h ch Hrun.
  - cbn in Hrun. by injection Hrun as <- <-.
  - cbn [expand_children] in Hrun.
    destruct (policy !! a) as [p|]; [|done]. cbn in Hrun.
    apply IH in Hrun as [Hch Hh]. split.
    + intros b Hb. rewrite elem_of_cons in Hb.
      rewrite Hch by tauto. apply lookup_insert_ne. intros ->. tauto.
    + intros b Hb. rewrite Hh.
      * apply lookup_insert_ne. intros <-.
        apply (Hb 0%nat); [cbn; lia | by rewrite Nat.add_0_r].
      * intros i Hi. replace (S j + i)%nat with (j + S i)%nat by lia.
        apply Hb. cbn. lia.
Qed.

(** every legal action gets a child that is a fresh node with the prior
    [policy[a] / policy_sum] *)
Lemma expand_children_child (this : addr) (policy : gmap Z F) (psum : F)
    (j : nat) (legal : list Z) (h h' : heap F) (ch ch' : gmap Z addr) :
  (∀ i i', new_addr this i = new_addr this i' → i = i') →
  expand_children this policy psum j legal h ch = Some (h', ch') →
  ∀ a, a ∈ legal →
    ∃ c p i, policy !! a = Some p ∧ ch' !! a = Some c
             ∧ c = new_addr this i
             ∧ h' !! c = Some (CNode_new (fdiv p psum) []).
Proof.
  intros Hinj. revert j h ch.
  induction legal as [|b rest IH]; intros j h ch Hrun a Ha;
    [by apply elem_of_nil in Ha|].
  cbn [expand_children] in Hrun.
  destruct (policy !! b) as [p|] eqn:Hp; [|done]. cbn in Hrun.
  destruct (decide (a ∈ rest)) as [Hin|Hnin]; [by eapply IH|].
  apply elem_of_cons in Ha as [->|Ha]; [|done].
  apply expand_children_other in Hrun as [Hch Hh].
  exists (new_addr this j), p, j. split; [done|].
  rewrite (Hch _ Hnin), lookup_insert_eq. split; [done|]. split; [done|].
  rewrite Hh; [apply lookup_insert_eq|].
  intros i _ Heq. apply Hinj in Heq. lia.
Qed.
End ExpandFacts.

(** X4.  [expand] runs to its end exactly when every legal action of the
    node (or, for a node without legal actions, every index of the logits)
    indexes inside [policy_logits]; otherwise it reads the vector out of
    range. *)
Theorem expand_defined_iff_legal_in_range {F} `{FO : FloatOps F}
    `{U : Utils F} `{AL : Allocator} (h : heap F) (this : addr)
    (n : CNode F) (tp cli bi : Z) (vp : F) (policy_logits : list F) :
  h !! this = Some n →
  is_Some (expand h this tp cli bi vp policy_logits)
  ↔ Forall (λ a, 0 ≤ a < Z.of_nat (length policy_logits))
      (default_legal_actions n (Z.of_nat (length policy_logits))).
Proof.
  intros Hn. unfold expand. rewrite Hn. cbn.
  set (legal := default_legal_actions _ _).
  rewrite <- (expand_max_is_Some policy_logits FLOAT_MIN legal).
  destruct (expand_max _ _ _) as [pm|] eqn:Hmax; cbn;
    [|split; by intros [? ?]].
  assert (Hall : Forall (λ a, 0 ≤ a < Z.of_nat (length policy_logits)) legal)
    by (apply (expand_max_is_Some policy_logits FLOAT_MIN); eauto).
  destruct (proj2 (expand_exp_is_Some policy_logits pm fzero ∅ legal) Hall)
    as [[ps pol] Hexp].
  rewrite Hexp. cbn.
  destruct (proj2 (expand_children_is_Some this pol ps 0 legal h (children n)))
    as [[h1 ch] Hch].
  { intros a Ha. rewrite (expand_exp_policy _ _ _ _ _ _ _ Hexp a).
    rewrite decide_True by done.
    rewrite Forall_forall in Hall.
    destruct (proj2 (index_is_Some policy_logits a) (Hall a Ha)) as [x ->].
    by eexists. }
  rewrite Hch. cbn. split; eauto.
Qed.

Lemma expand_defined_iff_legal_in_range_witness :
  is_Some (expand (U := Rat.utils) (AL := Rat.alloc)
             {[ 1%positive := CNode_new (Rat.Fin 0) [2] ]} 1%positive (-1) 0 0
             (Rat.Fin 0) [Rat.Fin 0; Rat.Fin 0])
  ↔ Forall (λ a, 0 ≤ a < 2) [2].
Proof.
  apply (expand_defined_iff_legal_in_range (U := Rat.utils) (AL := Rat.alloc)
           {[ 1%positive := CNode_new (Rat.Fin 0) [2] ]} 1%positive
           (CNode_new (Rat.Fin 0) [2]) (-1) 0 0 (Rat.Fin 0)
           [Rat.Fin 0; Rat.Fin 0]).
  reflexivity.
Defined.

(** X5.  [expand] gives every legal action a child that is a new node
    (no visit, no value, no children, no legal actions) whose prior is the
    softmax of its logit over the logits of the legal actions:
    [exp(l_a - M) / S], with [M] the running maximum from [FLOAT_MIN] and
    [S] the running sum of the exponentials, a legal action listed twice
    counting twice in [S].  The allocator returns distinct addresses, none
    of them the node's own. *)
Theorem expand_children_softmax_priors {F} `{FO : FloatOps F}
    `{U : Utils F} `{AL : Allocator} (h : heap F) (this : addr)
    (n : CNode F) (tp cli bi : Z) (vp : F) (policy_logits ls : list F) :
  h !! this = Some n →
  mapM (index policy_logits)
    (default_legal_actions n (Z.of_nat (length policy_logits))) = Some ls →
  (∀ i i', new_addr this i = new_addr this i' → i = i') →
  (∀ i, new_addr this i ≠ this) →
  ∃ h' n',
    expand h this tp cli bi vp policy_logits = Some h'
    ∧ h' !! this = Some n'
    ∧ ∀ a x, a ∈ legal_actions n' → index policy_logits a = Some x →
        ∃ c, children n' !! a = Some c
             ∧ h' !! c = Some (CNode_new (softmax ls x) []).
Proof.
  intros Hn Hls Hinj Hself. unfold expand. rewrite Hn. cbn.
  set (legal := default_legal_actions _ _) in *.
  rewrite (expand_max_fold _ _ _ _ Hls). cbn.
  destruct (expand_exp_fold policy_logits ls (running_max ls) fzero ∅ legal Hls)
    as [pol Hexp].
  unfold running_max in Hexp |- *. rewrite Hexp. cbn.
  destruct (expand_children this pol _ 0 legal h (children n))
    as [[h1 ch]|] eqn:Hch.
  2:{ exfalso. apply eq_None_not_Some in Hch. apply Hch.
      apply expand_children_is_Some. intros a Ha.
      rewrite (expand_exp_policy _ _ _ _ _ _ _ Hexp a), decide_True by done.
      assert (Hall : is_Some (mapM (index policy_logits) legal)) by eauto.
      rewrite mapM_index_is_Some, Forall_forall in Hall.
      destruct (proj2 (index_is_Some policy_logits a) (Hall a Ha)) as [x ->].
      by eexists. }
  cbn. eexists _, _. split; [done|]. split; [apply lookup_insert_eq|].
  cbn. intros a x Ha Hx.
  destruct (expand_children_child _ _ _ _ _ _ _ _ _ Hinj Hch a Ha)
    as (c & p & i & Hp & Hc & -> & Hnode).
  exists (new_addr this i). split; [done|].
  rewrite lookup_insert_ne by (intros Heq; by apply (Hself i)).
  rewrite Hnode. do 2 f_equal.
  rewrite (expand_exp_policy _ _ _ _ _ _ _ Hexp a), decide_True, Hx in Hp
    by done.
  cbn in Hp. injection Hp as <-. reflexivity.
Qed.

Lemma expand_children_softmax_priors_witness :
  ∃ h' n',
    expand (U := Rat.utils) (AL := Rat.alloc)
      {[ 1%positive := CNode_new (Rat.Fin 0) [] ]} 1%positive (-1) 0 0
      (Rat.Fin 0) [Rat.Fin 0; Rat.Fin 0] = Some h'
    ∧ h' !! 1%positive = Some n'
    ∧ ∀ a x, a ∈ legal_actions n' →
        index [Rat.Fin 0; Rat.Fin 0] a = Some x →
        ∃ c, children n' !! a = Some c
             ∧ h' !! c
               = Some (CNode_new
                         (softmax (U := Rat.utils) [Rat.Fin 0; Rat.Fin 0] x) []).
Proof.
  apply (expand_children_softmax_priors (U := Rat.utils) (AL := Rat.alloc)
           {[ 1%positive := CNode_new (Rat.Fin 0) [] ]} 1%positive
           (CNode_new (Rat.Fin 0) [])).
  - reflexivity.
  - reflexivity.
  - intros i i' Heq. cbn [new_addr Rat.alloc] in Heq. lia.
  - intros i. cbn [new_addr Rat.alloc]. lia.
Defined.

Section ExpandShape.
Context {F : Type} `{FO : FloatOps F} `{U : Utils F} `{AL : Allocator}.

Lemma expand_lookup_this (h h' : heap F) (this : addr) (n : CNode F)
    (tp cli bi : Z) (vp : F) (policy_logits : list F) :
  h !! this = Some n →
  expand h this tp cli bi vp policy_logits = Some h' →
  ∃ ch, h' !! this
        = Some (set_children
                  (set_expand_fields n tp cli bi vp
                     (default_legal_actions n
                        (Z.of_nat (length policy_logits)))) ch).
Proof.
  intros Hn Hrun. unfold expand in Hrun. rewrite Hn in Hrun. cbn in Hrun.
  destruct (expand_max _ _ _) as [pm|]; [|done]. cbn in Hrun.
  destruct (expand_exp _ _ _ _ _) as [[ps pol]|]; [|done]. cbn in Hrun.
  destruct (expand_children _ _ _ _ _ _ _) as [[h1 ch]|]; [|done].
  cbn in Hrun. injection Hrun as <-. exists ch. apply lookup_insert_eq.
Qed.

Lemma expand_lookup_other (h h' : heap F) (this : addr)
    (tp cli bi : Z) (vp : F) (policy_logits : list F) (b : addr) :
  expand h this tp cli bi vp policy_logits = Some h' →
  b ≠ this →
  (∀ j, b ≠ new_addr this j) →
  h' !! b = h !! b.
Proof.
  intros Hrun Hthis Hnew. unfold expand in Hrun.
  destruct (h !! this) as [n|]; [|done]. cbn in Hrun.
  destruct (expand_max _ _ _) as [pm|]; [|done]. cbn in Hrun.
  destruct (expand_exp _ _ _ _ _) as [[ps pol]|]; [|done]. cbn in Hrun.
  destruct (expand_children _ _ _ _ _ _ _) as [[h1 ch]|] eqn:Hch; [|done].
  cbn in Hrun. injection Hrun as <-.
  rewrite lookup_insert_ne by done.
  apply expand_children_other in Hch as [_ Hh]. apply Hh. intros i _.
  apply Hnew.
Qed.
End ExpandShape.

(** X6.  When a node without legal actions and without children is
    expanded, its legal actions become [0 .. action_num - 1], and
    [get_child] finds the child of each of them: the key is below
    [children.size()]. *)
Theorem expand_dense_children_found {F} `{FO : FloatOps F} `{U : Utils F}
    `{AL : Allocator} (h h' : heap F) (this : addr) (n : CNode F)
    (tp cli bi : Z) (vp : F) (policy_logits : list F) :
  h !! this = Some n →
  legal_actions n = [] →
  children n = ∅ →
  Z.of_nat (length policy_logits) < 2 ^ 31 →
  expand h this tp cli bi vp policy_logits = Some h' →
  ∃ n', h' !! this = Some n'
    ∧ legal_actions n' = seqZ 0 (Z.of_nat (length policy_logits))
    ∧ ∀ a, a ∈ legal_actions n' → is_Some (get_child n' (u64 a)).
Proof.
  intros Hn Hlegal Hch Hlen Hrun.
  destruct (expand_node _ _ _ _ _ _ _ _ _ Hn Hrun) as (n' & Hn' & Hl & Hdom).
  unfold default_legal_actions in Hl. rewrite Hlegal in Hl. cbn in Hl.
  exists n'. split; [done|]. split; [done|]. intros a Ha.
  rewrite Hch, dom_empty_L, (left_id_L ∅ (∪)), Hl in Hdom.
  rewrite Hl in Ha. pose proof Ha as Hr. apply elem_of_seqZ in Hr.
  rewrite u64_small by lia. unfold get_child.
  rewrite <- size_dom, Hdom, size_list_to_set by apply NoDup_seqZ.
  rewrite length_seqZ, Z2Nat.id by lia.
  destruct (Z.leb_spec (Z.of_nat (length policy_logits)) a); [lia|].
  apply elem_of_dom. rewrite Hdom. by apply elem_of_list_to_set.
Qed.

Lemma expand_dense_children_found_witness :
  ∃ h', expand (U := Rat.utils) (AL := Rat.alloc)
          {[ 1%positive := CNode_new (Rat.Fin 0) [] ]} 1%positive (-1) 0 0
          (Rat.Fin 0) [Rat.Fin 0; Rat.Fin 0] = Some h'
    ∧ ∃ n', h' !! 1%positive = Some n'
      ∧ legal_actions n' = seqZ 0 2
      ∧ ∀ a, a ∈ legal_actions n' → is_Some (get_child n' (u64 a)).
Proof.
  eexists. split; [vm_compute; reflexivity|].
  apply (expand_dense_children_found (U := Rat.utils) (AL := Rat.alloc)
           {[ 1%positive := CNode_new (Rat.Fin 0) [] ]} _ 1%positive
           (CNode_new (Rat.Fin 0) []) (-1) 0 0 (Rat.Fin 0)
           [Rat.Fin 0; Rat.Fin 0]).
  - reflexivity.
  - reflexivity.
  - reflexivity.
  - reflexivity.
  - vm_compute. reflexivity.
Defined.

(** X7.  After [expand] the node is still not expanded exactly when there
    was nothing to expand: it had no children and no legal actions, and
    [policy_logits] is empty. *)
Theorem expand_unexpanded_iff_nothing_to_expand {F} `{FO : FloatOps F}
    `{U : Utils F} `{AL : Allocator} (h h' : heap F) (this : addr)
    (n : CNode F) (tp cli bi : Z) (vp : F) (policy_logits : list F) :
  h !! this = Some n →
  expand h this tp cli bi vp policy_logits = Some h' →
  ∃ n', h' !! this = Some n'
    ∧ (expanded n' = false
       ↔ children n = ∅ ∧ legal_actions n = [] ∧ policy_logits = []).
Proof.
  intros Hn Hrun.
  destruct (expand_node _ _ _ _ _ _ _ _ _ Hn Hrun) as (n' & Hn' & Hl & Hdom).
  exists n'. split; [done|]. unfold expanded.
  rewrite bool_decide_eq_false.
  assert (¬ 0 < Z.of_nat (size (children n')) ↔ children n' = ∅) as ->.
  { rewrite <- map_size_empty_iff. lia. }
  rewrite <- dom_empty_iff_L, Hdom, empty_union_L, dom_empty_iff_L, Hl.
  unfold default_legal_actions.
  destruct (legal_actions n) as [|a l] eqn:Hlegal; cbn.
  - destruct policy_logits as [|x xs]; cbn [length].
    + change (seqZ 0 (Z.of_nat 0)) with (@nil Z). rewrite list_to_set_nil.
      tauto.
    + rewrite seqZ_cons by lia. rewrite ?list_to_set_cons.
      split; [|by intros (_ & _ & ?)].
      intros [_ Hset]. exfalso.
      assert (H0 : (0 : Z) ∈ ({[0]} ∪ list_to_set
                (seqZ (Z.succ 0) (Z.pred (Z.of_nat (S (length xs)))))
                : gset Z)) by (apply elem_of_union_l; by apply elem_of_singleton).
      rewrite Hset in H0. by apply not_elem_of_empty in H0.
  - rewrite ?list_to_set_cons. split; [|by intros (_ & ? & _)].
    intros [_ Hset]. exfalso.
    assert (H0 : a ∈ ({[a]} ∪ list_to_set l : gset Z))
      by (apply elem_of_union_l; by apply elem_of_singleton).
    rewrite Hset in H0. by apply not_elem_of_empty in H0.
Qed.

Lemma expand_unexpanded_iff_nothing_to_expand_witness :
  ∃ n', ({[ 1%positive :=
              mkCNode (Rat.Fin 0) [] 0 0 (Rat.Fin 0) [-1; -1; -1; -1] (-1)
                (Rat.Fin 0) (Rat.Fin 0) 0 0 ∅ ]} : heap Rat.num)
        !! 1%positive = Some n'
    ∧ (expanded n' = false
       ↔ children (CNode_new (Rat.Fin 0) []) = ∅
         ∧ legal_actions (CNode_new (Rat.Fin 0) []) = []
         ∧ ([] : list Rat.num) = []).
Proof.
  apply (expand_unexpanded_iff_nothing_to_expand (U := Rat.utils)
           (AL := Rat.alloc) {[ 1%positive := CNode_new (Rat.Fin 0) [] ]} _
           1%positive (CNode_new (Rat.Fin 0) []) (-1) 0 0 (Rat.Fin 0) []).
  - reflexivity.
  - vm_compute. reflexivity.
Defined.

(** X8.  [expand] leaves the visit statistics alone: every other node of
    the heap is untouched, and the node itself keeps its prior, visit
    count, value sum, reset flag, best action and parent value prefix,
    while [to_play], the two latent-state indices and [value_prefix] take
    the arguments.  The allocator returns addresses that are not in use. *)
Theorem expand_keeps_visit_statistics {F} `{FO : FloatOps F} `{U : Utils F}
    `{AL : Allocator} (h h' : heap F) (this : addr) (n : CNode F)
    (tp cli bi : Z) (vp : F) (policy_logits : list F) :
  h !! this = Some n →
  (∀ j, new_addr this j ∉ dom h) →
  expand h this tp cli bi vp policy_logits = Some h' →
  (∀ b m, b ≠ this → h !! b = Some m → h' !! b = Some m)
  ∧ ∃ n', h' !! this = Some n'
      ∧ to_play n' = tp ∧ current_latent_state_index n' = cli
      ∧ batch_index n' = bi ∧ value_prefix n' = vp
      ∧ prior n' = prior n ∧ visit_count n' = visit_count n
      ∧ value_sum n' = value_sum n ∧ is_reset n' = is_reset n
      ∧ best_action n' = best_action n
      ∧ parent_value_prefix n' = parent_value_prefix n.
Proof.
  intros Hn Hfresh Hrun. split.
  - intros b m Hb Hm.
    rewrite (expand_lookup_other _ _ _ _ _ _ _ _ _ Hrun Hb); [done|].
    intros j ->. apply (Hfresh j), elem_of_dom. eauto.
  - destruct (expand_lookup_this _ _ _ _ _ _ _ _ _ Hn Hrun) as [ch Hn'].
    eexists. split; [exact Hn'|]. cbn. by repeat split.
Qed.

Lemma expand_keeps_visit_statistics_witness :
  ∃ h', expand (U := Rat.utils) (AL := Pair.beyond) Pair.tree1 17%positive
          (-1) 1 0 (Rat.Fin 3) [Rat.Fin 0; Rat.Fin 0] = Some h'
    ∧ (∀ b m, b ≠ 17%positive → Pair.tree1 !! b = Some m → h' !! b = Some m)
    ∧ ∃ n', h' !! 17%positive = Some n'
        ∧ to_play n' = -1 ∧ current_latent_state_index n' = 1
        ∧ batch_index n' = 0 ∧ value_prefix n' = Rat.Fin 3
        ∧ prior n' = prior Pair.unvisited_child
        ∧ visit_count n' = visit_count Pair.unvisited_child
        ∧ value_sum n' = value_sum Pair.unvisited_child
        ∧ is_reset n' = is_reset Pair.unvisited_child
        ∧ best_action n' = best_action Pair.unvisited_child
        ∧ parent_value_prefix n' = parent_value_prefix Pair.unvisited_child.
Proof.
  eexists. split; [vm_compute; reflexivity|].
  apply (expand_keeps_visit_statistics (U := Rat.utils) (AL := Pair.beyond)
           Pair.tree1 _ 17%positive Pair.unvisited_child (-1) 1 0 (Rat.Fin 3)
           [Rat.Fin 0; Rat.Fin 0]).
  - reflexivity.
  - intros j. unfold Pair.tree1. cbn [new_addr Pair.beyond].
    rewrite !dom_insert_L, !dom_singleton_L. set_unfold. lia.
  - vm_compute. reflexivity.
Defined.

(** ** Heaps related node by node *)

Section HeapRel.
Context {F : Type} (R : CNode F → CNode F → Prop).

Lemma heap_rel_refl (h : heap F) : Reflexive R → heap_rel R h h.
Proof. intros HR a. by destruct (h !! a); constructor. Qed.

Lemma heap_rel_trans (h1 h2 h3 : heap F) :
  Transitive R → heap_rel R h1 h2 → heap_rel R h2 h3 → heap_rel R h1 h3.
Proof.
  intros HR H12 H23 a. specialize (H12 a). specialize (H23 a).
  destruct H12 as [n1 n2 Hn|]; inversion H23; subst; constructor.
  by etrans.
Qed.

Lemma heap_rel_insert (h : heap F) (a : addr) (n n' : CNode F) :
  Reflexive R → h !! a = Some n → R n n' → heap_rel R h (<[a := n']> h).
Proof.
  intros HR Hn Hnn b. destruct (decide (a = b)) as [<-|Hne].
  - rewrite lookup_insert_eq, Hn. by constructor.
  - rewrite lookup_insert_ne by done. by destruct (h !! b); constructor.
Qed.

Lemma heap_rel_lookup (h h' : heap F) (a : addr) (n : CNode F) :
  heap_rel R h h' → h !! a = Some n → ∃ n', h' !! a = Some n' ∧ R n n'.
Proof.
  intros Hrel Hn. specialize (Hrel a). rewrite Hn in Hrel.
  inversion Hrel; subst. eauto.
Qed.

Lemma heap_rel_lookup_r (h h' : heap F) (a : addr) (n' : CNode F) :
  heap_rel R h h' → h' !! a = Some n' → ∃ n, h !! a = Some n ∧ R n n'.
Proof.
  intros Hrel Hn. specialize (Hrel a). rewrite Hn in Hrel.
  inversion Hrel; subst. eauto.
Qed.

Lemma heap_rel_dom (h h' : heap F) : heap_rel R h h' → dom h' = dom h.
Proof.
  intros Hrel. apply set_eq. intros a. rewrite !elem_of_dom.
  specialize (Hrel a). inversion Hrel; split; intros [? ?]; eauto; congruence.
Qed.
End HeapRel.

(** ** [CNode::add_exploration_noise] *)

#[local] Instance same_but_prior_refl {F} : Reflexive (@same_but_prior F).
Proof. by intros []. Qed.

#[local] Instance same_but_prior_trans {F} : Transitive (@same_but_prior F).
Proof.
  intros n1 n2 n3 H1 H2. unfold same_but_prior in *. rewrite H2, H1. reflexivity.
Qed.

Section NoiseFacts.
Context {F : Type} `{FO : FloatOps F}.

Lemma add_noise_loop_rel (n : CNode F) (w : F) (noises : list F)
    (legal : list Z) (i : nat) (h h' : heap F) :
  add_noise_loop n w noises i legal h = Some h' →
  heap_rel same_but_prior h h'.
Proof.
  revert i h. induction legal as [|a rest IH]; intros i h Hrun.
  - cbn in Hrun. injection Hrun as <-. apply heap_rel_refl, _.
  - cbn [add_noise_loop] in Hrun.
    destruct (noises !! i) as [noise|]; [|done]. cbn in Hrun.
    destruct (get_child n (u64 a)) as [c|]; [|done]. cbn in Hrun.
    destruct (h !! c) as [child|] eqn:Hc; [|done]. cbn in Hrun.
    eapply heap_rel_trans; [apply _ | | by eapply IH].
    eapply heap_rel_insert; [apply _ | done | done].
Qed.

Lemma add_noise_loop_short (n : CNode F) (w : F) (noises : list F)
    (legal : list Z) (i : nat) (h : heap F) :
  (i ≤ length noises < i + length legal)%nat →
  add_noise_loop n w noises i legal h = None.
Proof.
  revert i h. induction legal as [|a rest IH]; intros i h Hlen.
  - cbn in Hlen. lia.
  - cbn [add_noise_loop]. cbn [length] in Hlen.
    destruct (noises !! i) as [noise|] eqn:Hi; [|done]. cbn.
    destruct (get_child n (u64 a)) as [c|]; [|done]. cbn.
    destruct (h !! c) as [child|]; [|done]. cbn.
    apply IH. apply lookup_lt_Some in Hi. lia.
Qed.

(** the nodes that the loop does not reach keep their entry *)
Lemma add_noise_loop_other (n : CNode F) (w : F) (noises : list F)
    (legal : list Z) (cs : list addr) (i : nat) (h h' : heap F) (b : addr) :
  mapM (λ a, get_child n (u64 a)) legal = Some cs →
  add_noise_loop n w noises i legal h = Some h' →
  b ∉ cs →
  h' !! b = h !! b.
Proof.
  revert i h cs. induction legal as [|a rest IH]; intros i h cs Hcs Hrun Hb.
  - cbn in Hrun. by injection Hrun as <-.
  - cbn [mapM] in Hcs. cbn [add_noise_loop] in Hrun.
    destruct (noises !! i) as [noise|]; [|done]. cbn in Hrun.
    destruct (get_child n (u64 a)) as [c|]; [|done]. cbn in Hcs, Hrun.
    destruct (mapM _ rest) as [cs'|] eqn:Hrest; [|done].
    cbn in Hcs. injection Hcs as <-.
    destruct (h !! c) as [child|]; [|done]. cbn in Hrun.
    apply not_elem_of_cons in Hb as [Hne Hb].
    rewrite (IH _ _ cs' eq_refl Hrun Hb). by apply lookup_insert_ne.
Qed.

Lemma add_noise_loop_prior (n : CNode F) (w : F) (noises : list F)
    (legal : list Z) (cs : list addr) (i : nat) (h h' : heap F) :
  mapM (λ a, get_child n (u64 a)) legal = Some cs →
  NoDup cs →
  add_noise_loop n w noises i legal h = Some h' →
  ∀ k c z child,
    cs !! k = Some c → noises !! (i + k)%nat = Some z →
    h !! c = Some child →
    h' !! c = Some (set_prior child (noised w z (prior child))).
Proof.
  revert i h cs. induction legal as [|a rest IH];
    intros i h cs Hcs Hnd Hrun k c z child Hk Hz Hc.
  - cbn in Hcs. injection Hcs as <-. done.
  - cbn [mapM] in Hcs. cbn [add_noise_loop] in Hrun.
    destruct (noises !! i) as [noise|] eqn:Hi; [|done]. cbn in Hrun.
    destruct (get_child n (u64 a)) as [c0|]; [|done]. cbn in Hcs, Hrun.
    destruct (mapM _ rest) as [cs'|] eqn:Hrest; [|done].
    cbn in Hcs. injection Hcs as <-.
    destruct (h !! c0) as [child0|] eqn:Hc0; [|done]. cbn in Hrun.
    apply NoDup_cons in Hnd as [Hnin Hnd].
    destruct k as [|k]; cbn in Hk.
    + injection Hk as ->. rewrite Nat.add_0_r, Hi in Hz. injection Hz as ->.
      rewrite Hc in Hc0. injection Hc0 as <-.
      rewrite (add_noise_loop_other _ _ _ _ _ _ _ _ _ Hrest Hrun Hnin).
      apply lookup_insert_eq.
    + eapply (IH _ _ cs' eq_refl Hnd Hrun k c z child Hk).
      * by replace (S i + k)%nat with (i + S k)%nat by lia.
      * rewrite lookup_insert_ne; [done|]. intros ->.
        apply Hnin. by eapply list_elem_of_lookup_2.
Qed.
End NoiseFacts.

(** X9.  [add_exploration_noise] reads [noises[i]] for every position [i]
    of the legal actions: with fewer noises than legal actions it reads the
    vector out of range. *)
Theorem add_exploration_noise_short_noises {F} `{FO : FloatOps F}
    (h : heap F) (this : addr) (n : CNode F) (w : F) (noises : list F) :
  h !! this = Some n →
  (length noises < length (legal_actions n))%nat →
  add_exploration_noise h this w noises = None.
Proof.
  intros Hn Hlen. unfold add_exploration_noise. rewrite Hn. cbn.
  apply add_noise_loop_short. lia.
Qed.

Lemma add_exploration_noise_short_noises_witness :
  add_exploration_noise Pair.tree1 1%positive (Rat.Fin (1 # 4))
    [Rat.Fin (1 # 2)] = None.
Proof.
  apply (add_exploration_noise_short_noises Pair.tree1 1%positive Pair.root1).
  - reflexivity.
  - cbn. lia.
Defined.

(** X10.  [add_exploration_noise] changes priors and nothing else: the heap
    keeps its addresses, and every node keeps every field but [prior]. *)
Theorem add_exploration_noise_only_priors {F} `{FO : FloatOps F}
    (h h' : heap F) (this : addr) (w : F) (noises : list F) :
  add_exploration_noise h this w noises = Some h' →
  dom h' = dom h
  ∧ ∀ a n', h' !! a = Some n' →
      ∃ n, h !! a = Some n ∧ n' = set_prior n (prior n').
Proof.
  intros Hrun. unfold add_exploration_noise in Hrun.
  destruct (h !! this) as [n|]; [|done]. cbn in Hrun.
  apply add_noise_loop_rel in Hrun. split; [by eapply heap_rel_dom|].
  intros a n' Hn'.
  exact (heap_rel_lookup_r same_but_prior _ _ _ _ Hrun Hn').
Qed.

Lemma add_exploration_noise_only_priors_witness :
  ∃ h', add_exploration_noise Pair.tree1 1%positive (Rat.Fin (1 # 4))
          [Rat.Fin 1; Rat.Fin 0] = Some h'
    ∧ dom h' = dom Pair.tree1
    ∧ ∀ a n', h' !! a = Some n' →
        ∃ n, Pair.tree1 !! a = Some n ∧ n' = set_prior n (prior n').
Proof.
  eexists. split; [vm_compute; reflexivity|].
  apply (add_exploration_noise_only_priors Pair.tree1 _ 1%positive
           (Rat.Fin (1 # 4)) [Rat.Fin 1; Rat.Fin 0]).
  vm_compute. reflexivity.
Defined.

(** X11.  When the children of the legal actions are pairwise distinct
    nodes, [add_exploration_noise] replaces the prior [p] of the child of
    the [k]-th legal action by
    [p * (1 - exploration_fraction) + noises[k] * exploration_fraction]. *)
Theorem add_exploration_noise_priors {F} `{FO : FloatOps F}
    (h h' : heap F) (this : addr) (n : CNode F) (w : F) (noises : list F)
    (cs : list addr) :
  h !! this = Some n →
  mapM (λ a, get_child n (u64 a)) (legal_actions n) = Some cs →
  NoDup cs →
  add_exploration_noise h this w noises = Some h' →
  ∀ k c z child,
    cs !! k = Some c → noises !! k = Some z → h !! c = Some child →
    h' !! c = Some (set_prior child (noised w z (prior child))).
Proof.
  intros Hn Hcs Hnd Hrun. unfold add_exploration_noise in Hrun.
  rewrite Hn in Hrun. cbn in Hrun. intros k c z child Hk Hz Hc.
  by eapply (add_noise_loop_prior _ _ _ _ _ 0 _ _ Hcs Hnd Hrun).
Qed.

Lemma add_exploration_noise_priors_witness :
  ∃ h', add_exploration_noise Pair.tree1 1%positive (Rat.Fin (1 # 4))
          [Rat.Fin 1; Rat.Fin 0] = Some h'
    ∧ ∀ k c z child,
        [17%positive; 18%positive] !! k = Some c →
        [Rat.Fin 1; Rat.Fin 0] !! k = Some z →
        Pair.tree1 !! c = Some child →
        h' !! c
        = Some (set_prior child (noised (Rat.Fin (1 # 4)) z (prior child))).
Proof.
  eexists. split; [vm_compute; reflexivity|].
  apply (add_exploration_noise_priors Pair.tree1 _ 1%positive Pair.root1
           (Rat.Fin (1 # 4)) [Rat.Fin 1; Rat.Fin 0]
           [17%positive; 18%positive]).
  - reflexivity.
  - reflexivity.
  - apply (bool_decide_unpack _). vm_compute. exact I.
  - vm_compute. reflexivity.
Defined.

(** ** [cbackpropagate] *)

#[local] Instance same_but_visits_refl {F} : Reflexive (@same_but_visits F).
Proof. by intros []. Qed.

#[local] Instance same_but_visits_trans {F} : Transitive (@same_but_visits F).
Proof.
  intros n1 n2 n3 H1 H2. unfold same_but_visits in *. rewrite H2, H1. reflexivity.
Qed.

Lemma occurrences_snoc (a b : addr) (path : list addr) :
  occurrences a (path ++ [b])
  = occurrences a path + (if decide (b = a) then 1 else 0).
Proof.
  unfold occurrences. rewrite filter_app, length_app, filter_cons, filter_nil.
  destruct (decide (b = a)); cbn; lia.
Qed.

Lemma occurrences_zero (a : addr) (path : list addr) :
  a ∉ path → occurrences a path = 0.
Proof.
  intros Ha. unfold occurrences.
  induction path as [|b rest IH]; [done|].
  apply not_elem_of_cons in Ha as [Hne Ha].
  rewrite filter_cons, decide_False by done. by apply IH.
Qed.

Lemma occurrences_one (a : addr) (path : list addr) :
  NoDup path → a ∈ path → occurrences a path = 1.
Proof.
  intros Hnd Ha. induction path as [|b rest IH];
    [by apply elem_of_nil in Ha|].
  apply NoDup_cons in Hnd as [Hb Hnd]. unfold occurrences in *.
  rewrite filter_cons. apply elem_of_cons in Ha as [->|Ha].
  - rewrite decide_True by done. cbn [length].
    pose proof (occurrences_zero _ _ Hb) as H0. unfold occurrences in H0. lia.
  - rewrite decide_False by (intros ->; done). by apply IH.
Qed.

Section BackpropFacts.
Context {F : Type} `{FO : FloatOps F} {St : Type} `{MM : MinMaxStats F St}.

Lemma backprop_effect_step (path : list addr) (i : nat) (a0 : addr)
    (node : CNode F) (x : F) (h h' : heap F) :
  path !! i = Some a0 →
  h !! a0 = Some node →
  backprop_effect (take i path)
    (<[a0 := incr_visit_count (add_value_sum node x)]> h) h' →
  backprop_effect (take (S i) path) h h'.
Proof.
  intros Hi Hnode Heff a n Hn.
  rewrite (take_S_r _ _ _ Hi).
  destruct (decide (a0 = a)) as [<-|Hne].
  - destruct (Heff a0 _ (lookup_insert_eq _ _ _)) as (n' & Hn' & Hs & Hv & Hu).
    rewrite Hnode in Hn. injection Hn as <-.
    exists n'. split; [done|]. split; [|split].
    + etrans; [|exact Hs]. by destruct node.
    + rewrite occurrences_snoc, decide_True by done. cbn in Hv. lia.
    + intros Hnin. exfalso. apply Hnin, elem_of_app. right.
      by apply list_elem_of_singleton.
  - destruct (Heff a n) as (n' & Hn' & Hs & Hv & Hu);
      [by rewrite lookup_insert_ne|].
    exists n'. split; [done|]. split; [done|]. split.
    + rewrite occurrences_snoc, decide_False by done. lia.
    + intros Hnin. apply Hu. intros Hin. apply Hnin, elem_of_app. by left.
Qed.

Lemma backprop_effect_nil (h : heap F) : backprop_effect [] h h.
Proof.
  intros a n Hn. exists n. split; [done|]. split; [done|].
  unfold occurrences. cbn. split; [lia | done].
Qed.

Lemma backprop_single_effect (path : list addr) (γ : F) (k : nat)
    (h h' : heap F) (stats stats' : St) (bv : F) :
  backprop_single path γ k h stats bv = Some (h', stats') →
  backprop_effect (take k path) h h'.
Proof.
  revert h stats bv. induction k as [|i IH]; intros h stats bv Hrun.
  - cbn in Hrun. injection Hrun as <- <-. apply backprop_effect_nil.
  - cbn [backprop_single] in Hrun.
    destruct (path !! i) as [a|] eqn:Hi; [|done]. cbn in Hrun.
    destruct (h !! a) as [node|] eqn:Ha; [|done]. cbn in Hrun.
    destruct (parent_info _ _ _) as [[pvp r]|]; [|done]. cbn in Hrun.
    eapply backprop_effect_step; [done | done | by eapply IH].
Qed.

Lemma backprop_two_effect (path : list addr) (tp : Z) (γ : F) (k : nat)
    (h h' : heap F) (stats stats' : St) (bv : F) :
  backprop_two path tp γ k h stats bv = Some (h', stats') →
  backprop_effect (take k path) h h'.
Proof.
  revert h stats bv. induction k as [|i IH]; intros h stats bv Hrun.
  - cbn in Hrun. injection Hrun as <- <-. apply backprop_effect_nil.
  - cbn [backprop_two] in Hrun.
    destruct (path !! i) as [a|] eqn:Hi; [|done]. cbn in Hrun.
    destruct (h !! a) as [node|] eqn:Ha; [|done]. cbn in Hrun.
    destruct (parent_info _ _ _) as [[pvp r]|]; [|done]. cbn in Hrun.
    eapply backprop_effect_step; [done | done | by eapply IH].
Qed.

Lemma cbackpropagate_effect (h h' : heap F) (path : list addr)
    (stats stats' : St) (tp : Z) (v γ : F) :
  cbackpropagate h path stats tp v γ = Some (h', stats') →
  backprop_effect path h h'.
Proof.
  unfold cbackpropagate. destruct (_ || _); [|done].
  intros Hrun. rewrite <- (firstn_all path).
  destruct (tp =? -1);
    [by eapply backprop_single_effect | by eapply backprop_two_effect].
Qed.

Lemma parent_info_is_Some (h : heap F) (path : list addr) (i : nat) :
  (i ≤ length path)%nat →
  Forall (λ a, a ∈ dom h) (take i path) →
  is_Some (parent_info h path i).
Proof.
  intros Hi Hall. destruct i as [|i]; cbn; [eauto|].
  destruct (lookup_lt_is_Some_2 path i ltac:(lia)) as [pa Hpa].
  rewrite Hpa. cbn. rewrite Forall_forall in Hall.
  assert (Hin : pa ∈ dom h).
  { apply Hall. apply list_elem_of_lookup. exists i.
    rewrite lookup_take_lt by lia. done. }
  apply elem_of_dom in Hin as [parent ->]. cbn. eauto.
Qed.

Lemma backprop_single_is_Some (path : list addr) (γ : F) (k : nat)
    (h : heap F) (stats : St) (bv : F) :
  (k ≤ length path)%nat →
  is_Some (backprop_single path γ k h stats bv)
  ↔ Forall (λ a, a ∈ dom h) (take k path).
Proof.
  revert h stats bv. induction k as [|i IH]; intros h stats bv Hk.
  - cbn. split; [constructor | eauto].
  - cbn [backprop_single].
    destruct (lookup_lt_is_Some_2 path i ltac:(lia)) as [a Ha].
    rewrite Ha, (take_S_r _ _ _ Ha), Forall_app, Forall_singleton. cbn.
    destruct (h !! a) as [node|] eqn:Hnode; cbn.
    2:{ split; [by intros [? ?]|]. intros [_ [? ?]%elem_of_dom]. congruence. }
    set (h1 := <[a := _]> h).
    assert (Hdom : dom h1 = dom h)
      by (apply dom_insert_present, elem_of_dom; eauto).
    split.
    + intros Hsome.
      destruct (parent_info h1 path i) as [[pvp r]|]; [|by destruct Hsome].
      cbn in Hsome. apply IH in Hsome; [|lia]. rewrite Hdom in Hsome.
      split; [done | apply elem_of_dom; eauto].
    + intros [Hall _].
      destruct (parent_info_is_Some h1 path i ltac:(lia)) as [[pvp r] ->];
        [by rewrite Hdom|].
      cbn. apply IH; [lia | by rewrite Hdom].
Qed.

Lemma backprop_two_is_Some (path : list addr) (tp : Z) (γ : F) (k : nat)
    (h : heap F) (stats : St) (bv : F) :
  (k ≤ length path)%nat →
  is_Some (backprop_two path tp γ k h stats bv)
  ↔ Forall (λ a, a ∈ dom h) (take k path).
Proof.
  revert h stats bv. induction k as [|i IH]; intros h stats bv Hk.
  - cbn. split; [constructor | eauto].
  - cbn [backprop_two].
    destruct (lookup_lt_is_Some_2 path i ltac:(lia)) as [a Ha].
    rewrite Ha, (take_S_r _ _ _ Ha), Forall_app, Forall_singleton. cbn.
    destruct (h !! a) as [node|] eqn:Hnode; cbn.
    2:{ split; [by intros [? ?]|]. intros [_ [? ?]%elem_of_dom]. congruence. }
    set (h1 := <[a := _]> h).
    assert (Hdom : dom h1 = dom h)
      by (apply dom_insert_present, elem_of_dom; eauto).
    split.
    + intros Hsome.
      destruct (parent_info h1 path i) as [[pvp r]|]; [|by destruct Hsome].
      cbn in Hsome. apply IH in Hsome; [|lia]. rewrite Hdom in Hsome.
      split; [done | apply elem_of_dom; eauto].
    + intros [Hall _].
      destruct (parent_info_is_Some h1 path i ltac:(lia)) as [[pvp r] ->];
        [by rewrite Hdom|].
      cbn. apply IH; [lia | by rewrite Hdom].
Qed.
End BackpropFacts.

(** X12.  [cbackpropagate] runs to its end exactly when [to_play] is [-1],
    [1] or [2] (its [assert]) and every pointer of the search path is a
    node of the heap; the empty path is accepted. *)
Theorem cbackpropagate_defined_iff {F} `{FO : FloatOps F} {St : Type}
    `{MM : MinMaxStats F St} (h : heap F) (path : list addr) (stats : St)
    (tp : Z) (v γ : F) :
  is_Some (cbackpropagate h path stats tp v γ)
  ↔ (tp = -1 ∨ tp = 1 ∨ tp = 2) ∧ Forall (λ a, a ∈ dom h) path.
Proof.
  unfold cbackpropagate.
  destruct (Z.eqb_spec tp (-1)) as [->|H1]; cbn [orb].
  - rewrite backprop_single_is_Some, firstn_all by done. tauto.
  - destruct (Z.eqb_spec tp 1) as [->|H2]; cbn [orb].
    + rewrite backprop_two_is_Some, firstn_all by done. intuition lia.
    + destruct (Z.eqb_spec tp 2) as [->|H3].
      * rewrite backprop_two_is_Some, firstn_all by done. intuition lia.
      * split; [by intros [? ?] | intros [? _]; lia].
Qed.

(** X13.  [cbackpropagate] adds to the visit count of every node of the heap
    the number of times the node occurs on the search path (one for a node
    of a path without repetition, none off the path); a node off the path
    is untouched, a node on it changes in [visit_count] and [value_sum]
    only, and no node is added or removed. *)
Theorem cbackpropagate_counts_visits {F} `{FO : FloatOps F} {St : Type}
    `{MM : MinMaxStats F St} (h h' : heap F) (path : list addr)
    (stats stats' : St) (tp : Z) (v γ : F) :
  cbackpropagate h path stats tp v γ = Some (h', stats') →
  dom h' = dom h
  ∧ ∀ a n, h !! a = Some n →
      ∃ n', h' !! a = Some n'
        ∧ same_but_visits n n'
        ∧ visit_count n' = visit_count n + occurrences a path
        ∧ (a ∉ path → n' = n)
        ∧ (NoDup path → a ∈ path → visit_count n' = visit_count n + 1).
Proof.
  intros Hrun. split; [by eapply cbackpropagate_dom|].
  intros a n Hn.
  destruct (cbackpropagate_effect _ _ _ _ _ _ _ _ Hrun a n Hn)
    as (n' & Hn' & Hs & Hv & Hu).
  exists n'. repeat split; try done.
  intros Hnd Ha. by rewrite Hv, (occurrences_one _ _ Hnd Ha).
Qed.

Lemma cbackpropagate_counts_visits_witness :
  ∃ h' stats',
    cbackpropagate Reset.h [1%positive; 2%positive] Example.no_stats (-1)
      (Rat.Fin 0) (Rat.Fin 1) = Some (h', stats')
    ∧ dom h' = dom Reset.h
    ∧ ∀ a n, Reset.h !! a = Some n →
        ∃ n', h' !! a = Some n'
          ∧ same_but_visits n n'
          ∧ visit_count n' = visit_count n
                             + occurrences a [1%positive; 2%positive]
          ∧ (a ∉ [1%positive; 2%positive] → n' = n)
          ∧ (NoDup [1%positive; 2%positive] → a ∈ [1%positive; 2%positive] →
             visit_count n' = visit_count n + 1).
Proof.
  eexists _, _. split; [vm_compute; reflexivity|].
  eapply (cbackpropagate_counts_visits Reset.h _ [1%positive; 2%positive]
            Example.no_stats _ (-1) (Rat.Fin 0) (Rat.Fin 1)).
  vm_compute. reflexivity.
Defined.

(** ** [cbatch_traverse] *)

#[local] Instance same_but_best_action_refl {F} :
  Reflexive (@same_but_best_action F).
Proof. by intros []. Qed.

#[local] Instance same_but_best_action_trans {F} : Transitive (@same_but_best_action F).
Proof.
  intros n1 n2 n3 H1 H2. unfold same_but_best_action in *. rewrite H2, H1. reflexivity.
Qed.

Lemma same_but_best_action_expanded {F} (n n' : CNode F) :
  same_but_best_action n n' → expanded n' = expanded n.
Proof. intros ->. done. Qed.

Lemma child_of_rel {F} (h h' : heap F) (a c : addr) :
  heap_rel same_but_best_action h h' → child_of h a c ↔ child_of h' a c.
Proof.
  intros Hrel. split; intros (n & k & Hn & Hk).
  - destruct (heap_rel_lookup _ _ _ _ _ Hrel Hn) as (n' & Hn' & Heq).
    exists n', k. split; [done|]. by rewrite Heq.
  - destruct (heap_rel_lookup_r _ _ _ _ _ Hrel Hn) as (n0 & Hn0 & Heq).
    exists n0, k. split; [done|]. by rewrite Heq in Hk.
Qed.

Lemma chain_snoc {F} (h : heap F) (path : list addr) (a c : addr) :
  chain h path → last path = Some a → child_of h a c → chain h (path ++ [c]).
Proof.
  intros Hch Hlast Hc i x y Hx Hy.
  destruct (decide (S i < length path)%nat) as [Hlt|Hge].
  - rewrite lookup_app_l in Hx by lia. rewrite lookup_app_l in Hy by lia.
    by eapply Hch.
  - assert (Hi : S i = length path).
    { apply lookup_lt_Some in Hy. rewrite length_app in Hy. cbn in Hy. lia. }
    rewrite lookup_app_l in Hx by lia.
    rewrite lookup_app_r, Hi, Nat.sub_diag in Hy by lia.
    cbn in Hy. injection Hy as <-.
    rewrite last_lookup in Hlast.
    replace (pred (length path)) with i in Hlast by lia.
    rewrite Hx in Hlast. by injection Hlast as ->.
Qed.

Lemma chain_rank {F} (h : heap F) (rank : addr → nat) (path : list addr) :
  (∀ a b, child_of h a b → (rank a < rank b)%nat) →
  chain h path →
  ∀ i j a b, (i < j)%nat → path !! i = Some a → path !! j = Some b →
    (rank a < rank b)%nat.
Proof.
  intros Hrank Hch i j. induction j as [|j IH]; intros a b Hij Ha Hb; [lia|].
  destruct (lookup_lt_is_Some_2 path j) as [c Hc];
    [apply lookup_lt_Some in Hb; lia|].
  pose proof (Hrank _ _ (Hch _ _ _ Hc Hb)) as Hcb.
  destruct (decide (i = j)) as [->|Hne].
  - rewrite Ha in Hc. by injection Hc as ->.
  - pose proof (IH a c ltac:(lia) Ha Hc). lia.
Qed.

Lemma chain_NoDup {F} (h : heap F) (path : list addr) :
  acyclic h → chain h path → NoDup path.
Proof.
  intros [rank Hrank] Hch. apply NoDup_alt. intros i j a Hi Hj.
  destruct (Nat.lt_trichotomy i j) as [Hlt|[->|Hlt]]; [|done|].
  - pose proof (chain_rank _ _ _ Hrank Hch _ _ _ _ Hlt Hi Hj). lia.
  - pose proof (chain_rank _ _ _ Hrank Hch _ _ _ _ Hlt Hj Hi). lia.
Qed.

Lemma flipped_succ (k v : Z) : flipped (k + 1) v = 3 - flipped k v.
Proof.
  unfold flipped. rewrite Z.even_add. change (Z.even 1) with false.
  destruct (Z.even k); cbn; lia.
Qed.

Lemma flip_to_play_two (players vtp vtp' : Z) :
  1 < players →
  flip_to_play players vtp = Some vtp' →
  (vtp = 1 ∨ vtp = 2) ∧ vtp' = 3 - vtp.
Proof.
  intros Hp. unfold flip_to_play.
  destruct (Z.ltb_spec 1 players); [|lia].
  destruct (Z.eqb_spec vtp 1) as [->|H1]; cbn [orb]; [intros [= <-]; lia|].
  destruct (Z.eqb_spec vtp 2) as [->|H2]; [intros [= <-]; lia | done].
Qed.

Lemma flip_to_play_one (players vtp vtp' : Z) :
  players ≤ 1 →
  flip_to_play players vtp = Some vtp' →
  vtp' = vtp.
Proof.
  intros Hp. unfold flip_to_play.
  destruct (Z.ltb_spec 1 players); [lia|]. by intros [= <-].
Qed.

Section TraverseFacts.
Context {F : Type} `{FO : FloatOps F} `{K : Consts} `{U : Utils F}
        {St : Type} `{MM : MinMaxStats F St}.

Lemma traverse_loop_unfold (fuel : nat) (stats : St) (base : Z) (init γ : F)
    (players : Z) (rand : nat → Z) (h : heap F) (w : Walk F) :
  traverse_loop fuel stats base init γ players rand h w
  = (n ← h !! w_node w;
     if expanded n then
       match fuel with
       | O => None
       | S fuel' =>
           mean_q ← compute_mean_q h n (w_is_root w) (w_parent_q w) γ;
           '(actions, rng) ←
              cselect_child h n stats base init γ mean_q players rand
                (w_rng w);
           vtp ← flip_to_play players (w_vtp w);
           let h := <[w_node w := set_best_action n actions]> h in
           c ← get_child_vec n actions;
           traverse_loop fuel' stats base init γ players rand h
             (mkWalk c 0 mean_q vtp rng (w_path w ++ [c])
                (record_last_actions (w_last w) actions) (w_len w + 1))
       end
     else Some (h, w)).
Proof. by destruct fuel. Qed.

End TraverseFacts.

Section TraverseSteps.
Context {F : Type} `{FO : FloatOps F} `{K : Consts} `{U : Utils F}
        {St : Type} `{MM : MinMaxStats F St}.
Variables (stats : St) (base : Z) (init γ : F) (players : Z) (rand : nat → Z).

(** a property kept by every turn of the loop holds when the loop ends,
    and the loop ends on a node that is not expanded *)
Lemma traverse_loop_steps (P : heap F → Walk F → Prop) (fuel : nat)
    (h h' : heap F) (w w' : Walk F) :
  (∀ h w h' w',
     P h w → walk_step stats base init γ players rand h w h' w' → P h' w') →
  P h w →
  traverse_loop fuel stats base init γ players rand h w = Some (h', w') →
  P h' w' ∧ ∃ n, h' !! w_node w' = Some n ∧ expanded n = false.
Proof.
  intros Hstep. revert h w. induction fuel as [|fuel IH]; intros h w HP Hrun;
    rewrite traverse_loop_unfold in Hrun;
    destruct (h !! w_node w) as [n|] eqn:Hn; try done; cbn in Hrun;
    destruct (expanded n) eqn:Hex; try done;
    try (injection Hrun as <- <-; split; [done | by exists n]).
  destruct (compute_mean_q _ _ _ _ _) as [mq|] eqn:Hmq; [|done]. cbn in Hrun.
  destruct (cselect_child _ _ _ _ _ _ _ _ _ _) as [[actions rng]|] eqn:Hsel;
    [|done].
  cbn in Hrun. destruct (flip_to_play _ _) as [vtp|] eqn:Hflip; [|done].
  cbn in Hrun. destruct (get_child_vec n actions) as [c|] eqn:Hc; [|done].
  cbn in Hrun. eapply IH; [|exact Hrun].
  eapply Hstep; [exact HP|]. by exists n, mq, actions, rng, vtp, c.
Qed.

(** the loop makes at least one turn from an expanded node, and none from
    another one *)
Lemma traverse_loop_first (fuel : nat) (h h' : heap F) (w w' : Walk F)
    (n : CNode F) :
  h !! w_node w = Some n →
  traverse_loop fuel stats base init γ players rand h w = Some (h', w') →
  if expanded n
  then ∃ h1 w1 fuel',
         walk_step stats base init γ players rand h w h1 w1
         ∧ traverse_loop fuel' stats base init γ players rand h1 w1
           = Some (h', w')
  else h' = h ∧ w' = w.
Proof.
  intros Hn Hrun. rewrite traverse_loop_unfold, Hn in Hrun. cbn in Hrun.
  destruct (expanded n) eqn:Hex; [|by injection Hrun as <- <-].
  destruct fuel as [|fuel]; [done|].
  destruct (compute_mean_q _ _ _ _ _) as [mq|] eqn:Hmq; [|done]. cbn in Hrun.
  destruct (cselect_child _ _ _ _ _ _ _ _ _ _) as [[actions rng]|] eqn:Hsel;
    [|done].
  cbn in Hrun. destruct (flip_to_play _ _) as [vtp|] eqn:Hflip; [|done].
  cbn in Hrun. destruct (get_child_vec n actions) as [c|] eqn:Hc; [|done].
  cbn in Hrun. eexists _, _, fuel. split; [|exact Hrun].
  by exists n, mq, actions, rng, vtp, c.
Qed.

Lemma walk_step_rel (h h' : heap F) (w w' : Walk F) :
  walk_step stats base init γ players rand h w h' w' →
  heap_rel same_but_best_action h h'.
Proof.
  intros (n & mq & actions & rng & vtp & c & Hn & _ & _ & _ & _ & _ & -> & _).
  eapply heap_rel_insert; [apply _ | done | done].
Qed.

Lemma walk_step_child (h h' : heap F) (w w' : Walk F) :
  walk_step stats base init γ players rand h w h' w' →
  child_of h (w_node w) (w_node w')
  ∧ w_path w' = w_path w ++ [w_node w']
  ∧ w_len w' = w_len w + 1.
Proof.
  intros (n & mq & actions & rng & vtp & c & Hn & _ & _ & _ & _ & Hc & _ & ->).
  cbn. split; [|done]. apply get_child_vec_children in Hc as [k Hk].
  by exists n, k.
Qed.

Lemma walk_step_flip (h h' : heap F) (w w' : Walk F) :
  walk_step stats base init γ players rand h w h' w' →
  flip_to_play players (w_vtp w) = Some (w_vtp w').
Proof.
  by intros (n & mq & actions & rng & vtp & c & _ & _ & _ & _ & ? & _ & _ & ->).
Qed.

(** what the loop keeps, relative to the state [h0], [w0] in which it is
    entered *)
Lemma traverse_loop_walk (fuel : nat) (h0 h' : heap F) (w0 w' : Walk F) :
  last (w_path w0) = Some (w_node w0) →
  chain h0 (w_path w0) →
  traverse_loop fuel stats base init γ players rand h0 w0 = Some (h', w') →
  heap_rel same_but_best_action h0 h'
  ∧ (∃ ext, w_path w' = w_path w0 ++ ext
            ∧ Z.of_nat (length ext) = w_len w' - w_len w0)
  ∧ last (w_path w') = Some (w_node w')
  ∧ chain h0 (w_path w')
  ∧ (1 < players →
     w_vtp w' = flipped (w_len w' - w_len w0) (w_vtp w0)
     ∧ (w_len w0 < w_len w' → w_vtp w0 = 1 ∨ w_vtp w0 = 2))
  ∧ (players ≤ 1 → w_vtp w' = w_vtp w0)
  ∧ ∃ n, h' !! w_node w' = Some n ∧ expanded n = false.
Proof.
  intros Hlast Hchain Hrun.
  pose (P := λ (h : heap F) (w : Walk F),
    heap_rel same_but_best_action h0 h
    ∧ (∃ ext, w_path w = w_path w0 ++ ext
              ∧ Z.of_nat (length ext) = w_len w - w_len w0)
    ∧ last (w_path w) = Some (w_node w)
    ∧ chain h0 (w_path w)
    ∧ (1 < players →
       w_vtp w = flipped (w_len w - w_len w0) (w_vtp w0)
       ∧ (w_len w0 < w_len w → w_vtp w0 = 1 ∨ w_vtp w0 = 2))
    ∧ (players ≤ 1 → w_vtp w = w_vtp w0)).
  destruct (traverse_loop_steps P fuel h0 h' w0 w') as [HP Hleaf];
    [| |exact Hrun|].
  - clear. intros h w h1 w1 (Hrel & (ext & Hext & Hlen) & Hlast & Hch & H2 & H1)
      Hstep.
    pose proof (walk_step_rel _ _ _ _ Hstep) as Hrel1.
    pose proof (walk_step_child _ _ _ _ Hstep) as (Hchild & Hpath & Hl).
    pose proof (walk_step_flip _ _ _ _ Hstep) as Hflip.
    split; [by eapply heap_rel_trans; [apply _| |]|].
    split.
    { exists (ext ++ [w_node w1]). rewrite Hpath, Hext, <- (assoc_L (++)).
      split; [done|]. rewrite length_app. cbn. lia. }
    split; [by rewrite Hpath, last_snoc|].
    split.
    { rewrite Hpath. eapply chain_snoc; [done | done |].
      by apply (child_of_rel _ _ _ _ Hrel). }
    split.
    + intros Hp. destruct (H2 Hp) as [Hv Hin].
      destruct (flip_to_play_two _ _ _ Hp Hflip) as [Hw ->].
      rewrite Hl. replace (w_len w + 1 - w_len w0)
        with (w_len w - w_len w0 + 1) by lia.
      rewrite flipped_succ, <- Hv. split; [done|]. intros _.
      destruct (decide (w_len w0 < w_len w)) as [Hlt|Hge]; [by apply Hin|].
      assert (w_len w - w_len w0 = 0) as Hz by lia.
      rewrite Hz in Hv. unfold flipped in Hv. cbn in Hv. by rewrite <- Hv.
    + intros Hp. rewrite (flip_to_play_one _ _ _ Hp Hflip). by apply H1.
  - split; [apply heap_rel_refl, _|].
    split; [exists []; rewrite (right_id_L [] (++)); split; [done | cbn; lia]|].
    split; [done|]. split; [done|]. split.
    + intros _. rewrite Z.sub_diag. split; [done | lia].
    + done.
  - destruct HP as (? & ? & ? & ? & ? & ?). done.
Qed.
End TraverseSteps.

Section TraverseRoot.
Context {F : Type} `{FO : FloatOps F} `{K : Consts} `{U : Utils F}
        {St : Type} `{MM : MinMaxStats F St}.

Lemma second_to_last_length {A} (l : list A) (x : A) :
  second_to_last l = Some x → (2 ≤ length l)%nat.
Proof.
  unfold second_to_last. destruct (Nat.leb_spec 2 (length l)); [lia | done].
Qed.

(** the traversal from one root *)
Lemma traverse_root_slot (fuel : nat) (stats : St) (base : Z) (init γ : F)
    (players : Z) (rand : nat → Z) (root : addr) (vtp : Z)
    (h h' : heap F) (sh sh' : Shared F) (slot : SearchSlot) :
  traverse_root fuel stats base init γ players rand root vtp h sh
  = Some (h', sh', slot) →
  heap_rel same_but_best_action h h'
  ∧ (∃ ext, search_path slot = root :: ext
            ∧ Z.of_nat (length ext) = search_len slot)
  ∧ 1 ≤ search_len slot
  ∧ last (search_path slot) = Some (leaf slot)
  ∧ chain h (search_path slot)
  ∧ (1 < players →
     (vtp = 1 ∨ vtp = 2)
     ∧ virtual_to_play slot = flipped (search_len slot) vtp)
  ∧ (players ≤ 1 → virtual_to_play slot = vtp)
  ∧ (∃ n, h' !! leaf slot = Some n ∧ expanded n = false)
  ∧ (∃ n, h !! root = Some n ∧ expanded n = true)
  ∧ ∃ pa parent,
      second_to_last (search_path slot) = Some pa
      ∧ h' !! pa = Some parent
      ∧ latent_state_index_in_search_path slot
        = current_latent_state_index parent
      ∧ latent_state_index_in_batch slot = batch_index parent.
Proof.
  intros Hrun. unfold traverse_root in Hrun.
  destruct (traverse_loop _ _ _ _ _ _ _ _ _) as [[h1 w]|] eqn:Hw; [|done].
  cbn in Hrun.
  destruct (second_to_last (w_path w)) as [pa|] eqn:Hpa; [|done].
  cbn in Hrun. destruct (h1 !! pa) as [parent|] eqn:Hparent; [|done].
  cbn in Hrun. injection Hrun as <- <- <-. cbn.
  pose proof Hw as Hwalk. apply traverse_loop_walk in Hwalk; cbn;
    [|done | by intros i a b Ha Hb].
  destruct Hwalk as (Hrel & (ext & Hext & Hlen) & Hlast & Hch & H2 & H1 & Hleaf).
  cbn in Hext, Hlen, H2, H1.
  apply second_to_last_length in Hpa as Hlen2.
  rewrite Hext in Hlen2. cbn in Hlen2.
  split; [done|]. split; [exists ext; split; [done | lia]|].
  split; [lia|]. split; [done|]. split; [done|]. split.
  { intros Hp. destruct (H2 Hp) as [Hv Hin].
    rewrite Z.sub_0_r in Hv. split; [apply Hin; lia | done]. }
  split; [done|]. split; [done|]. split.
  - rewrite traverse_loop_unfold in Hw. cbn in Hw.
    destruct (h !! root) as [n|] eqn:Hn; [|done]. cbn in Hw.
    exists n. split; [done|]. destruct (expanded n); [done|].
    injection Hw as <- <-. cbn in Hext.
    destruct ext; [cbn in Hlen2; lia | done].
  - by exists pa, parent.
Qed.

(** the traversals of a batch, one slot after the other *)
Lemma traverse_batch_slots (fuel : nat) (sl : list St) (base : Z)
    (init γ : F) (players : Z) (rand : nat → Z) (rts : list addr)
    (vtps : list Z) (ixs : list nat) (h h' : heap F) (sh sh' : Shared F)
    (slots : list SearchSlot) :
  traverse_batch fuel sl base init γ players rand rts vtps ixs h sh
  = Some (h', sh', slots) →
  heap_rel same_but_best_action h h'
  ∧ Forall2 (λ i slot,
      ∃ root stats vtp h1 sh1 h2 sh2,
        rts !! i = Some root ∧ sl !! i = Some stats ∧ vtps !! i = Some vtp
        ∧ heap_rel same_but_best_action h h1
        ∧ traverse_root fuel stats base init γ players rand root vtp h1 sh1
          = Some (h2, sh2, slot)
        ∧ heap_rel same_but_best_action h2 h') ixs slots.
Proof.
  revert h sh slots. induction ixs as [|i rest IH]; intros h sh slots Hrun.
  - cbn in Hrun. injection Hrun as <- <- <-.
    split; [apply heap_rel_refl, _ | constructor].
  - cbn [traverse_batch] in Hrun.
    destruct (rts !! i) as [root|] eqn:Hroot; [|done]. cbn in Hrun.
    destruct (sl !! i) as [stats|] eqn:Hstats; [|done]. cbn in Hrun.
    destruct (vtps !! i) as [vtp|] eqn:Hvtp; [|done]. cbn in Hrun.
    destruct (traverse_root _ _ _ _ _ _ _ _ _ _ _) as [[[h1 sh1] slot]|]
      eqn:Hr; [|done]. cbn in Hrun.
    destruct (traverse_batch _ _ _ _ _ _ _ _ _ _ _ _) as [[[h2 sh2] slots']|]
      eqn:Hb; [|done]. cbn in Hrun.
    injection Hrun as <- <- <-.
    apply IH in Hb as [Hrel2 Hall].
    pose proof (traverse_root_slot _ _ _ _ _ _ _ _ _ _ _ _ _ _ Hr)
      as (Hrel1 & _).
    split; [by eapply heap_rel_trans; [apply _| |]|].
    constructor.
    + exists root, stats, vtp, h, sh, h1, sh1.
      repeat split; try done. apply heap_rel_refl, _.
    + eapply Forall2_impl; [exact Hall|]. cbn.
      intros j slot' (root' & stats' & vtp' & ha & sha & hb & shb & ? & ? & ?
                      & Hrel & ? & ?).
      exists root', stats', vtp', ha, sha, hb, shb. repeat split; try done.
      by eapply heap_rel_trans; [apply _| |].
Qed.

(** the slot of the batch index [i] after [cbatch_traverse] *)
Lemma cbatch_traverse_slot (fuel : nat) (rand : nat → Z) (h h' : heap F)
    (R : CRoots) (base : Z) (init γ : F) (sl : list St) (rn : Z)
    (vtps vtps' : list Z) (res : CSearchResults) :
  cbatch_traverse fuel rand h R base init γ sl rn vtps
  = Some (h', res, vtps') →
  ∃ players,
    infer_players vtps = Some players
    ∧ heap_rel same_but_best_action h h'
    ∧ length (slots res) = Z.to_nat rn
    ∧ num res = rn
    ∧ vtps' = (virtual_to_play <$> slots res) ++ drop (Z.to_nat rn) vtps
    ∧ (Z.to_nat rn ≤ length vtps)%nat
    ∧ ∀ i, (i < Z.to_nat rn)%nat →
        ∃ slot root stats vtp h1 sh1 h2 sh2,
          slots res !! i = Some slot
          ∧ roots R !! i = Some root ∧ sl !! i = Some stats
          ∧ vtps !! i = Some vtp
          ∧ heap_rel same_but_best_action h h1
          ∧ traverse_root fuel stats base init γ players rand root vtp h1 sh1
            = Some (h2, sh2, slot)
          ∧ heap_rel same_but_best_action h2 h'.
Proof.
  intros Hrun. unfold cbatch_traverse in Hrun.
  destruct (Nat.leb_spec (Z.to_nat rn) (length vtps)) as [Hle|]; [|done].
  destruct (infer_players vtps) as [players|]; [|done]. cbn in Hrun.
  destruct (traverse_batch _ _ _ _ _ _ _ _ _ _ _ _) as [[[h1 sh] slots]|]
    eqn:Hb; [|done]. cbn in Hrun.
  injection Hrun as <- <- <-. cbn.
  apply traverse_batch_slots in Hb as [Hrel Hall].
  exists players. split; [done|]. split; [done|].
  pose proof (Forall2_length _ _ _ Hall) as Hlen. rewrite length_seq in Hlen.
  split; [done|]. split; [done|]. split; [done|]. split; [done|].
  intros i Hi.
  destruct (Forall2_lookup_l _ _ _ i i Hall) as (slot & Hslot & Hi');
    [by apply lookup_seq_lt|].
  destruct Hi' as (root & stats & vtp & ha & sha & hb & shb & ? & ? & ? & ?
                   & ? & ?).
  by exists slot, root, stats, vtp, ha, sha, hb, shb.
Qed.
End TraverseRoot.

(** X14.  [cbatch_traverse] needs every root of the batch expanded: from a
    root without children the loop is not entered, the search path holds
    the root alone, and [search_paths[i][size - 2]] is read out of range. *)
Theorem cbatch_traverse_unexpanded_root {F} `{FO : FloatOps F} `{K : Consts}
    `{U : Utils F} {St : Type} `{MM : MinMaxStats F St}
    (fuel : nat) (rand : nat → Z) (h : heap F) (R : CRoots) (base : Z)
    (init γ : F) (sl : list St) (rn : Z) (vtps : list Z) (i : nat)
    (root : addr) (n : CNode F) :
  (i < Z.to_nat rn)%nat →
  roots R !! i = Some root →
  h !! root = Some n →
  expanded n = false →
  cbatch_traverse fuel rand h R base init γ sl rn vtps = None.
Proof.
  intros Hi Hroot Hn Hex.
  destruct (cbatch_traverse _ _ _ _ _ _ _ _ _ _) as [[[h' res] vtps']|] eqn:Hrun;
    [exfalso|done].
  apply cbatch_traverse_slot in Hrun
    as (players & _ & _ & _ & _ & _ & _ & Hslots).
  destruct (Hslots i Hi) as (slot & root' & stats & vtp & h1 & sh1 & h2 & sh2
    & _ & Hroot' & _ & _ & Hrel & Hrun & _).
  rewrite Hroot in Hroot'. injection Hroot' as <-.
  apply traverse_root_slot in Hrun
    as (_ & _ & _ & _ & _ & _ & _ & _ & (n1 & Hn1 & Hex1) & _).
  destruct (heap_rel_lookup _ _ _ _ _ Hrel Hn) as (n1' & Hn1' & Hsame).
  rewrite Hn1 in Hn1'. injection Hn1' as <-.
  rewrite (same_but_best_action_expanded _ _ Hsame) in Hex1. congruence.
Qed.

Lemma cbatch_traverse_unexpanded_root_witness :
  cbatch_traverse (K := Rat.consts_1_2) 5 Pair.counting
    {[ 1%positive := CNode_new (Rat.Fin 0) [] ]} (mkCRoots 1 [1%positive])
    19652 (Rat.Fin (5 # 4)) (Rat.Fin 1) [Example.no_stats] 1 [-1] = None.
Proof.
  apply (cbatch_traverse_unexpanded_root (K := Rat.consts_1_2) 5 Pair.counting
           {[ 1%positive := CNode_new (Rat.Fin 0) [] ]}
           (mkCRoots 1 [1%positive]) 19652 (Rat.Fin (5 # 4)) (Rat.Fin 1)
           [Example.no_stats] 1 [-1] 0 1%positive (CNode_new (Rat.Fin 0) [])).
  - cbn. lia.
  - reflexivity.
  - reflexivity.
  - reflexivity.
Defined.

(** X15.  [cbatch_traverse] reads the entries [0 .. results.num - 1] of the
    roots, of the statistics and of [virtual_to_play_batch], and the largest
    element of the latter: it is undefined when one of them has fewer than
    [results.num] entries, and on an empty [virtual_to_play_batch] even for
    [results.num = 0]. *)
Theorem cbatch_traverse_reads_in_range {F} `{FO : FloatOps F} `{K : Consts}
    `{U : Utils F} {St : Type} `{MM : MinMaxStats F St}
    (fuel : nat) (rand : nat → Z) (h : heap F) (R : CRoots) (base : Z)
    (init γ : F) (sl : list St) (rn : Z) (vtps : list Z) :
  is_Some (cbatch_traverse fuel rand h R base init γ sl rn vtps) →
  vtps ≠ []
  ∧ (Z.to_nat rn ≤ length vtps)%nat
  ∧ (Z.to_nat rn ≤ length (roots R))%nat
  ∧ (Z.to_nat rn ≤ length sl)%nat.
Proof.
  intros [[[h' res] vtps'] Hrun].
  apply cbatch_traverse_slot in Hrun
    as (players & Hplayers & _ & _ & _ & _ & Hle & Hslots).
  split; [by intros ->|]. split; [done|].
  assert (Hall : ∀ i, (i < Z.to_nat rn)%nat →
            (i < length (roots R))%nat ∧ (i < length sl)%nat).
  { intros i Hi.
    destruct (Hslots i Hi) as (slot & root & stats & vtp & h1 & sh1 & h2 & sh2
      & _ & Hroot & Hstats & _).
    split; by eapply lookup_lt_Some. }
  destruct (Z.to_nat rn) as [|k]; [lia|].
  destruct (Hall k ltac:(lia)). lia.
Qed.

Lemma cbatch_traverse_reads_in_range_witness :
  [-1; -1] ≠ []
  ∧ (Z.to_nat 2 ≤ length ([-1; -1]%Z : list Z))%nat
  ∧ (Z.to_nat 2 ≤ length (roots Walked.both_roots))%nat
  ∧ (Z.to_nat 2 ≤ length [Example.no_stats; Example.no_stats])%nat.
Proof.
  apply (cbatch_traverse_reads_in_range (K := Rat.consts_1_2) 5 Pair.counting
           Walked.batch Walked.both_roots 19652 (Rat.Fin (5 # 4)) (Rat.Fin 1)
           [Example.no_stats; Example.no_stats] 2 [-1; -1]).
  vm_compute. eexists. reflexivity.
Defined.

(** X16.  [cbatch_traverse] writes [best_action] and nothing else: the heap
    keeps its addresses and every node keeps its prior, visit count, value
    sum, children and all other fields. *)
Theorem cbatch_traverse_only_best_actions {F} `{FO : FloatOps F}
    `{K : Consts} `{U : Utils F} {St : Type} `{MM : MinMaxStats F St}
    (fuel : nat) (rand : nat → Z) (h h' : heap F) (R : CRoots) (base : Z)
    (init γ : F) (sl : list St) (rn : Z) (vtps vtps' : list Z)
    (res : CSearchResults) :
  cbatch_traverse fuel rand h R base init γ sl rn vtps
  = Some (h', res, vtps') →
  dom h' = dom h
  ∧ ∀ a n', h' !! a = Some n' →
      ∃ n, h !! a = Some n ∧ n' = set_best_action n (best_action n').
Proof.
  intros Hrun.
  apply cbatch_traverse_slot in Hrun as (players & _ & Hrel & _).
  split; [by eapply heap_rel_dom|]. intros a n' Hn'.
  exact (heap_rel_lookup_r same_but_best_action _ _ _ _ Hrel Hn').
Qed.

Lemma cbatch_traverse_only_best_actions_witness :
  ∃ h' res vtps',
    Walked.traverse [-1; -1] = Some (h', res, vtps')
    ∧ dom h' = dom Walked.batch
    ∧ ∀ a n', h' !! a = Some n' →
        ∃ n, Walked.batch !! a = Some n
             ∧ n' = set_best_action n (best_action n').
Proof.
  eexists _, _, _. split; [vm_compute; reflexivity|].
  eapply (cbatch_traverse_only_best_actions (K := Rat.consts_1_2) 5
            Pair.counting Walked.batch _ Walked.both_roots 19652
            (Rat.Fin (5 # 4)) (Rat.Fin 1)
            [Example.no_stats; Example.no_stats] 2 [-1; -1]).
  vm_compute. reflexivity.
Defined.

(** X19.  In two-player mode every entry of [virtual_to_play_batch] below
    [results.num] must be [1] or [2]: a batch whose largest entry is not
    [-1] and that holds another value, [-1] included, fails the [assert]
    of the loop (or faults before it). *)
Theorem cbatch_traverse_mixed_batch {F} `{FO : FloatOps F} `{K : Consts}
    `{U : Utils F} {St : Type} `{MM : MinMaxStats F St}
    (fuel : nat) (rand : nat → Z) (h : heap F) (R : CRoots) (base : Z)
    (init γ : F) (sl : list St) (rn : Z) (vtps : list Z) (i : nat) (v : Z) :
  infer_players vtps = Some 2 →
  (i < Z.to_nat rn)%nat →
  vtps !! i = Some v →
  v ≠ 1 →
  v ≠ 2 →
  cbatch_traverse fuel rand h R base init γ sl rn vtps = None.
Proof.
  intros Hplayers Hi Hv H1 H2.
  destruct (cbatch_traverse _ _ _ _ _ _ _ _ _ _) as [[[h' res] vtps']|] eqn:Hrun;
    [exfalso|done].
  apply cbatch_traverse_slot in Hrun
    as (players & Hplayers' & _ & _ & _ & _ & _ & Hslots).
  rewrite Hplayers in Hplayers'. injection Hplayers' as <-.
  destruct (Hslots i Hi) as (slot & root & stats & vtp & h1 & sh1 & h2 & sh2
    & _ & _ & _ & Hvtp & _ & Hrun & _).
  rewrite Hv in Hvtp. injection Hvtp as <-.
  apply traverse_root_slot in Hrun as (_ & _ & _ & _ & _ & Hp & _).
  destruct (Hp ltac:(lia)) as [[?|?] _]; lia.
Qed.

Lemma cbatch_traverse_mixed_batch_witness :
  Walked.traverse [-1; 1] = None.
Proof.
  apply (cbatch_traverse_mixed_batch (K := Rat.consts_1_2) 5 Pair.counting
           Walked.batch Walked.both_roots 19652 (Rat.Fin (5 # 4)) (Rat.Fin 1)
           [Example.no_stats; Example.no_stats] 2 [-1; 1] 0 (-1)).
  - reflexivity.
  - cbn. lia.
  - reflexivity.
  - discriminate.
  - discriminate.
Defined.

(** X20.  In a heap without cycles no search path of [cbatch_traverse]
    visits a node twice. *)
Theorem cbatch_traverse_paths_without_repetition {F} `{FO : FloatOps F}
    `{K : Consts} `{U : Utils F} {St : Type} `{MM : MinMaxStats F St}
    (fuel : nat) (rand : nat → Z) (h h' : heap F) (R : CRoots) (base : Z)
    (init γ : F) (sl : list St) (rn : Z) (vtps vtps' : list Z)
    (res : CSearchResults) :
  acyclic h →
  cbatch_traverse fuel rand h R base init γ sl rn vtps
  = Some (h', res, vtps') →
  Forall (λ slot, NoDup (search_path slot)) (slots res).
Proof.
  intros Hacyc Hrun.
  apply cbatch_traverse_slot in Hrun
    as (players & _ & Hrel & Hlen & _ & _ & _ & Hslots).
  apply Forall_lookup. intros i slot Hslot.
  destruct (Hslots i) as (slot' & root & stats & vtp & h1 & sh1 & h2 & sh2
    & Hslot' & _ & _ & _ & Hrel1 & Hrun & _);
    [apply lookup_lt_Some in Hslot; lia|].
  rewrite Hslot in Hslot'. injection Hslot' as <-.
  apply traverse_root_slot in Hrun as (_ & _ & _ & _ & Hch & _).
  apply (chain_NoDup h); [done|].
  intros j a b Ha Hb. apply (child_of_rel _ _ _ _ Hrel1). by eapply Hch.
Qed.

Lemma acyclic_decide {F} (h : heap F) (rank : addr → nat) :
  map_Forall (λ a n, map_Forall (λ _ c, (rank a < rank c)%nat) (children n)) h →
  acyclic h.
Proof.
  intros Hall. exists rank. intros a b (n & k & Hn & Hk).
  exact (Hall a n Hn k b Hk).
Qed.

Lemma cbatch_traverse_paths_without_repetition_witness :
  ∃ h' res vtps',
    Walked.traverse [-1; -1] = Some (h', res, vtps')
    ∧ Forall (λ slot, NoDup (search_path slot)) (slots res).
Proof.
  eexists _, _, _. split; [vm_compute; reflexivity|].
  eapply (cbatch_traverse_paths_without_repetition (K := Rat.consts_1_2)
            5 Pair.counting Walked.batch _ Walked.both_roots 19652
            (Rat.Fin (5 # 4)) (Rat.Fin 1)
            [Example.no_stats; Example.no_stats] 2 [-1; -1]).
  - apply (acyclic_decide _ Pos.to_nat).
    apply (bool_decide_unpack _). vm_compute. exact I.
  - vm_compute. reflexivity.
Defined.

(** ** Termination of the traversal *)

Section Descend.
Context {F : Type} `{FO : FloatOps F} `{K : Consts} `{U : Utils F}
        {St : Type} `{MM : MinMaxStats F St}.
Hypothesis heads_pos : 0 < NUM_ACTION_HEADS.
Hypothesis actions_pos : 0 < ACTIONS_PER_PLAYER.
Hypothesis total_int : TOTAL_ACTIONS < 2 ^ 31.

Lemma descends_rel (h0 h : heap F) (n0 n : CNode F) :
  heap_rel same_but_best_action h0 h →
  same_but_best_action n0 n →
  descends h0 n0 → descends h n.
Proof using Type.
  intros Hrel Hn [Hkeys Hzero].
  assert (Hat : ∀ key, is_Some (child_at h0 n0 key) → is_Some (child_at h n key)).
  { intros key [child Hchild]. unfold child_at in *. rewrite Hn. 
    change (get_child (set_best_action n0 (best_action n)) key)
      with (get_child n0 key).
    destruct (get_child n0 key) as [c|]; [|done]. cbn in Hchild |- *.
    destruct (heap_rel_lookup _ _ _ _ _ Hrel Hchild) as (child' & -> & _).
    eauto. }
  split; [|by apply Hat].
  assert (Hk : mean_q_keys n = mean_q_keys n0) by (by rewrite Hn).
  rewrite Hk. eapply Forall_impl; [exact Hkeys|]. intros key. apply Hat.
Qed.

Lemma searchable_rel (h0 h : heap F) :
  heap_rel same_but_best_action h0 h → searchable h0 → searchable h.
Proof using Type.
  intros Hrel Hs a n Hn Hex.
  destruct (heap_rel_lookup_r _ _ _ _ _ Hrel Hn) as (n0 & Hn0 & Hsame).
  eapply descends_rel; [done | done |].
  apply (Hs a n0 Hn0). by rewrite <- (same_but_best_action_expanded _ _ Hsame).
Qed.

Lemma compute_mean_q_is_Some (h : heap F) (n : CNode F) (isRoot : Z)
    (parent_q γ : F) :
  Forall (λ key, is_Some (child_at h n (u64 key))) (mean_q_keys n) →
  is_Some (compute_mean_q h n isRoot parent_q γ).
Proof using Type.
  intros Hkeys.
  destruct (proj2 (mapM_is_Some (λ key, child_at h n (u64 key)) (mean_q_keys n))
              Hkeys) as [cs Hcs].
  unfold compute_mean_q.
  rewrite (mean_q_loop_views h n γ (mean_q_keys n) cs fzero 0 Hcs). cbn. eauto.
Qed.

Lemma legal_scores_is_Some (h : heap F) (n : CNode F) (stats : St)
    (base : Z) (init γ mean_q : F) (players : Z) :
  Forall (λ key, is_Some (child_at h n (u64 key))) (mean_q_keys n) →
  is_Some (legal_scores h n stats base init γ mean_q players).
Proof using heads_pos.
  intros Hkeys. unfold legal_scores. apply mapM_is_Some.
  apply Forall_forall. intros a Ha. cbn.
  rewrite Forall_forall in Hkeys.
  pose proof (Hkeys _ (mean_q_keys_head (F := F) n a heads_pos Ha)) as [child Hchild].
  rewrite Z.mul_0_l, Z.add_0_r in Hchild. unfold child_at in Hchild.
  unfold child_score.
  destruct (get_child n (u64 a)) as [c|]; [|done]. cbn in Hchild |- *.
  rewrite Hchild. cbn. eauto.
Qed.

(** the two shapes of the result of [cselect_child] *)
Lemma cselect_child_shape (h : heap F) (n : CNode F) (stats : St)
    (base : Z) (init γ mean_q : F) (players : Z) (rand : nat → Z)
    (rng : nat) :
  is_Some (legal_scores h n stats base init γ mean_q players) →
  ∃ res rng',
    cselect_child h n stats base init γ mean_q players rand rng
    = Some (res, rng')
    ∧ (res = vector_fill NUM_ACTION_HEADS (-1)
       ∨ ∃ a, a ∈ legal_actions n
              ∧ res = a :: vector_fill (NUM_ACTION_HEADS - 1) (-1)).
Proof using heads_pos.
  intros [scs Hscs]. unfold cselect_child.
  rewrite (select_loop_fold _ _ _ _ _ _ _ _ _ _ _ Hscs). cbn.
  destruct (select_fold (FLOAT_MIN, []) scs) as [M lst] eqn:Hfold.
  pose proof (select_fold_actions scs FLOAT_MIN M [] lst Hfold) as Hacts.
  destruct lst as [|a lst'].
  - cbn. eexists _, _. split; [done|]. by left.
  - destruct (index_mod (a :: lst') (rand rng)) as (b & Hb & Hin); [done|].
    rewrite Hb. cbn.
    rewrite (first_slot_heads _ heads_pos). cbn.
    eexists _, _. split; [done|]. right. exists b. split; [|done].
    destruct (Hacts b Hin) as [Hn|Hl]; [by apply elem_of_nil in Hn|].
    by rewrite (legal_scores_actions _ _ _ _ _ _ _ _ _ Hscs) in Hl.
Qed.

Lemma get_child_vec_fallback (n : CNode F) :
  get_child_vec n (vector_fill NUM_ACTION_HEADS (-1)) = get_child n 0.
Proof using All.
  unfold get_child_vec, get_child, vector_fill.
  rewrite length_replicate,
    (u64_heads heads_pos actions_pos total_int), Z2Nat.id by lia.
  rewrite Z.eqb_refl. cbn [negb]. unfold encode_action.
  rewrite (encode_from_negative heads_pos actions_pos total_int)
    by (apply Forall_replicate; lia).
  rewrite (u64_total heads_pos actions_pos total_int).
  pose proof (heads_le_total heads_pos actions_pos total_int).
  destruct (Z.ltb_spec 0 TOTAL_ACTIONS); [done | lia].
Qed.

Lemma get_child_vec_selected (n : CNode F) (a : Z) :
  get_child_vec n (a :: vector_fill (NUM_ACTION_HEADS - 1) (-1))
  = get_child n (if (0 <=? a) && (a <? ACTIONS_PER_PLAYER) then a else 0).
Proof using All.
  pose proof (heads_le_total heads_pos actions_pos total_int) as Hle.
  assert (ACTIONS_PER_PLAYER ≤ TOTAL_ACTIONS) by (unfold TOTAL_ACTIONS; nia).
  unfold get_child_vec, get_child, vector_fill.
  cbn [length]. rewrite length_replicate,
    (u64_heads heads_pos actions_pos total_int).
  replace (Z.of_nat (S (Z.to_nat (NUM_ACTION_HEADS - 1))))
    with NUM_ACTION_HEADS by lia.
  rewrite Z.eqb_refl. cbn [negb]. unfold encode_action. cbn [encode_from].
  rewrite (u64_heads heads_pos actions_pos total_int),
    (u64_total heads_pos actions_pos total_int).
  destruct (Z.ltb_spec 0 NUM_ACTION_HEADS); [|lia].
  rewrite (encode_from_negative heads_pos actions_pos total_int)
    by (apply Forall_replicate; lia).
  destruct (Z.leb_spec 0 a); cbn [andb].
  - destruct (Z.ltb_spec a ACTIONS_PER_PLAYER).
    + rewrite Z.mul_0_l, (u64_small 0), Z.add_0_r, Z.add_0_l by lia.
      rewrite !(u64_small a) by lia.
      destruct (Z.ltb_spec a TOTAL_ACTIONS); [done | lia].
    + destruct (Z.ltb_spec 0 TOTAL_ACTIONS); [done | lia].
  - destruct (Z.ltb_spec 0 TOTAL_ACTIONS); [done | lia].
Qed.

(** from a node that descends, the selected child is a node of the heap *)
Lemma descends_selected (h : heap F) (n : CNode F) (res : list Z) :
  descends h n →
  res = vector_fill NUM_ACTION_HEADS (-1)
  ∨ (∃ a, a ∈ legal_actions n
          ∧ res = a :: vector_fill (NUM_ACTION_HEADS - 1) (-1)) →
  ∃ c, get_child_vec n res = Some c ∧ is_Some (h !! c).
Proof using All.
  intros [Hkeys [c0 Hzero]] Hres.
  assert (Hfall : ∃ c, get_child n 0 = Some c ∧ is_Some (h !! c)).
  { unfold child_at in Hzero. destruct (get_child n 0) as [c|]; [|done].
    cbn in Hzero. exists c. eauto. }
  destruct Hres as [->|(a & Ha & ->)].
  - by rewrite get_child_vec_fallback.
  - rewrite get_child_vec_selected.
    destruct (Z.leb_spec 0 a); cbn [andb]; [|done].
    destruct (Z.ltb_spec a ACTIONS_PER_PLAYER); [|done].
    rewrite Forall_forall in Hkeys.
    pose proof (Hkeys _ (mean_q_keys_head (F := F) n a heads_pos Ha))
      as [child Hchild].
    rewrite Z.mul_0_l, Z.add_0_r, u64_small in Hchild
      by (pose proof (heads_le_total heads_pos actions_pos total_int);
          unfold TOTAL_ACTIONS in *; nia).
    unfold child_at in Hchild. destruct (get_child n a) as [c|]; [|done].
    cbn in Hchild. exists c. eauto.
Qed.

Variables (stats : St) (base : Z) (init γ : F) (players : Z) (rand : nat → Z).

(** a turn of the loop is possible from an expanded node that descends *)
Lemma walk_step_exists (h : heap F) (w : Walk F) (n : CNode F) :
  h !! w_node w = Some n →
  expanded n = true →
  descends h n →
  is_Some (flip_to_play players (w_vtp w)) →
  ∃ h' w', walk_step stats base init γ players rand h w h' w'
           ∧ w_node w' ∈ dom h.
Proof using All.
  intros Hn Hex Hd [vtp Hflip].
  destruct (compute_mean_q_is_Some h n (w_is_root w) (w_parent_q w) γ
              (proj1 Hd)) as [mq Hmq].
  destruct (cselect_child_shape h n stats base init γ mq players rand (w_rng w)
              (legal_scores_is_Some h n stats base init γ mq players (proj1 Hd)))
    as (res & rng & Hsel & Hshape).
  destruct (descends_selected h n res Hd Hshape) as (c & Hc & Hin).
  eexists _, _. split.
  - exists n, mq, res, rng, vtp, c. repeat split; done.
  - cbn. by apply elem_of_dom.
Qed.

Lemma traverse_loop_step (fuel : nat) (h h' : heap F) (w w' : Walk F) :
  walk_step stats base init γ players rand h w h' w' →
  traverse_loop (S fuel) stats base init γ players rand h w
  = traverse_loop fuel stats base init γ players rand h' w'.
Proof using Type.
  intros (n & mq & actions & rng & vtp & c & Hn & Hex & Hmq & Hsel & Hflip & Hc
          & -> & ->).
  rewrite traverse_loop_unfold, Hn. cbn. rewrite Hex, Hmq. cbn.
  rewrite Hsel. cbn. rewrite Hflip. cbn. rewrite Hc. done.
Qed.

Lemma path_length_bound (h : heap F) (path : list addr) :
  NoDup path → Forall (λ a, a ∈ dom h) path → (length path ≤ size h)%nat.
Proof using Type.
  intros Hnd Hall. rewrite <- size_dom.
  unfold size, set_size. cbn. apply submseteq_length, NoDup_submseteq; [done|].
  intros a Ha. apply elem_of_elements. rewrite Forall_forall in Hall. auto.
Qed.

(** with as much fuel as the heap has nodes the loop ends *)
Lemma traverse_loop_runs (h0 : heap F) (fuel : nat) (h : heap F)
    (w : Walk F) :
  searchable h0 → acyclic h0 →
  heap_rel same_but_best_action h0 h →
  last (w_path w) = Some (w_node w) →
  chain h0 (w_path w) →
  Forall (λ a, a ∈ dom h0) (w_path w) →
  (1 < players → w_vtp w = 1 ∨ w_vtp w = 2) →
  (size h0 ≤ fuel + length (w_path w))%nat →
  is_Some (traverse_loop fuel stats base init γ players rand h w).
Proof using All.
  intros Hs Hacyc. revert h w.
  induction fuel as [|fuel IH]; intros h w Hrel Hlast Hch Hall Hvtp Hfuel.
  all: assert (Hin : w_node w ∈ dom h0)
    by (rewrite Forall_forall in Hall; apply Hall;
        apply last_Some_elem_of in Hlast; done).
  all: apply elem_of_dom in Hin as [n0 Hn0].
  all: destruct (heap_rel_lookup _ _ _ _ _ Hrel Hn0) as (n & Hn & Hsame).
  all: destruct (expanded n) eqn:Hex;
    [|rewrite traverse_loop_unfold, Hn; cbn; rewrite Hex; eauto].
  all: assert (Hflip : is_Some (flip_to_play players (w_vtp w))).
  1,3: unfold flip_to_play; destruct (Z.ltb_spec 1 players); [|eauto];
       destruct (Hvtp ltac:(done)) as [->| ->]; cbn; eauto.
  all: destruct (walk_step_exists h w n Hn Hex
                   (searchable_rel _ _ Hrel Hs _ _ Hn Hex) Hflip)
         as (h1 & w1 & Hstep & Hc).
  all: pose proof (walk_step_rel _ _ _ _ _ _ _ _ _ _ Hstep) as Hrel1.
  all: pose proof (walk_step_child _ _ _ _ _ _ _ _ _ _ Hstep)
         as (Hchild & Hpath & _).
  all: pose proof (walk_step_flip _ _ _ _ _ _ _ _ _ _ Hstep) as Hflip1.
  all: assert (Hch1 : chain h0 (w_path w1))
    by (rewrite Hpath; eapply chain_snoc; [done | done |];
        by apply (child_of_rel _ _ _ _ Hrel)).
  all: assert (Hall1 : Forall (λ a, a ∈ dom h0) (w_path w1))
    by (rewrite Hpath; apply Forall_app; split; [done|];
        apply Forall_singleton; by rewrite <- (heap_rel_dom _ _ _ Hrel)).
  all: pose proof (path_length_bound h0 _ (chain_NoDup _ _ Hacyc Hch1) Hall1)
         as Hlen.
  all: rewrite Hpath, length_app in Hlen; cbn in Hlen.
  - lia.
  - rewrite (traverse_loop_step fuel _ _ _ _ Hstep). apply IH.
    + by eapply heap_rel_trans; [apply _| |].
    + by rewrite Hpath, last_snoc.
    + done.
    + done.
    + intros Hp. destruct (flip_to_play_two _ _ _ Hp Hflip1) as [[?|?] ->]; lia.
    + rewrite Hpath, length_app. cbn. lia.
Qed.
End Descend.

Section Runs.
Context {F : Type} `{FO : FloatOps F} `{K : Consts} `{U : Utils F}
        {St : Type} `{MM : MinMaxStats F St}.
Hypothesis heads_pos : 0 < NUM_ACTION_HEADS.
Hypothesis actions_pos : 0 < ACTIONS_PER_PLAYER.
Hypothesis total_int : TOTAL_ACTIONS < 2 ^ 31.
Variables (base : Z) (init γ : F) (players : Z) (rand : nat → Z).

(** the traversal from an expanded root ends and fills its slot *)
Lemma traverse_root_runs (h0 : heap F) (fuel : nat) (stats : St)
    (root : addr) (vtp : Z) (h : heap F) (sh : Shared F) (n0 : CNode F) :
  searchable h0 → acyclic h0 →
  heap_rel same_but_best_action h0 h →
  h0 !! root = Some n0 → expanded n0 = true →
  (1 < players → vtp = 1 ∨ vtp = 2) →
  (size h0 ≤ fuel)%nat →
  is_Some (traverse_root fuel stats base init γ players rand root vtp h sh).
Proof using All.
  intros Hs Hacyc Hrel Hn0 Hex Hvtp Hfuel. unfold traverse_root.
  destruct (traverse_loop_runs heads_pos actions_pos total_int stats base init
              γ players rand h0 fuel h
              (mkWalk root 1 (sh_parent_q sh) vtp (sh_rng sh) [root] [] 0))
    as [[h1 w] Hw]; cbn; try done.
  - apply Forall_singleton, elem_of_dom. eauto.
  - lia.
  - rewrite Hw. cbn.
    pose proof Hw as Hwalk. apply traverse_loop_walk in Hwalk; cbn;
      [|done | by intros i a b Ha Hb].
    destruct Hwalk as (Hrel1 & (ext & Hext & Hlen) & Hlast & Hch & _ & _
                       & (nl & Hnl & Hexl)).
    cbn in Hext.
    destruct (heap_rel_lookup _ _ _ _ _ Hrel Hn0) as (n & Hn & Hsame).
    destruct ext as [|c ext].
    { rewrite Hext in Hlast. cbn in Hlast. injection Hlast as Hroot.
      rewrite <- Hroot in Hnl.
      destruct (heap_rel_lookup _ _ _ _ _ Hrel1 Hn) as (n' & Hn' & Hsame').
      rewrite Hnl in Hn'. injection Hn' as <-.
      rewrite (same_but_best_action_expanded _ _ Hsame'),
        (same_but_best_action_expanded _ _ Hsame) in Hexl. congruence. }
    unfold second_to_last. rewrite Hext. cbn [length app].
    destruct (lookup_lt_is_Some_2 (root :: c :: ext) (length ext))
      as [pa Hpa]; [cbn; lia|].
    replace (S (S (length ext)) - 2)%nat with (length ext) by lia.
    change (2 <=? S (S (length ext)))%nat with true. cbv iota.
    rewrite Hpa. cbn.
    destruct (lookup_lt_is_Some_2 (root :: c :: ext) (S (length ext)))
      as [b Hb]; [cbn; lia|].
    rewrite Hext in Hch. destruct (Hch _ _ _ Hpa Hb) as (p & k & Hp & _).
    destruct (heap_rel_lookup _ _ _ _ _ Hrel1 Hp) as (p' & -> & _).
    cbn. eauto.
Qed.

Lemma traverse_batch_runs (h0 : heap F) (fuel : nat) (sl : list St)
    (rts : list addr) (vtps : list Z) (ixs : list nat) (h : heap F)
    (sh : Shared F) :
  searchable h0 → acyclic h0 →
  heap_rel same_but_best_action h0 h →
  Forall (λ i, (∃ root n, rts !! i = Some root ∧ h0 !! root = Some n
                          ∧ expanded n = true)
               ∧ is_Some (sl !! i)
               ∧ ∃ v, vtps !! i = Some v ∧ (1 < players → v = 1 ∨ v = 2)) ixs →
  (size h0 ≤ fuel)%nat →
  is_Some (traverse_batch fuel sl base init γ players rand rts vtps ixs h sh).
Proof using All.
  intros Hs Hacyc Hrel Hall Hfuel. revert h sh Hrel.
  induction Hall as [|i rest Hi Hrest IH]; intros h sh Hrel; cbn; [eauto|].
  destruct Hi as ((root & n & -> & Hn & Hex) & [stats ->] & (v & -> & Hv)).
  cbn.
  destruct (traverse_root_runs h0 fuel stats root v h sh n Hs Hacyc Hrel Hn Hex
              Hv Hfuel) as [[[h1 sh1] slot] Hr].
  rewrite Hr. cbn.
  pose proof (traverse_root_slot _ _ _ _ _ _ _ _ _ _ _ _ _ _ Hr) as (Hrel1 & _).
  destruct (IH h1 sh1) as [[[h2 sh2] slots] Hb];
    [by eapply heap_rel_trans; [apply _| |]|].
  rewrite Hb. cbn. eauto.
Qed.
End Runs.

Lemma infer_players_cases (vtps : list Z) :
  vtps ≠ [] →
  infer_players vtps = Some 1 ∨ infer_players vtps = Some 2.
Proof.
  intros Hne. unfold infer_players. destruct vtps as [|x rest]; [done|]. cbn.
  destruct (_ =? _); eauto.
Qed.

(** on traversable inputs [cbatch_traverse] runs to its end as soon as the
    fuel is the number of nodes of the heap *)
Lemma cbatch_traverse_runs {F} `{FO : FloatOps F} `{K : Consts}
    `{U : Utils F} {St : Type} `{MM : MinMaxStats F St}
    (fuel : nat) (rand : nat → Z) (h : heap F) (R : CRoots) (base : Z)
    (init γ : F) (sl : list St) (rn : Z) (vtps : list Z) :
  traversable h R sl rn vtps →
  (size h ≤ fuel)%nat →
  is_Some (cbatch_traverse fuel rand h R base init γ sl rn vtps).
Proof.
  intros (HH & HA & HT & Hs & Hacyc & Hrn & Hroots & Hsl & Hvtps & Hex & Hne
          & Hmode) Hfuel.
  unfold cbatch_traverse.
  destruct (Nat.leb_spec (Z.to_nat rn) (length vtps)); [|lia].
  assert (Hgen : ∀ players, infer_players vtps = Some players →
            is_Some (traverse_batch fuel sl base init γ players rand (roots R)
                       vtps (seq 0 (Z.to_nat rn)) h (mkShared fzero 0%nat))).
  { intros players Hp.
    apply (traverse_batch_runs HH HA HT base init γ players rand h);
      [done | done | apply heap_rel_refl, _ | | done].
    apply Forall_forall. intros i Hi. apply elem_of_seq in Hi.
    rewrite Forall_forall in Hex.
    destruct (lookup_lt_is_Some_2 (roots R) i ltac:(lia)) as [root Hroot].
    destruct (lookup_lt_is_Some_2 vtps i ltac:(lia)) as [v Hv].
    destruct (Hex root) as (n & Hn & Hexn).
    { apply list_elem_of_lookup. exists i. by rewrite lookup_take_lt by lia. }
    split; [by exists root, n|].
    split; [apply lookup_lt_is_Some_2; lia|]. exists v. split; [done|].
    intros Hpl. destruct Hmode as [Hm|Hm].
    - rewrite Hp in Hm. injection Hm as ->. lia.
    - rewrite Forall_forall in Hm. apply Hm. apply list_elem_of_lookup.
      exists i. by rewrite lookup_take_lt by lia. }
  destruct (infer_players_cases vtps Hne) as [Hp|Hp]; rewrite Hp; cbn.
  all: destruct (Hgen _ Hp) as [[[h1 sh1] slots] Hb]; rewrite Hb; cbn; eauto.
Qed.

(** X17.  On traversable inputs, and with as much fuel as the heap has
    nodes, [cbatch_traverse] runs to its end, and what it records for the
    batch index [i] is this: the search path starts at the root [i], holds
    [search_len + 1] nodes with [search_len >= 1], each the child of the
    one before it, and ends at the leaf, which is not expanded; the two
    latent-state indices are those of the parent of the leaf. *)
Theorem cbatch_traverse_search_paths {F} `{FO : FloatOps F} `{K : Consts}
    `{U : Utils F} {St : Type} `{MM : MinMaxStats F St}
    (fuel : nat) (rand : nat → Z) (h : heap F) (R : CRoots) (base : Z)
    (init γ : F) (sl : list St) (rn : Z) (vtps : list Z) :
  traversable h R sl rn vtps →
  (size h ≤ fuel)%nat →
  ∃ h' res vtps',
    cbatch_traverse fuel rand h R base init γ sl rn vtps
    = Some (h', res, vtps')
    ∧ num res = rn
    ∧ length (slots res) = Z.to_nat rn
    ∧ ∀ i slot, slots res !! i = Some slot →
        ∃ root,
          roots R !! i = Some root
          ∧ (∃ ext, search_path slot = root :: ext
                    ∧ Z.of_nat (length ext) = search_len slot)
          ∧ 1 ≤ search_len slot
          ∧ last (search_path slot) = Some (leaf slot)
          ∧ chain h (search_path slot)
          ∧ (∃ n, h' !! leaf slot = Some n ∧ expanded n = false)
          ∧ ∃ pa parent,
              second_to_last (search_path slot) = Some pa
              ∧ h !! pa = Some parent
              ∧ latent_state_index_in_search_path slot
                = current_latent_state_index parent
              ∧ latent_state_index_in_batch slot = batch_index parent.
Proof.
  intros Hready Hfuel.
  destruct (cbatch_traverse_runs fuel rand h R base init γ sl rn vtps Hready
              Hfuel) as [[[h' res] vtps'] Hrun].
  exists h', res, vtps'. split; [done|].
  apply cbatch_traverse_slot in Hrun
    as (players & _ & Hrel & Hlen & Hnum & _ & _ & Hslots).
  split; [done|]. split; [done|]. intros i slot Hslot.
  destruct (Hslots i) as (slot' & root & stats & vtp & h1 & sh1 & h2 & sh2
    & Hslot' & Hroot & _ & _ & Hrel1 & Hrun & Hrel2);
    [apply lookup_lt_Some in Hslot; lia|].
  rewrite Hslot in Hslot'. injection Hslot' as <-.
  apply traverse_root_slot in Hrun
    as (Hrel12 & Hpath & Hge & Hlast & Hch & _ & _ & (n & Hn & Hex) & _
        & (pa & parent & Hpa & Hparent & Hcli & Hbi)).
  exists root. split; [done|]. split; [done|]. split; [done|].
  split; [done|]. split.
  { intros j a b Ha Hb. apply (child_of_rel _ _ _ _ Hrel1). by eapply Hch. }
  split.
  { destruct (heap_rel_lookup _ _ _ _ _ Hrel2 Hn) as (n' & Hn' & Hsame).
    exists n'. split; [done|].
    by rewrite (same_but_best_action_expanded _ _ Hsame). }
  assert (Hrel' : heap_rel same_but_best_action h h2)
    by (by eapply heap_rel_trans; [apply _| |]).
  destruct (heap_rel_lookup_r _ _ _ _ _ Hrel' Hparent) as (p0 & Hp0 & Hsame).
  exists pa, p0. split; [done|]. split; [done|].
  rewrite Hcli, Hbi, Hsame. done.
Qed.

(** the batch of the two prepared roots of [Pair] is traversable, in
    single-player and in two-player mode *)
Lemma walked_traversable (vtps : list Z) :
  vtps = [-1; -1] ∨ vtps = [1; 2] →
  traversable (K := Rat.consts_1_2) Walked.batch Walked.both_roots
    [Example.no_stats; Example.no_stats] 2 vtps.
Proof.
  intros Hv.
  split; [reflexivity|]. split; [reflexivity|]. split; [reflexivity|].
  split; [apply (bool_decide_unpack _); vm_compute; exact I|].
  split; [apply (acyclic_decide _ Pos.to_nat);
          apply (bool_decide_unpack _); vm_compute; exact I|].
  split; [lia|].
  split; [cbn; lia|]. split; [cbn; lia|].
  split; [destruct Hv as [-> | ->]; cbn; lia|].
  split.
  { repeat constructor; eexists; (split; [reflexivity|]); vm_compute; reflexivity. }
  split; [by destruct Hv as [-> | ->]|].
  destruct Hv as [-> | ->]; [by left|]. right.
  repeat constructor; lia.
Qed.

Lemma cbatch_traverse_search_paths_witness :
  ∃ h' res vtps',
    cbatch_traverse (K := Rat.consts_1_2) 6 Pair.counting Walked.batch
      Walked.both_roots 19652 (Rat.Fin (5 # 4)) (Rat.Fin 1)
      [Example.no_stats; Example.no_stats] 2 [-1; -1]
    = Some (h', res, vtps')
    ∧ num res = 2
    ∧ length (slots res) = Z.to_nat 2
    ∧ ∀ i slot, slots res !! i = Some slot →
        ∃ root,
          roots Walked.both_roots !! i = Some root
          ∧ (∃ ext, search_path slot = root :: ext
                    ∧ Z.of_nat (length ext) = search_len slot)
          ∧ 1 ≤ search_len slot
          ∧ last (search_path slot) = Some (leaf slot)
          ∧ chain Walked.batch (search_path slot)
          ∧ (∃ n, h' !! leaf slot = Some n ∧ expanded n = false)
          ∧ ∃ pa parent,
              second_to_last (search_path slot) = Some pa
              ∧ Walked.batch !! pa = Some parent
              ∧ latent_state_index_in_search_path slot
                = current_latent_state_index parent
              ∧ latent_state_index_in_batch slot = batch_index parent.
Proof.
  apply (cbatch_traverse_search_paths (K := Rat.consts_1_2) 6
           Pair.counting Walked.batch Walked.both_roots 19652
           (Rat.Fin (5 # 4)) (Rat.Fin 1)
           [Example.no_stats; Example.no_stats] 2 [-1; -1]).
  - apply walked_traversable. by left.
  - vm_compute. lia.
Defined.

(** X18.  On traversable inputs, and with as much fuel as the heap has
    nodes, [cbatch_traverse] runs to its end and fills [results.num]
    slots; the entry [i] of [virtual_to_play_batch] after it is, with one
    player, the entry before the call; with two players the entry before
    the call is [1] or [2] and has been flipped once for each of the
    [search_len] steps of the path. *)
Theorem cbatch_traverse_flips_to_play {F} `{FO : FloatOps F} `{K : Consts}
    `{U : Utils F} {St : Type} `{MM : MinMaxStats F St}
    (fuel : nat) (rand : nat → Z) (h : heap F) (R : CRoots) (base : Z)
    (init γ : F) (sl : list St) (rn : Z) (vtps : list Z) :
  traversable h R sl rn vtps →
  (size h ≤ fuel)%nat →
  ∃ h' res vtps',
    cbatch_traverse fuel rand h R base init γ sl rn vtps
    = Some (h', res, vtps')
    ∧ length (slots res) = Z.to_nat rn
    ∧ ∀ i slot, slots res !! i = Some slot →
        ∃ v, vtps !! i = Some v
          ∧ vtps' !! i = Some (virtual_to_play slot)
          ∧ (infer_players vtps = Some 1 → virtual_to_play slot = v)
          ∧ (infer_players vtps = Some 2 →
             (v = 1 ∨ v = 2)
             ∧ virtual_to_play slot = flipped (search_len slot) v).
Proof.
  intros Hready Hfuel.
  destruct (cbatch_traverse_runs fuel rand h R base init γ sl rn vtps Hready
              Hfuel) as [[[h' res] vtps'] Hrun].
  exists h', res, vtps'. split; [done|].
  apply cbatch_traverse_slot in Hrun
    as (players & Hplayers & _ & Hlen & _ & -> & _ & Hslots).
  split; [done|]. intros i slot Hslot.
  destruct (Hslots i) as (slot' & root & stats & vtp & h1 & sh1 & h2 & sh2
    & Hslot' & _ & _ & Hvtp & _ & Hrun & _);
    [apply lookup_lt_Some in Hslot; lia|].
  rewrite Hslot in Hslot'. injection Hslot' as <-.
  apply traverse_root_slot in Hrun
    as (_ & _ & _ & _ & _ & H2 & H1 & _).
  exists vtp. split; [done|]. split.
  { rewrite lookup_app_l
      by (rewrite length_fmap; by eapply lookup_lt_Some).
    by rewrite list_lookup_fmap, Hslot. }
  rewrite Hplayers. split; intros [= ->]; [apply H1 | apply H2]; lia.
Qed.

Lemma cbatch_traverse_flips_to_play_witness :
  ∃ h' res vtps',
    cbatch_traverse (K := Rat.consts_1_2) 6 Pair.counting Walked.batch
      Walked.both_roots 19652 (Rat.Fin (5 # 4)) (Rat.Fin 1)
      [Example.no_stats; Example.no_stats] 2 [1; 2]
    = Some (h', res, vtps')
    ∧ length (slots res) = Z.to_nat 2
    ∧ ∀ i slot, slots res !! i = Some slot →
        ∃ v, [1; 2] !! i = Some v
          ∧ vtps' !! i = Some (virtual_to_play slot)
          ∧ (infer_players [1; 2] = Some 1 → virtual_to_play slot = v)
          ∧ (infer_players [1; 2] = Some 2 →
             (v = 1 ∨ v = 2)
             ∧ virtual_to_play slot = flipped (search_len slot) v).
Proof.
  apply (cbatch_traverse_flips_to_play (K := Rat.consts_1_2) 6
           Pair.counting Walked.batch Walked.both_roots 19652
           (Rat.Fin (5 # 4)) (Rat.Fin 1)
           [Example.no_stats; Example.no_stats] 2 [1; 2]).
  - apply walked_traversable. by right.
  - vm_compute. lia.
Defined.

Section TraverseFirst.
Context {F : Type} `{FO : FloatOps F} `{K : Consts} `{U : Utils F}
        {St : Type} `{MM : MinMaxStats F St}.

(** a traversal that ends has computed [compute_mean_q] at its root *)
Lemma traverse_root_first (fuel : nat) (stats : St) (base : Z) (init γ : F)
    (players : Z) (rand : nat → Z) (root : addr) (vtp : Z)
    (h h' : heap F) (sh sh' : Shared F) (slot : SearchSlot) :
  traverse_root fuel stats base init γ players rand root vtp h sh
  = Some (h', sh', slot) →
  ∃ n mean_q,
    h !! root = Some n ∧ expanded n = true
    ∧ compute_mean_q h n 1 (sh_parent_q sh) γ = Some mean_q.
Proof.
  intros Hrun.
  pose proof (traverse_root_slot _ _ _ _ _ _ _ _ _ _ _ _ _ _ Hrun)
    as (_ & _ & _ & _ & _ & _ & _ & _ & (n & Hn & Hex) & _).
  unfold traverse_root in Hrun.
  destruct (traverse_loop _ _ _ _ _ _ _ _ _) as [[h1 w]|] eqn:Hw; [|done].
  pose proof (traverse_loop_first _ _ _ _ _ _ _ _ _
                (mkWalk root 1 (sh_parent_q sh) vtp (sh_rng sh) [root] [] 0)
                _ _ Hn Hw) as Hfirst.
  rewrite Hex in Hfirst.
  destruct Hfirst as (h2 & w2 & fuel' & Hstep & _).
  destruct Hstep as (n' & mq & actions & rng & vtp' & c & Hn' & _ & Hmq & _).
  cbn in Hn', Hmq. rewrite Hn in Hn'. injection Hn' as <-.
  by exists n, mq.
Qed.
End TraverseFirst.

(** X21.  With two or more action heads [cbatch_traverse] is undefined on
    every root whose children are those of its legal actions, as [expand]
    creates them: [compute_mean_q] looks up the keys
    [a + i * ACTIONS_PER_PLAYER] for [i >= 1], which are not among them, and
    dereferences the null pointer (a root without legal actions is not
    expanded, which is undefined as well). *)
Theorem cbatch_traverse_two_heads {F} `{FO : FloatOps F} `{K : Consts}
    `{U : Utils F} {St : Type} `{MM : MinMaxStats F St}
    (fuel : nat) (rand : nat → Z) (h : heap F) (R : CRoots) (base : Z)
    (init γ : F) (sl : list St) (rn : Z) (vtps : list Z) (i : nat)
    (root : addr) (n : CNode F) :
  2 ≤ NUM_ACTION_HEADS →
  0 < ACTIONS_PER_PLAYER < 2 ^ 31 →
  (i < Z.to_nat rn)%nat →
  roots R !! i = Some root →
  h !! root = Some n →
  dom (children n) = list_to_set (legal_actions n) →
  Forall (λ a, 0 ≤ a < 2 ^ 31) (legal_actions n) →
  cbatch_traverse fuel rand h R base init γ sl rn vtps = None.
Proof.
  intros HH HA Hi Hroot Hn Hdom Hrange.
  destruct (cbatch_traverse _ _ _ _ _ _ _ _ _ _) as [[[h' res] vtps']|] eqn:Hrun;
    [exfalso|done].
  apply cbatch_traverse_slot in Hrun
    as (players & _ & _ & _ & _ & _ & _ & Hslots).
  destruct (Hslots i Hi) as (slot & root' & stats & vtp & h1 & sh1 & h2 & sh2
    & _ & Hroot' & _ & _ & Hrel & Hrun & _).
  rewrite Hroot in Hroot'. injection Hroot' as <-.
  apply traverse_root_first in Hrun as (n1 & mq & Hn1 & Hex & Hmq).
  destruct (heap_rel_lookup _ _ _ _ _ Hrel Hn) as (n1' & Hn1' & Hsame).
  rewrite Hn1 in Hn1'. injection Hn1' as <-.
  assert (Hdom1 : dom (children n1) = list_to_set (legal_actions n1))
    by (by rewrite Hsame).
  assert (Hrange1 : Forall (λ a, 0 ≤ a < 2 ^ 31) (legal_actions n1))
    by (by rewrite Hsame).
  assert (Hne : legal_actions n1 ≠ []).
  { intros Hnil. rewrite Hnil, list_to_set_nil in Hdom1.
    apply dom_empty_iff_L in Hdom1. unfold expanded in Hex.
    rewrite Hdom1, map_size_empty in Hex. done. }
  destruct (two_heads_null_lookup n1 HH HA Hne Hrange1 Hdom1)
    as (key & Hkey & Hnull).
  by rewrite (compute_mean_q_null _ _ _ _ _ _ Hkey Hnull) in Hmq.
Qed.

Lemma cbatch_traverse_two_heads_witness :
  cbatch_traverse (K := Rat.consts_2_4) 5 Pair.counting Walked.batch
    Walked.both_roots 19652 (Rat.Fin (5 # 4)) (Rat.Fin 1)
    [Example.no_stats; Example.no_stats] 2 [-1; -1] = None.
Proof.
  apply (cbatch_traverse_two_heads (K := Rat.consts_2_4) 5 Pair.counting
           Walked.batch Walked.both_roots 19652 (Rat.Fin (5 # 4)) (Rat.Fin 1)
           [Example.no_stats; Example.no_stats] 2 [-1; -1] 0 1%positive
           Pair.root1).
  - cbn. lia.
  - cbn. lia.
  - cbn. lia.
  - reflexivity.
  - reflexivity.
  - apply (bool_decide_unpack _). vm_compute. exact I.
  - repeat constructor; cbn; lia.
Defined.

(** ** A search round and the visit counts *)

Lemma occurrences_app (a : addr) (l1 l2 : list addr) :
  occurrences a (l1 ++ l2) = occurrences a l1 + occurrences a l2.
Proof. unfold occurrences. rewrite filter_app, length_app. lia. Qed.

Lemma omap_lookup_seq {A B} (f : A → B) (pre l : list A) :
  omap (λ i, f <$> (pre ++ l) !! i) (seq (length pre) (length l)) = f <$> l.
Proof.
  revert pre. induction l as [|x l IH]; intros pre; [done|].
  cbn [length seq omap list_omap]. cbv beta.
  rewrite lookup_app_r, Nat.sub_diag by lia. cbn. f_equal.
  specialize (IH (pre ++ [x])).
  rewrite <- (assoc_L (++)), length_app in IH. cbn in IH.
  by rewrite Nat.add_1_r in IH.
Qed.

Section RoundFacts.
Context {F : Type} `{FO : FloatOps F} `{K : Consts} `{U : Utils F}
        `{AL : Allocator} {St : Type} `{MM : MinMaxStats F St}.

Lemma backprop_leaf_counts (cli : Z) (γ : F) (i : nat) (slot : SearchSlot)
    (tp : Z) (vp : F) (pol : list F) (r : Z) (stats stats' : St) (v : F)
    (h h' : heap F) (a : addr) (n : CNode F) :
  (∀ j, a ≠ new_addr (leaf slot) j) →
  backprop_leaf cli γ i slot tp vp pol r stats v h = Some (h', stats') →
  h !! a = Some n →
  ∃ n', h' !! a = Some n'
    ∧ visit_count n' = visit_count n + occurrences a (search_path slot).
Proof.
  intros Hfresh Hrun Hn. unfold backprop_leaf in Hrun.
  destruct (expand _ _ _ _ _ _ _) as [h1|] eqn:He; [|done]. cbn in Hrun.
  destruct (h1 !! leaf slot) as [nl|] eqn:Hnl; [|done]. cbn in Hrun.
  apply cbackpropagate_effect in Hrun.
  assert (∃ n2, <[leaf slot := set_is_reset nl r]> h1 !! a = Some n2
                ∧ visit_count n2 = visit_count n) as (n2 & Hn2 & Hvc).
  { destruct (decide (a = leaf slot)) as [->|Hne].
    - rewrite lookup_insert_eq. eexists. split; [done|]. cbn.
      destruct (expand_lookup_this _ _ _ _ _ _ _ _ _ Hn He) as [ch Hl].
      rewrite Hnl in Hl. by injection Hl as ->.
    - rewrite lookup_insert_ne by done.
      rewrite (expand_lookup_other _ _ _ _ _ _ _ _ _ He Hne Hfresh).
      by exists n. }
  destruct (Hrun a n2 Hn2) as (n' & Hn' & _ & Hv & _).
  exists n'. split; [done | lia].
Qed.

Lemma backprop_batch_counts (cli : Z) (γ : F) (vps vs : list F)
    (pols : list (list F)) (res : CSearchResults) (rl tps : list Z)
    (ixs : list nat) (h1 h2 : heap F) (sl1 sl2 : list St) (a : addr)
    (n1 : CNode F) :
  (∀ c j, a ≠ new_addr c j) →
  backprop_batch (backprop_slot cli γ vps vs pols res rl tps) ixs (h1, sl1)
  = Some (h2, sl2) →
  h1 !! a = Some n1 →
  ∃ n2, h2 !! a = Some n2
    ∧ visit_count n2
      = visit_count n1
        + occurrences a
            (concat (omap (λ i, search_path <$> slots res !! i) ixs)).
Proof.
  intros Hfresh. revert h1 sl1 n1.
  induction ixs as [|i rest IH]; intros h1 sl1 n1 Hrun Hn1.
  - cbn in Hrun. injection Hrun as <- <-. exists n1. split; [done|].
    unfold occurrences. cbn. lia.
  - cbn [backprop_batch] in Hrun.
    destruct (backprop_slot _ _ _ _ _ _ _ _ _ _) as [[h3 sl3]|] eqn:Hs;
      [|done]. cbn in Hrun.
    unfold backprop_slot in Hs.
    destruct (slots res !! i) as [slot|] eqn:Hslot; [|done]. cbn in Hs.
    destruct (tps !! i) as [tp|]; [|done]. cbn in Hs.
    destruct (vps !! i) as [vp|]; [|done]. cbn in Hs.
    destruct (pols !! i) as [pol|]; [|done]. cbn in Hs.
    destruct (rl !! i) as [r|]; [|done]. cbn in Hs.
    destruct (sl1 !! i) as [stats|]; [|done]. cbn in Hs.
    destruct (vs !! i) as [v|]; [|done]. cbn in Hs.
    destruct (backprop_leaf _ _ _ _ _ _ _ _ _ _ _) as [[h4 stats']|] eqn:Hb;
      [|done].
    cbn in Hs. injection Hs as <- <-.
    destruct (backprop_leaf_counts _ _ _ _ _ _ _ _ _ _ _ _ _ a n1
                (Hfresh (leaf slot)) Hb Hn1) as (n3 & Hn3 & Hv3).
    destruct (IH _ _ _ Hrun Hn3) as (n2 & Hn2 & Hv2).
    exists n2. split; [done|].
    cbn [omap list_omap]. cbv beta. rewrite Hslot. cbn [fmap option_fmap option_map concat].
    rewrite occurrences_app. lia.
Qed.
End RoundFacts.

Section RoundRuns.
Context {F : Type} `{FO : FloatOps F} `{K : Consts} `{U : Utils F}
        `{AL : Allocator} {St : Type} `{MM : MinMaxStats F St}.

Lemma expand_is_Some (h : heap F) (this : addr) (n : CNode F)
    (tp cli bi : Z) (vp : F) (policy_logits : list F) :
  h !! this = Some n →
  Forall (λ a, 0 ≤ a < Z.of_nat (length policy_logits))
    (default_legal_actions n (Z.of_nat (length policy_logits))) →
  is_Some (expand h this tp cli bi vp policy_logits).
Proof.
  intros Hn Hall. unfold expand. rewrite Hn. cbn.
  set (legal := default_legal_actions _ _) in *.
  destruct (proj2 (expand_max_is_Some policy_logits FLOAT_MIN legal) Hall)
    as [pm ->]. cbn.
  destruct (proj2 (expand_exp_is_Some policy_logits pm fzero ∅ legal) Hall)
    as [[ps pol] Hexp].
  rewrite Hexp. cbn.
  destruct (proj2 (expand_children_is_Some this pol ps 0 legal h (children n)))
    as [[h1 ch] Hch].
  { intros a Ha. rewrite (expand_exp_policy _ _ _ _ _ _ _ Hexp a).
    rewrite decide_True by done.
    rewrite Forall_forall in Hall.
    destruct (proj2 (index_is_Some policy_logits a) (Hall a Ha)) as [x ->].
    by eexists. }
  rewrite Hch. cbn. eauto.
Qed.

Lemma cbackpropagate_is_Some (h : heap F) (path : list addr) (stats : St)
    (tp : Z) (v γ : F) :
  tp = -1 ∨ tp = 1 ∨ tp = 2 →
  Forall (λ a, a ∈ dom h) path →
  is_Some (cbackpropagate h path stats tp v γ).
Proof.
  intros Htp Hall. unfold cbackpropagate.
  destruct (Z.eqb_spec tp (-1)) as [->|H1]; cbn [orb].
  - apply backprop_single_is_Some; [done | by rewrite firstn_all].
  - assert (Hor : (tp =? 1) || (tp =? 2) = true)
      by (destruct Htp as [?|[->| ->]]; [lia | done | done]).
    rewrite Hor. apply backprop_two_is_Some; [done | by rewrite firstn_all].
Qed.

Lemma default_legal_in_range (m : nat) (n : CNode F) :
  Forall (λ a, 0 ≤ a < Z.of_nat m) (legal_actions n) →
  Forall (λ a, 0 ≤ a < Z.of_nat m) (default_legal_actions n (Z.of_nat m)).
Proof.
  intros Hall. unfold default_legal_actions.
  destruct (length (legal_actions n) =? 0)%nat; [|done].
  apply Forall_forall. intros a Ha. apply elem_of_seqZ in Ha. lia.
Qed.

Lemma expand_children_expandable (m : nat) (this : addr)
    (policy : gmap Z F) (psum : F) (j : nat) (legal : list Z)
    (h h' : heap F) (ch ch' : gmap Z addr) :
  expandable_on m h →
  expand_children this policy psum j legal h ch = Some (h', ch') →
  expandable_on m h'.
Proof.
  revert j h ch. induction legal as [|a rest IH]; intros j h ch Hh Hrun.
  - cbn in Hrun. by injection Hrun as <- <-.
  - cbn [expand_children] in Hrun.
    destruct (policy !! a) as [p|]; [|done]. cbn in Hrun.
    eapply IH; [|done]. apply map_Forall_insert_2; [constructor | done].
Qed.

Lemma expand_expandable (h h' : heap F) (this : addr) (tp cli bi : Z)
    (vp : F) (policy_logits : list F) :
  expandable_on (length policy_logits) h →
  expand h this tp cli bi vp policy_logits = Some h' →
  expandable_on (length policy_logits) h'.
Proof.
  intros Hh Hrun. unfold expand in Hrun.
  destruct (h !! this) as [n|] eqn:Hn; [|done]. cbn in Hrun.
  destruct (expand_max _ _ _) as [pm|]; [|done]. cbn in Hrun.
  destruct (expand_exp _ _ _ _ _) as [[ps pol]|]; [|done]. cbn in Hrun.
  destruct (expand_children _ _ _ _ _ _ _) as [[h1 ch]|] eqn:Hch; [|done].
  cbn in Hrun. injection Hrun as <-.
  apply map_Forall_insert_2; [|by eapply expand_children_expandable].
  cbn. apply default_legal_in_range. exact (Hh this n Hn).
Qed.

(** the expansion and backpropagation of one leaf run to their end *)
Lemma backprop_leaf_runs (cli : Z) (γ : F) (i : nat) (slot : SearchSlot)
    (tp : Z) (vp : F) (pol : list F) (r : Z) (stats : St) (v : F)
    (h : heap F) :
  leaf slot ∈ dom h →
  Forall (λ a, a ∈ dom h) (search_path slot) →
  expandable_on (length pol) h →
  tp = -1 ∨ tp = 1 ∨ tp = 2 →
  ∃ h' stats',
    backprop_leaf cli γ i slot tp vp pol r stats v h = Some (h', stats')
    ∧ dom h ⊆ dom h'
    ∧ expandable_on (length pol) h'.
Proof.
  intros [n Hn]%elem_of_dom Hpath Hh Htp. unfold backprop_leaf.
  destruct (expand_is_Some h (leaf slot) n tp cli (Z.of_nat i) vp pol Hn
              (default_legal_in_range _ _ (Hh _ _ Hn))) as [h1 He].
  rewrite He. cbn.
  pose proof (expand_dom _ _ _ _ _ _ _ _ He) as [Hsub _].
  pose proof (expand_expandable _ _ _ _ _ _ _ _ Hh He) as Hh1.
  assert (Hl : leaf slot ∈ dom h1) by (apply Hsub, elem_of_dom; eauto).
  apply elem_of_dom in Hl as [nl Hnl]. rewrite Hnl. cbn.
  set (h2 := <[leaf slot := set_is_reset nl r]> h1).
  assert (Hdom2 : dom h2 = dom h1)
    by (apply dom_insert_present, elem_of_dom; eauto).
  assert (Hh2 : expandable_on (length pol) h2)
    by (apply map_Forall_insert_2; [exact (Hh1 _ _ Hnl) | done]).
  destruct (cbackpropagate_is_Some h2 (search_path slot) stats tp v γ Htp)
    as [[h3 stats'] Hb].
  { eapply Forall_impl; [exact Hpath|]. intros a Ha. rewrite Hdom2. auto. }
  rewrite Hb. exists h3, stats'. split; [done|].
  pose proof (cbackpropagate_dom _ _ _ _ _ _ _ _ Hb) as Hdom3.
  split; [rewrite Hdom3, Hdom2; done|].
  intros a n' Hn'.
  assert (Ha : a ∈ dom h2) by (rewrite <- Hdom3; apply elem_of_dom; eauto).
  apply elem_of_dom in Ha as [n2 Hn2].
  destruct (cbackpropagate_effect _ _ _ _ _ _ _ _ Hb a n2 Hn2)
    as (n3 & Hn3 & Hsame & _).
  rewrite Hn' in Hn3. injection Hn3 as <-. rewrite Hsame. cbn.
  exact (Hh2 _ _ Hn2).
Qed.

Lemma backprop_batch_runs (m : nat) (cli : Z) (γ : F) (vps vs : list F)
    (pols : list (list F)) (res : CSearchResults) (rl tps : list Z)
    (h0 : heap F) (ixs : list nat) (h : heap F) (sl : list St) :
  backpropagable (Z.of_nat (length (slots res))) m vps vs pols rl tps →
  Forall (λ slot, leaf slot ∈ dom h0
                  ∧ Forall (λ a, a ∈ dom h0) (search_path slot)) (slots res) →
  Forall (λ i, (i < length (slots res))%nat) ixs →
  (length (slots res) ≤ length sl)%nat →
  dom h0 ⊆ dom h →
  expandable_on m h →
  is_Some (backprop_batch (backprop_slot cli γ vps vs pols res rl tps) ixs
             (h, sl)).
Proof.
  intros (Hvps & Hvs & Hpols & Hrl & Htps & Hm & Htp) Hslots Hixs.
  rewrite Nat2Z.id in *.
  revert h sl. induction Hixs as [|i rest Hi Hrest IH]; intros h sl Hsl Hsub Hh;
    cbn [backprop_batch]; [eauto|].
  destruct (lookup_lt_is_Some_2 (slots res) i Hi) as [slot Hslot].
  destruct (lookup_lt_is_Some_2 tps i ltac:(lia)) as [tp Htpi].
  destruct (lookup_lt_is_Some_2 vps i ltac:(lia)) as [vp Hvp].
  destruct (lookup_lt_is_Some_2 pols i ltac:(lia)) as [pol Hpol].
  destruct (lookup_lt_is_Some_2 rl i ltac:(lia)) as [r Hr].
  destruct (lookup_lt_is_Some_2 sl i ltac:(lia)) as [stats Hstats].
  destruct (lookup_lt_is_Some_2 vs i ltac:(lia)) as [v Hv].
  rewrite Forall_forall in Hslots. rewrite Forall_forall in Hm.
  rewrite Forall_forall in Htp.
  destruct (Hslots slot) as [Hleaf Hpath];
    [by eapply list_elem_of_lookup_2|].
  assert (Hlen : length pol = m).
  { apply Hm. apply list_elem_of_lookup. exists i.
    by rewrite lookup_take_lt by lia. }
  assert (Htpv : tp = -1 ∨ tp = 1 ∨ tp = 2).
  { apply Htp. apply list_elem_of_lookup. exists i.
    by rewrite lookup_take_lt by lia. }
  rewrite <- Hlen in Hh.
  destruct (backprop_leaf_runs cli γ i slot tp vp pol r stats v h)
    as (h' & stats' & Hb & Hsub' & Hh'); [by apply Hsub | | done | done |].
  { eapply Forall_impl; [exact Hpath|]. intros a Ha. by apply Hsub. }
  assert (Hstep : backprop_slot cli γ vps vs pols res rl tps (h, sl) i
                  = Some (h', <[i := stats']> sl)).
  { unfold backprop_slot.
    rewrite Hslot, Htpi, Hvp, Hpol, Hr, Hstats, Hv. cbn. by rewrite Hb. }
  rewrite Hstep. cbn. apply IH.
  - by rewrite length_insert.
  - by etrans.
  - by rewrite <- Hlen.
Qed.

(** the nodes of the search paths are nodes of the heap *)
Lemma cbatch_traverse_paths_in_dom (fuel : nat) (rand : nat → Z)
    (h h' : heap F) (R : CRoots) (base : Z) (init γ : F) (sl : list St)
    (rn : Z) (vtps vtps' : list Z) (res : CSearchResults) :
  cbatch_traverse fuel rand h R base init γ sl rn vtps
  = Some (h', res, vtps') →
  Forall (λ slot, leaf slot ∈ dom h
                  ∧ Forall (λ a, a ∈ dom h) (search_path slot)) (slots res).
Proof.
  intros Hrun.
  apply cbatch_traverse_slot in Hrun
    as (players & _ & Hrel & Hlen & _ & _ & _ & Hslots).
  apply Forall_lookup. intros i slot Hslot.
  destruct (Hslots i) as (slot' & root & stats & vtp & h1 & sh1 & h2 & sh2
    & Hslot' & _ & _ & _ & Hrel1 & Hrun & Hrel2);
    [apply lookup_lt_Some in Hslot; lia|].
  rewrite Hslot in Hslot'. injection Hslot' as <-.
  apply traverse_root_slot in Hrun
    as (_ & _ & _ & Hlast & Hch & _ & _ & (nl & Hnl & _) & _).
  assert (Hleaf : leaf slot ∈ dom h).
  { rewrite <- (heap_rel_dom _ _ _ Hrel), (heap_rel_dom _ _ _ Hrel2).
    apply elem_of_dom. eauto. }
  split; [done|]. apply Forall_lookup. intros j a Ha.
  destruct (search_path slot !! S j) as [b|] eqn:Hb.
  - destruct (Hch _ _ _ Ha Hb) as (n & k & Hn & _).
    rewrite <- (heap_rel_dom _ _ _ Hrel1). apply elem_of_dom. eauto.
  - rewrite last_lookup in Hlast. apply lookup_ge_None in Hb.
    apply lookup_lt_Some in Ha as Hlt.
    replace (pred (length (search_path slot))) with j in Hlast by lia.
    rewrite Ha in Hlast. by injection Hlast as ->.
Qed.

Lemma expandable_rel (m : nat) (h h' : heap F) :
  heap_rel same_but_best_action h h' →
  expandable_on m h → expandable_on m h'.
Proof.
  intros Hrel Hh a n' Hn'.
  destruct (heap_rel_lookup_r _ _ _ _ _ Hrel Hn') as (n & Hn & ->).
  exact (Hh a n Hn).
Qed.
End RoundRuns.

(** X22.  On traversable inputs, with policies of [m] logits that every
    node can be expanded on, players to play in [{-1, 1, 2}] and as much
    fuel as the heap has nodes, a search round ([cbatch_traverse], then
    [cbatch_backpropagate]) runs to its end, and it adds to the visit count
    of every node that existed before it the number of times the node
    occurs on the search paths of the round.  The allocator returns
    addresses that are not in use. *)
Theorem search_round_counts_visits {F} `{FO : FloatOps F} `{K : Consts}
    `{U : Utils F} `{AL : Allocator} {St : Type} `{MM : MinMaxStats F St}
    (fuel : nat) (rand : nat → Z) (h : heap F) (R : CRoots) (base : Z)
    (init γ : F) (sl : list St) (rn : Z) (vtps : list Z) (cli : Z)
    (vps vs : list F) (pols : list (list F)) (rl tps : list Z) (m : nat) :
  traversable h R sl rn vtps →
  expandable_on m h →
  backpropagable rn m vps vs pols rl tps →
  (∀ c j, new_addr c j ∉ dom h) →
  (size h ≤ fuel)%nat →
  ∃ h' sl' res vtps',
    search_round fuel rand h R base init γ sl rn vtps cli vps vs pols rl tps
    = Some (h', sl', res, vtps')
    ∧ length (slots res) = Z.to_nat rn
    ∧ ∀ a n, h !! a = Some n →
        ∃ n', h' !! a = Some n'
          ∧ visit_count n'
            = visit_count n
              + occurrences a (concat (search_path <$> slots res)).
Proof.
  intros Hready Hexp Hin Hfresh Hfuel. unfold search_round.
  destruct (cbatch_traverse_runs fuel rand h R base init γ sl rn vtps Hready
              Hfuel) as [[[hT resT] vtpsT] HT].
  rewrite HT. cbn.
  pose proof (cbatch_traverse_paths_in_dom _ _ _ _ _ _ _ _ _ _ _ _ _ HT)
    as Hpaths.
  apply cbatch_traverse_slot in HT
    as (players & _ & Hrel & Hlen & Hnum & _ & _ & _).
  destruct Hready as (_ & _ & _ & _ & _ & Hrn & _ & Hsl & _).
  unfold cbatch_backpropagate. rewrite Hnum.
  destruct (backprop_batch_runs m cli γ vps vs pols resT rl tps h
              (seq 0 (Z.to_nat rn)) hT sl) as [[hB slB] HB].
  { by rewrite Hlen, Z2Nat.id by lia. }
  { done. }
  { apply Forall_forall. intros i Hi. apply elem_of_seq in Hi. lia. }
  { lia. }
  { by rewrite (heap_rel_dom _ _ _ Hrel). }
  { by eapply expandable_rel. }
  rewrite HB. cbn. exists hB, slB, resT, vtpsT. split; [done|].
  split; [done|]. intros a n Hn.
  destruct (heap_rel_lookup _ _ _ _ _ Hrel Hn) as (nT & HnT & Hsame).
  assert (Ha : ∀ c j, a ≠ new_addr c j).
  { intros c j ->. apply (Hfresh c j), elem_of_dom. eauto. }
  destruct (backprop_batch_counts _ _ _ _ _ _ _ _ _ _ _ _ _ a nT Ha HB HnT)
    as (n' & Hn' & Hv).
  exists n'. split; [done|].
  rewrite <- Hlen in Hv.
  pose proof (omap_lookup_seq search_path [] (slots resT)) as Homap.
  cbn [app length] in Homap. rewrite Homap in Hv.
  rewrite Hv, Hsame. done.
Qed.

Lemma search_round_counts_visits_witness :
  ∃ h' sl' res vtps',
    search_round (K := Rat.consts_1_2) (AL := Pair.beyond) 6 Pair.counting
      Walked.batch Walked.both_roots 19652 (Rat.Fin (5 # 4)) (Rat.Fin 1)
      [Example.no_stats; Example.no_stats] 2 [-1; -1] 1
      [Rat.Fin 0; Rat.Fin 0] [Rat.Fin 1; Rat.Fin 1]
      [[Rat.Fin 0; Rat.Fin 0]; [Rat.Fin 0; Rat.Fin 0]] [0; 0] [-1; -1]
    = Some (h', sl', res, vtps')
    ∧ length (slots res) = Z.to_nat 2
    ∧ ∀ a n, Walked.batch !! a = Some n →
        ∃ n', h' !! a = Some n'
          ∧ visit_count n'
            = visit_count n
              + occurrences a (concat (search_path <$> slots res)).
Proof.
  apply (search_round_counts_visits (K := Rat.consts_1_2) (AL := Pair.beyond)
           6 Pair.counting Walked.batch Walked.both_roots 19652
           (Rat.Fin (5 # 4)) (Rat.Fin 1)
           [Example.no_stats; Example.no_stats] 2 [-1; -1] 1
           [Rat.Fin 0; Rat.Fin 0] [Rat.Fin 1; Rat.Fin 1]
           [[Rat.Fin 0; Rat.Fin 0]; [Rat.Fin 0; Rat.Fin 0]] [0; 0] [-1; -1]
           2%nat).
  - apply walked_traversable. by left.
  - apply (bool_decide_unpack _). vm_compute. exact I.
  - repeat split; try (cbn; lia); repeat constructor.
  - intros c j. unfold Walked.batch, Pair.tree1, Pair.tree2.
    cbn [new_addr Pair.beyond].
    rewrite dom_union_L, !dom_insert_L, !dom_singleton_L. set_unfold. lia.
  - vm_compute. lia.
Defined.

(** ** The accessors *)

Lemma mapM_const {A B} (f : A → option B) (l : list A) (y : B) :
  (∀ a, a ∈ l → f a = Some y) → mapM f l = Some (replicate (length l) y).
Proof.
  intros Hall. induction l as [|a l IH]; [done|].
  cbn [mapM length replicate].
  rewrite (Hall a) by (apply elem_of_cons; by left). cbn.
  rewrite IH; [done|]. intros b Hb. apply Hall, elem_of_cons. by right.
Qed.

Section AccessorFacts.
Context {F : Type} `{FO : FloatOps F} `{U : Utils F} `{AL : Allocator}.

Lemma get_child_dense (n : CNode F) (m a : Z) :
  dom (children n) = list_to_set (seqZ 0 m) →
  0 ≤ a < m →
  m < 2 ^ 64 →
  get_child n (u64 a) = children n !! a.
Proof.
  intros Hdom Ha Hm. rewrite u64_small by lia. unfold get_child.
  rewrite <- size_dom, Hdom, size_list_to_set by apply NoDup_seqZ.
  rewrite length_seqZ, Z2Nat.id by lia.
  by destruct (Z.leb_spec m a); [lia|].
Qed.

Lemma expand_children_are_new (h h' : heap F) (this : addr) (n : CNode F)
    (tp cli bi : Z) (vp : F) (policy_logits : list F) :
  h !! this = Some n →
  (∀ i i', new_addr this i = new_addr this i' → i = i') →
  (∀ i, new_addr this i ≠ this) →
  expand h this tp cli bi vp policy_logits = Some h' →
  ∃ n', h' !! this = Some n'
    ∧ legal_actions n'
      = default_legal_actions n (Z.of_nat (length policy_logits))
    ∧ dom (children n') = dom (children n) ∪ list_to_set (legal_actions n')
    ∧ ∀ a, a ∈ legal_actions n' →
        ∃ c p, children n' !! a = Some c ∧ h' !! c = Some (CNode_new p []).
Proof.
  intros Hn Hinj Hself Hrun. unfold expand in Hrun. rewrite Hn in Hrun.
  cbn in Hrun.
  destruct (expand_max _ _ _) as [pm|]; [|done]. cbn in Hrun.
  destruct (expand_exp _ _ _ _ _) as [[ps pol]|]; [|done]. cbn in Hrun.
  destruct (expand_children _ _ _ _ _ _ _) as [[h1 ch]|] eqn:Hch; [|done].
  cbn in Hrun. injection Hrun as <-.
  eexists. split; [apply lookup_insert_eq|]. cbn. split; [done|].
  split; [by eapply expand_children_keys|]. intros a Ha.
  destruct (expand_children_child _ _ _ _ _ _ _ _ _ Hinj Hch a Ha)
    as (c & p & i & Hp & Hc & -> & Hnode).
  exists (new_addr this i), (fdiv p ps). split; [done|].
  by rewrite lookup_insert_ne by (intros Heq; by apply (Hself i)).
Qed.
End AccessorFacts.

(** X23.  Right after the expansion of a node without legal actions and
    without children, [get_children_distribution] returns one zero for each
    logit: every child is found and has no visit.  The allocator returns
    distinct addresses, none of them the node's own. *)
Theorem expand_then_distribution_zeros {F} `{FO : FloatOps F} `{U : Utils F}
    `{AL : Allocator} (h h' : heap F) (this : addr) (n : CNode F)
    (tp cli bi : Z) (vp : F) (policy_logits : list F) :
  h !! this = Some n →
  legal_actions n = [] →
  children n = ∅ →
  Z.of_nat (length policy_logits) < 2 ^ 31 →
  (∀ i i', new_addr this i = new_addr this i' → i = i') →
  (∀ i, new_addr this i ≠ this) →
  expand h this tp cli bi vp policy_logits = Some h' →
  ∃ n', h' !! this = Some n'
    ∧ get_children_distribution h' n'
      = Some (replicate (length policy_logits) 0).
Proof.
  intros Hn Hlegal Hch Hlen Hinj Hself Hrun.
  destruct (expand_children_are_new _ _ _ _ _ _ _ _ _ Hn Hinj Hself Hrun)
    as (n' & Hn' & Hl & Hdom & Hnew).
  unfold default_legal_actions in Hl. rewrite Hlegal in Hl. cbn in Hl.
  rewrite Hch, dom_empty_L, (left_id_L ∅ (∪)), Hl in Hdom.
  exists n'. split; [done|]. unfold get_children_distribution.
  destruct (expanded n') eqn:Hex.
  - rewrite (mapM_const _ _ 0).
    + by rewrite Hl, length_seqZ, Nat2Z.id.
    + intros a Ha. destruct (Hnew a Ha) as (c & p & Hc & Hnode).
      rewrite Hl in Ha. apply elem_of_seqZ in Ha.
      rewrite (get_child_dense _ _ _ Hdom) by lia.
      rewrite Hc. cbn. by rewrite Hnode.
  - unfold expanded in Hex. apply bool_decide_eq_false in Hex.
    assert (Hsize : size (children n') = 0%nat) by lia.
    rewrite <- size_dom, Hdom, size_list_to_set, length_seqZ, Nat2Z.id
      in Hsize by apply NoDup_seqZ.
    by rewrite Hsize.
Qed.

Lemma expand_then_distribution_zeros_witness :
  ∃ h', expand (U := Rat.utils) (AL := Rat.alloc)
          {[ 1%positive := CNode_new (Rat.Fin 0) [] ]} 1%positive (-1) 0 0
          (Rat.Fin 0) [Rat.Fin 0; Rat.Fin 0] = Some h'
    ∧ ∃ n', h' !! 1%positive = Some n'
      ∧ get_children_distribution h' n' = Some (replicate 2 0).
Proof.
  eexists. split; [vm_compute; reflexivity|].
  apply (expand_then_distribution_zeros (U := Rat.utils) (AL := Rat.alloc)
           {[ 1%positive := CNode_new (Rat.Fin 0) [] ]} _ 1%positive
           (CNode_new (Rat.Fin 0) []) (-1) 0 0 (Rat.Fin 0)
           [Rat.Fin 0; Rat.Fin 0]).
  - reflexivity.
  - reflexivity.
  - reflexivity.
  - reflexivity.
  - intros i i' Heq. cbn [new_addr Rat.alloc] in Heq. lia.
  - intros i. cbn [new_addr Rat.alloc]. lia.
  - vm_compute. reflexivity.
Defined.

(** ** The container of the roots *)

Lemma Forall_seq_lt (n m : nat) :
  Forall (λ i, (i < m)%nat) (seq 0 n) ↔ (n ≤ m)%nat.
Proof.
  rewrite Forall_forall. split.
  - intros Hall. destruct n as [|k]; [lia|].
    specialize (Hall k). rewrite elem_of_seq in Hall. lia.
  - intros Hle i Hi%elem_of_seq. lia.
Qed.

Section RootsFacts.
Context {F : Type} `{FO : FloatOps F} `{K : Consts}.

Lemma CRoots_push_spec (place : nat → addr) (lal : list (list Z))
    (ixs : list nat) (h h' : heap F) (rs rs' : list addr) :
  CRoots_push place lal ixs h rs = Some (h', rs') →
  rs' = rs ++ (place <$> ixs)
  ∧ (∀ i, i ∈ ixs →
       ∃ legal, h' !! place i = Some (CNode_new fzero legal))
  ∧ (∀ b legal, h !! b = Some (CNode_new fzero legal) →
       ∃ legal', h' !! b = Some (CNode_new fzero legal')).
Proof.
  revert h rs. induction ixs as [|i rest IH]; intros h rs Hrun.
  - cbn in Hrun. injection Hrun as <- <-.
    split; [by rewrite fmap_nil, (right_id_L [] (++))|].
    split; [by intros i Hi%elem_of_nil | eauto].
  - cbn [CRoots_push] in Hrun.
    destruct (lal !! i) as [legal|]; [|done]. cbn in Hrun.
    apply IH in Hrun as (-> & Hnew & Hold).
    split; [by rewrite fmap_cons, <- (assoc_L (++))|]. split.
    + intros j [->|Hj]%elem_of_cons; [|by apply Hnew].
      eapply Hold, lookup_insert_eq.
    + intros b legal' Hb. destruct (decide (place i = b)) as [<-|Hne].
      * eapply Hold, lookup_insert_eq.
      * eapply Hold. by rewrite lookup_insert_ne.
Qed.

Lemma CRoots_push_is_Some (place : nat → addr) (lal : list (list Z))
    (ixs : list nat) (h : heap F) (rs : list addr) :
  is_Some (CRoots_push place lal ixs h rs)
  ↔ Forall (λ i, (i < length lal)%nat) ixs.
Proof.
  revert h rs. induction ixs as [|i rest IH]; intros h rs;
    cbn [CRoots_push].
  - split; [constructor | eauto].
  - rewrite Forall_cons, <- lookup_lt_is_Some.
    destruct (lal !! i) as [legal|]; cbn.
    + rewrite IH. split; [eauto | tauto].
    + split; [by intros [? ?] | by intros [[? ?] _]].
Qed.

Lemma each_root_const {X} (h : heap F) (R : CRoots)
    (f : CNode F → option X) (y : X) :
  (∀ i, (i < Z.to_nat (root_num R))%nat →
     ∃ r n, roots R !! i = Some r ∧ h !! r = Some n ∧ f n = Some y) →
  each_root h R f = Some (replicate (Z.to_nat (root_num R)) y).
Proof.
  intros Hall. unfold each_root.
  rewrite (mapM_const _ _ y); [by rewrite length_seq|].
  intros i Hi%elem_of_seq.
  destruct (Hall i) as (r & n & -> & Hn & Hf); [lia|]. cbn.
  by rewrite Hn.
Qed.
End RootsFacts.

(** X24.  The constructor of [CRoots] runs to its end exactly when
    [legal_actions_list] has an entry for each of the [root_num] roots; the
    roots it builds have the value [0] and, for a [root_num] that is not
    negative, an empty distribution (they are not expanded) and an empty
    trajectory. *)
Theorem CRoots_new_fresh_roots {F} `{FO : FloatOps F} `{K : Consts}
    (place : nat → addr) (h : heap F) (rn : Z) (lal : list (list Z))
    (fuel : nat) :
  (is_Some (CRoots_new place h rn lal)
   ↔ (Z.to_nat rn ≤ length lal)%nat)
  ∧ ∀ h' R, CRoots_new place h rn lal = Some (h', R) →
      root_num R = rn
      ∧ length (roots R) = Z.to_nat rn
      ∧ get_values h' R = Some (replicate (Z.to_nat rn) fzero)
      ∧ (0 ≤ rn →
         get_distributions h' R = Some (replicate (Z.to_nat rn) [])
         ∧ get_trajectories fuel h' R = Some (replicate (Z.to_nat rn) [])).
Proof.
  split.
  - unfold CRoots_new.
    rewrite <- (Forall_seq_lt (Z.to_nat rn) (length lal)).
    rewrite <- (CRoots_push_is_Some place lal _ h []).
    destruct (CRoots_push _ _ _ _ _) as [[h1 rs]|]; cbn;
      split; intros [? ?]; eauto; done.
  - intros h' R Hrun. unfold CRoots_new in Hrun.
    destruct (CRoots_push _ _ _ _ _) as [[h1 rs]|] eqn:Hpush; [|done].
    cbn in Hrun. injection Hrun as <- <-.
    apply CRoots_push_spec in Hpush as (-> & Hnew & _). cbn [app] in *.
    split; [done|]. cbn [roots root_num].
    split; [by rewrite length_fmap, length_seq|].
    assert (Hroot : ∀ i, (i < Z.to_nat rn)%nat →
              ∃ legal, (place <$> seq 0 (Z.to_nat rn)) !! i = Some (place i)
                       ∧ h1 !! place i = Some (CNode_new fzero legal)).
    { intros i Hi. destruct (Hnew i) as [legal Hl];
        [apply elem_of_seq; lia|].
      exists legal. split; [|done].
      by rewrite list_lookup_fmap, lookup_seq_lt. }
    split; [|intros Hrn; unfold get_distributions, get_trajectories;
              cbn [root_num]; destruct (Z.ltb_spec rn 0); [lia|]; split];
      apply each_root_const; cbn [roots root_num]; intros i Hi;
      destruct (Hroot i Hi) as (legal & Hr & Hn);
      exists (place i), (CNode_new fzero legal);
      (split; [done|]); (split; [done|]); first [done | by destruct fuel].
Qed.

(** ** [update_tree_q] *)

#[local] Instance same_but_parent_prefix_refl {F} :
  Reflexive (@same_but_parent_prefix F).
Proof. by intros []. Qed.

#[local] Instance same_but_parent_prefix_trans {F} :
  Transitive (@same_but_parent_prefix F).
Proof.
  intros n1 n2 n3 H1 H2. unfold same_but_parent_prefix in *.
  rewrite H2, H1. reflexivity.
Qed.

Section UpdateTreeQFacts.
Context {F : Type} `{FO : FloatOps F} {St : Type} `{MM : MinMaxStats F St}.

Lemma push_expanded_rel (node : CNode F) (legal : list Z) (h h' : heap F)
    (stack stack' : list addr) :
  push_expanded node legal h stack = Some (h', stack') →
  heap_rel same_but_parent_prefix h h'.
Proof.
  revert h stack. induction legal as [|a rest IH]; intros h stack Hrun.
  - cbn in Hrun. injection Hrun as <- <-. apply heap_rel_refl, _.
  - cbn [push_expanded] in Hrun.
    destruct (get_child node (u64 a)) as [c|]; [|done]. cbn in Hrun.
    destruct (h !! c) as [child|] eqn:Hc; [|done]. cbn in Hrun.
    destruct (expanded child); [|by eapply IH].
    eapply heap_rel_trans; [apply _ | | by eapply IH].
    eapply heap_rel_insert; [apply _ | done | done].
Qed.

(** children that are not expanded are not pushed *)
Lemma push_expanded_leaves (node : CNode F) (legal : list Z) (h : heap F)
    (stack : list addr) :
  (∀ a, a ∈ legal →
     ∃ c child, get_child node (u64 a) = Some c ∧ h !! c = Some child
                ∧ expanded child = false) →
  push_expanded node legal h stack = Some (h, stack).
Proof.
  intros Hall. induction legal as [|a rest IH]; [done|].
  cbn [push_expanded].
  destruct (Hall a) as (c & child & -> & Hc & Hex);
    [apply elem_of_cons; by left|].
  cbn. rewrite Hc. cbn. rewrite Hex. apply IH.
  intros b Hb. apply Hall, elem_of_cons. by right.
Qed.

Lemma update_tree_q_loop_rel (fuel : nat) (root : addr) (γ : F) (players : Z)
    (stack : list addr) (reset : Z) (h h' : heap F) (stats stats' : St) :
  update_tree_q_loop fuel root γ players stack reset h stats
  = Some (h', stats') →
  heap_rel same_but_parent_prefix h h'.
Proof.
  revert stack reset h stats.
  induction fuel as [|fuel IH]; intros stack reset h stats Hrun.
  - destruct stack; [|done]. cbn in Hrun. injection Hrun as <- <-.
    apply heap_rel_refl, _.
  - destruct stack as [|a stack].
    { cbn in Hrun. injection Hrun as <- <-. apply heap_rel_refl, _. }
    cbn [update_tree_q_loop] in Hrun.
    destruct (h !! a) as [node|]; [|done]. cbn in Hrun.
    destruct (if decide (a = root) then _ else _) as [stats1|]; [|done].
    cbn in Hrun.
    destruct (push_expanded _ _ _ _) as [[h1 stack1]|] eqn:Hpush; [|done].
    cbn in Hrun.
    eapply heap_rel_trans; [apply _ | by eapply push_expanded_rel |].
    by eapply IH.
Qed.
End UpdateTreeQFacts.

(** X25.  [update_tree_q] writes [parent_value_prefix] and nothing else: the
    heap keeps its addresses, and every node keeps its visit count, value
    sum, prior, value prefix, reset flag, children and all other fields. *)
Theorem update_tree_q_only_parent_prefixes {F} `{FO : FloatOps F}
    {St : Type} `{MM : MinMaxStats F St} (fuel : nat) (h h' : heap F)
    (root : addr) (stats stats' : St) (γ : F) (players : Z) :
  update_tree_q fuel h root stats γ players = Some (h', stats') →
  dom h' = dom h
  ∧ ∀ a n', h' !! a = Some n' →
      ∃ n, h !! a = Some n
           ∧ n' = set_parent_value_prefix n (parent_value_prefix n').
Proof.
  intros Hrun. apply update_tree_q_loop_rel in Hrun.
  split; [by eapply heap_rel_dom|]. intros a n' Hn'.
  exact (heap_rel_lookup_r same_but_parent_prefix _ _ _ _ Hrun Hn').
Qed.

Lemma update_tree_q_only_parent_prefixes_witness :
  ∃ h' stats',
    update_tree_q 5 Tie.h 1%positive Example.no_stats (Rat.Fin 1) 1
    = Some (h', stats')
    ∧ dom h' = dom Tie.h
    ∧ ∀ a n', h' !! a = Some n' →
        ∃ n, Tie.h !! a = Some n
             ∧ n' = set_parent_value_prefix n (parent_value_prefix n').
Proof.
  eexists _, _. split; [vm_compute; reflexivity|].
  eapply (update_tree_q_only_parent_prefixes 5 Tie.h _ 1%positive
            Example.no_stats _ (Rat.Fin 1) 1).
  vm_compute. reflexivity.
Defined.

(** X26.  [update_tree_q] submits nothing for the root and descends into
    expanded children only: on a root all of whose legal children exist and
    are not expanded it leaves the statistics and the heap as they are,
    whatever the player count. *)
Theorem update_tree_q_unexpanded_children {F} `{FO : FloatOps F}
    {St : Type} `{MM : MinMaxStats F St} (fuel : nat) (h : heap F)
    (root : addr) (n : CNode F) (stats : St) (γ : F) (players : Z) :
  h !! root = Some n →
  (∀ a, a ∈ legal_actions n →
     ∃ c child, get_child n (u64 a) = Some c ∧ h !! c = Some child
                ∧ expanded child = false) →
  update_tree_q (S fuel) h root stats γ players = Some (h, stats).
Proof.
  intros Hn Hall. unfold update_tree_q. cbn [update_tree_q_loop].
  rewrite Hn. cbn. rewrite decide_True by done. cbn.
  rewrite (push_expanded_leaves _ _ _ _ Hall). cbn. by destruct fuel.
Qed.

Lemma update_tree_q_unexpanded_children_witness :
  update_tree_q 1 Tie.h 1%positive Example.no_stats (Rat.Fin 1) 3
  = Some (Tie.h, Example.no_stats).
Proof.
  apply (update_tree_q_unexpanded_children 0 Tie.h 1%positive Tie.root
           Example.no_stats (Rat.Fin 1) 3).
  - reflexivity.
  - intros a Ha. cbn in Ha.
    apply elem_of_cons in Ha as [->|Ha];
      [by exists 2%positive, Tie.child0|].
    apply elem_of_cons in Ha as [->|Ha];
      [by exists 3%positive, Tie.child1|].
    by apply elem_of_nil in Ha.
Defined.

(** ** The values that [cbackpropagate] adds *)

Section BootstrapFacts.
Context {F : Type} `{FO : FloatOps F} {St : Type} `{MM : MinMaxStats F St}.

Lemma parent_info_rel (h0 h : heap F) (path : list addr) (i : nat) :
  heap_rel same_but_visits h0 h →
  parent_info h path i = parent_info h0 path i.
Proof.
  intros Hrel. destruct i as [|i]; [done|]. cbn.
  destruct (path !! i) as [pa|]; [|done]. cbn.
  specialize (Hrel pa). destruct Hrel as [p0 p Hp|]; [|done]. cbn.
  by rewrite Hp.
Qed.

(** one turn of either loop: the node at [a] receives [x], and the loop
    goes on with [h1] *)
Lemma bootstrap_step (h0 h : heap F) (path : list addr) (i : nat) (a : addr)
    (node : CNode F) (x : F) :
  heap_rel same_but_visits h0 h →
  h !! a = Some node →
  ∃ node0, h0 !! a = Some node0
    ∧ value_prefix node0 = value_prefix node
    ∧ to_play node0 = to_play node
    ∧ heap_rel same_but_visits h0
        (<[a := incr_visit_count (add_value_sum node x)]> h).
Proof.
  intros Hrel Hnode.
  destruct (heap_rel_lookup_r _ _ _ _ _ Hrel Hnode) as (node0 & Hnode0 & Hs).
  exists node0. split; [done|]. rewrite Hs. cbn. split; [done|].
  split; [done|]. intros b. destruct (decide (a = b)) as [<-|Hne].
  - rewrite lookup_insert_eq, Hnode0. constructor.
    unfold same_but_visits. by destruct node0.
  - rewrite lookup_insert_ne by done. apply Hrel.
Qed.

Lemma added_step (tp : Z) (path : list addr) (i : nat) (a : addr)
    (node : CNode F) (bv : F) (Bs : list F) (h h' : heap F) :
  NoDup (take (S i) path) →
  path !! i = Some a →
  h !! a = Some node →
  length Bs = i →
  backprop_effect (take i path)
    (<[a := incr_visit_count (add_value_sum node (signed_for tp node bv))]> h)
    h' →
  added tp path i Bs
    (<[a := incr_visit_count (add_value_sum node (signed_for tp node bv))]> h)
    h' →
  added tp path (S i) (Bs ++ [bv]) h h'.
Proof.
  intros Hnd Hi Hnode Hlen Heff Hadd j b n Hj Hb Hn.
  rewrite (take_S_r _ _ _ Hi) in Hnd.
  apply NoDup_app in Hnd as (_ & Hnin & _).
  assert (Ha : a ∉ take i path).
  { intros Hin. apply (Hnin _ Hin). by apply list_elem_of_singleton. }
  destruct (decide (j = i)) as [->|Hne].
  - rewrite Hi in Hb. injection Hb as <-. rewrite Hnode in Hn.
    injection Hn as <-. exists bv. split.
    + by rewrite lookup_app_r, Hlen, Nat.sub_diag by lia.
    + destruct (Heff a _ (lookup_insert_eq _ _ _)) as (n' & Hn' & _ & _ & Hu).
      by rewrite Hn', (Hu Ha).
  - assert (Hba : a ≠ b).
    { intros <-. apply Ha. apply list_elem_of_lookup. exists j.
      rewrite lookup_take_lt by lia. done. }
    destruct (Hadd j b n) as (B & HB & Hb');
      [lia | done | by rewrite lookup_insert_ne|].
    exists B. split; [|done].
    rewrite lookup_app_l by (apply lookup_lt_Some in HB; lia). done.
Qed.

Lemma bootstrap_from_last (h : heap F) (path : list addr) (tp : Z) (γ : F)
    (k : nat) (bv : F) (acc res : list F) :
  bootstrap_from h path tp γ k bv acc = Some res →
  ∃ pre, res = pre ++ acc ∧ ((0 < k)%nat → last pre = Some bv).
Proof.
  revert bv acc. induction k as [|i IH]; intros bv acc Hrun.
  - cbn in Hrun. injection Hrun as <-. exists []. split; [done | lia].
  - cbn [bootstrap_from] in Hrun.
    destruct (path !! i) as [a|]; [|done]. cbn in Hrun.
    destruct (h !! a) as [node|]; [|done]. cbn in Hrun.
    destruct (parent_info _ _ _) as [[pvp r]|]; [|done]. cbn in Hrun.
    apply IH in Hrun as (pre & -> & _).
    exists (pre ++ [bv]). split; [by rewrite <- (assoc_L (++))|].
    intros _. apply last_snoc.
Qed.

Lemma backprop_single_bootstrap (h0 : heap F) (path : list addr) (γ : F)
    (k : nat) (h h' : heap F) (stats stats' : St) (bv : F) :
  heap_rel same_but_visits h0 h →
  NoDup (take k path) →
  backprop_single path γ k h stats bv = Some (h', stats') →
  ∃ Bs, (∀ acc, bootstrap_from h0 path (-1) γ k bv acc = Some (Bs ++ acc))
    ∧ length Bs = k
    ∧ added (-1) path k Bs h h'.
Proof.
  revert h stats bv. induction k as [|i IH]; intros h stats bv Hrel Hnd Hrun.
  - exists []. split; [done|]. split; [done|]. intros j a n Hj. lia.
  - cbn [backprop_single] in Hrun.
    destruct (path !! i) as [a|] eqn:Hi; [|done]. cbn in Hrun.
    destruct (h !! a) as [node|] eqn:Hnode; [|done]. cbn in Hrun.
    destruct (bootstrap_step h0 h path i a node bv Hrel Hnode)
      as (node0 & Hnode0 & Hvp & Htp & Hrel1).
    rewrite (parent_info_rel h0) in Hrun by done.
    destruct (parent_info h0 path i) as [[pvp r]|] eqn:Hpi; [|done].
    cbn in Hrun.
    pose proof (backprop_single_effect _ _ _ _ _ _ _ _ Hrun) as Heff.
    assert (Hnd' : NoDup (take i path)).
    { rewrite (take_S_r _ _ _ Hi) in Hnd. by apply NoDup_app in Hnd as (? & _). }
    destruct (IH _ _ _ Hrel1 Hnd' Hrun) as (Bs & Hboot & Hlen & Hadd).
    exists (Bs ++ [bv]). split; [|split].
    + intros acc. cbn [bootstrap_from]. rewrite Hi. cbn. rewrite Hnode0. cbn.
      rewrite Hpi. cbn. rewrite Hvp, <- (assoc_L (++)). cbn. apply Hboot.
    + rewrite length_app. cbn. lia.
    + by eapply (added_step (-1)).
Qed.

Lemma backprop_two_bootstrap (h0 : heap F) (path : list addr) (tp : Z)
    (γ : F) (k : nat) (h h' : heap F) (stats stats' : St) (bv : F) :
  tp ≠ -1 →
  heap_rel same_but_visits h0 h →
  NoDup (take k path) →
  backprop_two path tp γ k h stats bv = Some (h', stats') →
  ∃ Bs, (∀ acc, bootstrap_from h0 path tp γ k bv acc = Some (Bs ++ acc))
    ∧ length Bs = k
    ∧ added tp path k Bs h h'.
Proof.
  intros Htp. apply Z.eqb_neq in Htp.
  revert h stats bv. induction k as [|i IH]; intros h stats bv Hrel Hnd Hrun.
  - exists []. split; [done|]. split; [done|]. intros j a n Hj. lia.
  - cbn [backprop_two] in Hrun.
    destruct (path !! i) as [a|] eqn:Hi; [|done]. cbn in Hrun.
    destruct (h !! a) as [node|] eqn:Hnode; [|done]. cbn in Hrun.
    assert (Hsigned : (if to_play node =? tp then bv else fneg bv)
                      = signed_for tp node bv)
      by (unfold signed_for; by rewrite Htp).
    rewrite Hsigned in Hrun.
    destruct (bootstrap_step h0 h path i a node (signed_for tp node bv)
                Hrel Hnode) as (node0 & Hnode0 & Hvp & Hto & Hrel1).
    rewrite (parent_info_rel h0) in Hrun by done.
    destruct (parent_info h0 path i) as [[pvp r]|] eqn:Hpi; [|done].
    cbn in Hrun.
    pose proof (backprop_two_effect _ _ _ _ _ _ _ _ _ Hrun) as Heff.
    assert (Hnd' : NoDup (take i path)).
    { rewrite (take_S_r _ _ _ Hi) in Hnd. by apply NoDup_app in Hnd as (? & _). }
    destruct (IH _ _ _ Hrel1 Hnd' Hrun) as (Bs & Hboot & Hlen & Hadd).
    exists (Bs ++ [bv]). split; [|split].
    + intros acc. cbn [bootstrap_from]. rewrite Hi. cbn. rewrite Hnode0. cbn.
      rewrite Hpi. cbn. rewrite Hvp, Hto, Htp, <- (assoc_L (++)). cbn.
      apply Hboot.
    + rewrite length_app. cbn. lia.
    + by eapply (added_step tp).
Qed.
End BootstrapFacts.

(** X27.  For a search path without repetition [cbackpropagate] adds to
    [value_sum] of the node with index [i] the bootstrap value [B_i], the
    opposite value in self-play when the node is not to play, where the
    values are those of the heap before the call: [B] of the last node is
    [value], and [B_(i-1)] is [true_reward_i + discount_factor * B_i]
    ([- true_reward_i + ...] in self-play when the node [i] is to play),
    with [true_reward_i] the difference of the value prefixes of the node
    and its parent, or the value prefix of the node when the parent has
    [is_reset] set. *)
Theorem cbackpropagate_adds_bootstrap_values {F} `{FO : FloatOps F}
    {St : Type} `{MM : MinMaxStats F St} (h h' : heap F) (path : list addr)
    (stats stats' : St) (tp : Z) (v γ : F) :
  NoDup path →
  cbackpropagate h path stats tp v γ = Some (h', stats') →
  ∃ Bs, bootstrap_values h path tp v γ = Some Bs
    ∧ length Bs = length path
    ∧ (path ≠ [] → last Bs = Some v)
    ∧ ∀ i a n, path !! i = Some a → h !! a = Some n →
        ∃ B, Bs !! i = Some B
          ∧ h' !! a
            = Some (incr_visit_count
                      (add_value_sum n (signed_for tp n B))).
Proof.
  intros Hnd Hrun. unfold cbackpropagate in Hrun.
  destruct (_ || _); [|done].
  assert (Hrel : heap_rel same_but_visits h h) by apply heap_rel_refl, _.
  rewrite <- (firstn_all path) in Hnd.
  assert (∃ Bs, (∀ acc, bootstrap_from h path tp γ (length path) v acc
                        = Some (Bs ++ acc))
            ∧ length Bs = length path
            ∧ added tp path (length path) Bs h h')
    as (Bs & Hboot & Hlen & Hadd).
  { destruct (Z.eqb_spec tp (-1)) as [->|Htp].
    - by eapply backprop_single_bootstrap.
    - by eapply backprop_two_bootstrap. }
  exists Bs. unfold bootstrap_values.
  pose proof (Hboot []) as Hb. rewrite (right_id_L [] (++)) in Hb.
  split; [done|]. split; [done|]. split.
  - intros Hne. apply bootstrap_from_last in Hb as (pre & Hpre & Hlast).
    rewrite (right_id_L [] (++)) in Hpre. subst pre. apply Hlast.
    destruct path; [done | cbn; lia].
  - intros i a n Hi Hn. apply (Hadd i a n); [|done|done].
    by eapply lookup_lt_Some.
Qed.

Lemma cbackpropagate_adds_bootstrap_values_witness :
  ∃ h' stats' Bs,
    cbackpropagate Reset.h [1%positive; 2%positive] Example.no_stats (-1)
      (Rat.Fin 0) (Rat.Fin 1) = Some (h', stats')
    ∧ bootstrap_values Reset.h [1%positive; 2%positive] (-1) (Rat.Fin 0)
        (Rat.Fin 1) = Some Bs
    ∧ Bs = [Rat.Fin 3; Rat.Fin 0]
    ∧ length Bs = length [1%positive; 2%positive]
    ∧ ([1%positive; 2%positive] ≠ [] → last Bs = Some (Rat.Fin 0))
    ∧ ∀ i a n, [1%positive; 2%positive] !! i = Some a →
        Reset.h !! a = Some n →
        ∃ B, Bs !! i = Some B
          ∧ h' !! a
            = Some (incr_visit_count
                      (add_value_sum n (signed_for (-1) n B))).
Proof.
  destruct (cbackpropagate_adds_bootstrap_values Reset.h
              (<[2%positive := incr_visit_count
                                 (add_value_sum Reset.child (Rat.Fin 0))]>
                 (<[1%positive := incr_visit_count
                                    (add_value_sum Reset.parent (Rat.Fin 3))]>
                    Reset.h))
              [1%positive; 2%positive] Example.no_stats
              (update (update Example.no_stats (Rat.Fin (-2)))
                 (Rat.Fin (13 # 2)))
              (-1) (Rat.Fin 0) (Rat.Fin 1))
    as (Bs & HBs & Hlen & Hlast & Hall).
  - apply (bool_decide_unpack _). vm_compute. exact I.
  - vm_compute. reflexivity.
  - eexists _, _, Bs. split; [vm_compute; reflexivity|].
    split; [done|]. split; [|done].
    vm_compute in HBs. by injection HBs as <-.
Defined.

(** ** [compute_mean_q] below the root *)

(** X28.  Called with [isRoot = 0] on a node all of whose child lookups
    succeed, [compute_mean_q] counts [parent_q] as one more sample: it
    returns [(parent_q + sum of qsa) / (visited children + 1)], the sum over
    the visited children it looked up. *)
Theorem compute_mean_q_below_root {F} `{FO : FloatOps F} `{K : Consts}
    (h : heap F) (n : CNode F) (parent_q γ : F) (cs : list (CNode F)) :
  looked_up_children h n = Some cs →
  compute_mean_q h n 0 parent_q γ
  = Some (fdiv (fadd parent_q (fsum (qsa_of n γ <$> visited cs)))
               (of_int (Z.of_nat (length (visited cs)) + 1))).
Proof.
  intros Hcs. unfold compute_mean_q, looked_up_children in *.
  rewrite (mean_q_loop_views _ _ _ _ _ _ _ Hcs). cbn.
  by rewrite Z.add_0_l.
Qed.

Lemma compute_mean_q_below_root_witness :
  compute_mean_q (K := Rat.consts_1_2) Tie.h Tie.root 0 (Rat.Fin 1) (Rat.Fin 1)
  = Some (fdiv (fadd (Rat.Fin 1)
                  (fsum (qsa_of Tie.root (Rat.Fin 1)
                           <$> visited [Tie.child0; Tie.child1])))
               (of_int (Z.of_nat (length (visited [Tie.child0; Tie.child1]))
                        + 1))).
Proof.
  apply (compute_mean_q_below_root (K := Rat.consts_1_2) Tie.h Tie.root
           (Rat.Fin 1) (Rat.Fin 1) [Tie.child0; Tie.child1]).
  vm_compute. reflexivity.
Defined.

(** ** [get_trajectory] after a traversal *)

Section TrajectoryFacts.
Context {F : Type} `{FO : FloatOps F} `{K : Consts} `{U : Utils F}
        {St : Type} `{MM : MinMaxStats F St}.

Lemma trajectory_loop_unfold (fuel : nat) (h : heap F) (node : CNode F)
    (traj : list (list Z)) :
  trajectory_loop fuel h node traj
  = (b0 ← index (best_action node) 0;
     if 0 <=? b0 then
       match fuel with
       | O => None
       | S fuel' =>
           c ← get_child_vec node (best_action node);
           child ← h !! c;
           trajectory_loop fuel' h child (traj ++ [best_action node])
       end
     else Some traj).
Proof. by destruct fuel. Qed.

Lemma recorded_tail (h : heap F) (a : addr) (path : list addr) :
  recorded h (a :: path) → recorded h path.
Proof. intros Hrec i x y Hx Hy. by apply (Hrec (S i)). Qed.

(** [get_trajectory] follows a recorded path as long as the first entries of
    the best actions are not negative *)
Lemma trajectory_loop_recorded (h : heap F) (path : list addr) (a0 : addr)
    (n0 : CNode F) (fuel : nat) (traj : list (list Z))
    (front : list (CNode F)) (nl : CNode F) :
  h !! a0 = Some n0 →
  recorded h (a0 :: path) →
  mapM (λ a, h !! a) (a0 :: path) = Some (front ++ [nl]) →
  Forall (λ n, ∃ b, index (best_action n) 0 = Some b ∧ 0 ≤ b) front →
  (∃ b, index (best_action nl) 0 = Some b ∧ b < 0) →
  (length front ≤ fuel)%nat →
  trajectory_loop fuel h n0 traj = Some (traj ++ (best_action <$> front)).
Proof.
  revert a0 n0 fuel traj front.
  induction path as [|a1 path IH];
    intros a0 n0 fuel traj front Hn0 Hrec Hns Hfront Hnl Hfuel;
    cbn [mapM] in Hns; rewrite Hn0 in Hns; cbn in Hns.
  - injection Hns as Hns. destruct front as [|x front]; cbn in Hns.
    + injection Hns as <-. destruct Hnl as (b & Hb & Hneg).
      rewrite trajectory_loop_unfold, Hb. cbn.
      destruct (Z.leb_spec 0 b); [lia|]. by rewrite (right_id_L [] (++)).
    + injection Hns as _ Hns. by destruct front.
  - destruct (h !! a1) as [n1|] eqn:Hn1; [|done]. cbn in Hns.
    destruct (mapM _ path) as [ns|] eqn:Hpath; [|done]. cbn in Hns.
    injection Hns as Hns.
    destruct front as [|x front]; cbn in Hns; [by destruct ns|].
    injection Hns as <- Hns.
    apply Forall_cons in Hfront as [(b & Hb & Hpos) Hfront].
    destruct fuel as [|fuel]; [cbn in Hfuel; lia|].
    destruct (Hrec 0%nat a0 a1 eq_refl eq_refl) as (n & Hn & Hc).
    rewrite Hn0 in Hn. injection Hn as <-.
    cbn [trajectory_loop]. rewrite Hb. cbn.
    destruct (Z.leb_spec 0 b); [|lia].
    rewrite Hc. cbn. rewrite Hn1. cbn.
    rewrite (IH a1 n1 fuel _ front); [by rewrite <- (assoc_L (++))| done |
      by eapply recorded_tail | | done | done | cbn in Hfuel; lia].
    cbn [mapM]. rewrite Hn1. cbn. rewrite Hpath. cbn. by rewrite Hns.
Qed.

Variables (stats : St) (base : Z) (init γ : F) (players : Z) (rand : nat → Z).

Lemma traverse_loop_recorded (fuel : nat) (h0 h' : heap F) (w0 w' : Walk F) :
  acyclic h0 →
  last (w_path w0) = Some (w_node w0) →
  chain h0 (w_path w0) →
  recorded h0 (w_path w0) →
  traverse_loop fuel stats base init γ players rand h0 w0 = Some (h', w') →
  recorded h' (w_path w').
Proof.
  intros Hacyc Hlast Hchain Hrec Hrun.
  pose (P := λ (h : heap F) (w : Walk F),
    heap_rel same_but_best_action h0 h
    ∧ last (w_path w) = Some (w_node w)
    ∧ chain h0 (w_path w)
    ∧ recorded h (w_path w)).
  destruct (traverse_loop_steps stats base init γ players rand P fuel h0 h'
              w0 w') as [HP _]; [| |exact Hrun|].
  - clear Hrun Hlast Hchain Hrec.
    intros h w h1 w1 (Hrel & Hlast & Hch & Hrec) Hstep.
    pose proof (walk_step_rel _ _ _ _ _ _ _ _ _ _ Hstep) as Hrel1.
    pose proof (walk_step_child _ _ _ _ _ _ _ _ _ _ Hstep)
      as (Hchild & Hpath & Hl).
    assert (Hch1 : chain h0 (w_path w1)).
    { rewrite Hpath. eapply chain_snoc; [done | done |].
      by apply (child_of_rel _ _ _ _ Hrel). }
    split; [by eapply heap_rel_trans; [apply _| |]|].
    split; [by rewrite Hpath, last_snoc|]. split; [done|].
    pose proof (chain_NoDup _ _ Hacyc Hch1) as Hnd.
    destruct Hstep as (n & mq & actions & rng & vtp & c & Hn & _ & _ & _ & _
                       & Hc & -> & ->).
    cbn in Hpath, Hnd |- *. intros i a b Ha Hb.
    rewrite last_lookup in Hlast.
    destruct (decide (S i < length (w_path w))%nat) as [Hlt|Hge].
    + rewrite lookup_app_l in Ha by lia. rewrite lookup_app_l in Hb by lia.
      destruct (Hrec i a b Ha Hb) as (na & Hna & Hca).
      exists na. split; [|done].
      rewrite lookup_insert_ne; [done|]. intros <-.
      apply NoDup_app in Hnd as (Hnd & _).
      rewrite NoDup_alt in Hnd.
      pose proof (Hnd _ _ _ Hlast Ha). lia.
    + assert (Hi : S i = length (w_path w)).
      { apply lookup_lt_Some in Hb. rewrite length_app in Hb. cbn in Hb.
        lia. }
      rewrite lookup_app_l in Ha by lia.
      rewrite lookup_app_r, Hi, Nat.sub_diag in Hb by lia.
      cbn in Hb. injection Hb as <-.
      replace (pred (length (w_path w))) with i in Hlast by lia.
      rewrite Ha in Hlast. injection Hlast as ->.
      exists (set_best_action n actions).
      split; [apply lookup_insert_eq | done].
  - split; [apply heap_rel_refl, _|]. done.
  - by destruct HP as (_ & _ & _ & ?).
Qed.

Lemma traverse_root_recorded (fuel : nat) (root : addr) (vtp : Z)
    (h h' : heap F) (sh sh' : Shared F) (slot : SearchSlot) :
  acyclic h →
  traverse_root fuel stats base init γ players rand root vtp h sh
  = Some (h', sh', slot) →
  recorded h' (search_path slot).
Proof.
  intros Hacyc Hrun. unfold traverse_root in Hrun.
  destruct (traverse_loop _ _ _ _ _ _ _ _ _) as [[h1 w]|] eqn:Hw; [|done].
  cbn in Hrun.
  destruct (second_to_last (w_path w)) as [pa|]; [|done]. cbn in Hrun.
  destruct (h1 !! pa) as [parent|]; [|done]. cbn in Hrun.
  injection Hrun as <- <- <-. cbn.
  eapply traverse_loop_recorded; [done | | | | exact Hw]; cbn;
    [done | by intros i a b Ha Hb | by intros i a b Ha Hb].
Qed.
End TrajectoryFacts.

(** the traversal of a batch of one root *)
Lemma cbatch_traverse_single {F} `{FO : FloatOps F} `{K : Consts}
    `{U : Utils F} {St : Type} `{MM : MinMaxStats F St}
    (fuel : nat) (rand : nat → Z) (h : heap F) (root : addr) (base : Z)
    (init γ : F) (stats : St) (vtp : Z) :
  cbatch_traverse fuel rand h (mkCRoots 1 [root]) base init γ [stats] 1 [vtp]
  = players ← infer_players [vtp];
    '(h', _, slot) ←
       traverse_root fuel stats base init γ players rand root vtp h
         (mkShared fzero 0%nat);
    Some (h', mkResults 1 [slot], [virtual_to_play slot]).
Proof.
  unfold cbatch_traverse. change (Z.to_nat 1) with 1%nat.
  change (1 <=? length [vtp])%nat with true. cbv iota.
  destruct (infer_players [vtp]) as [players|]; [|done].
  change (seq 0 1) with [0]%nat.
  cbn [mbind option_bind traverse_batch roots lookup list_lookup].
  by destruct (traverse_root _ _ _ _ _ _ _ _ _ _ _) as [[[h1 sh] slot]|].
Qed.

(** X29.  After the traversal of one root in a heap without cycles,
    [get_trajectory] from the root returns the best actions of the nodes of
    the search path but the leaf, in order, one for each of the
    [search_len] steps: as long as the first entry of each of them is not
    negative (no selection fell back to the vector of [-1]s) and the one of
    the leaf is. *)
Theorem get_trajectory_replays_search_path {F} `{FO : FloatOps F}
    `{K : Consts} `{U : Utils F} {St : Type} `{MM : MinMaxStats F St}
    (fuel : nat) (rand : nat → Z) (h h' : heap F) (root : addr) (base : Z)
    (init γ : F) (stats : St) (vtp : Z) (res : CSearchResults)
    (vtps' : list Z) :
  acyclic h →
  cbatch_traverse fuel rand h (mkCRoots 1 [root]) base init γ [stats] 1 [vtp]
  = Some (h', res, vtps') →
  ∃ slot,
    slots res = [slot]
    ∧ ∀ front nl n0 fuel',
        mapM (λ a, h' !! a) (search_path slot) = Some (front ++ [nl]) →
        Forall (λ n, ∃ b, index (best_action n) 0 = Some b ∧ 0 ≤ b) front →
        (∃ b, index (best_action nl) 0 = Some b ∧ b < 0) →
        h' !! root = Some n0 →
        (length front ≤ fuel')%nat →
        Z.of_nat (length front) = search_len slot
        ∧ get_trajectory fuel' h' n0 = Some (best_action <$> front).
Proof.
  intros Hacyc Hrun. rewrite cbatch_traverse_single in Hrun.
  destruct (infer_players [vtp]) as [players|]; [|done]. cbn in Hrun.
  destruct (traverse_root _ _ _ _ _ _ _ _ _ _ _) as [[[h1 sh] slot]|] eqn:Hr;
    [|done].
  cbn in Hrun. injection Hrun as <- <- <-. exists slot. split; [done|].
  intros front nl n0 fuel' Hns Hfront Hnl Hn0 Hfuel.
  pose proof (traverse_root_recorded _ _ _ _ _ _ _ _ _ _ _ _ _ _ Hacyc Hr)
    as Hrec.
  apply traverse_root_slot in Hr as (_ & (ext & Hext & Hlen) & _).
  rewrite Hext in Hns, Hrec. split.
  - apply length_mapM in Hns. rewrite length_app in Hns. cbn in Hns. lia.
  - unfold get_trajectory.
    by rewrite (trajectory_loop_recorded h1 ext root n0 fuel' [] front nl).
Qed.

Lemma get_trajectory_replays_search_path_witness :
  ∃ h' res vtps' slot,
    Alone.traverse = Some (h', res, vtps')
    ∧ slots res = [slot]
    ∧ search_path slot = [1%positive; 17%positive]
    ∧ get_trajectory (K := Rat.consts_1_2) 1 h'
        (set_best_action Pair.root1 [0]) = Some [[0]].
Proof.
  destruct (get_trajectory_replays_search_path (K := Rat.consts_1_2) 5
              Pair.counting Pair.tree1
              (<[1%positive := set_best_action Pair.root1 [0]]> Pair.tree1)
              1%positive 19652 (Rat.Fin (5 # 4)) (Rat.Fin 1)
              Example.no_stats (-1)
              (mkResults 1 [mkSlot [1%positive; 17%positive] 0 0 [0] 1 (-1)
                              17%positive])
              [-1]) as (slot & Hslot & Hall).
  - apply (acyclic_decide _ Pos.to_nat).
    apply (bool_decide_unpack _). vm_compute. exact I.
  - vm_compute. reflexivity.
  - cbn in Hslot. injection Hslot as <-.
    eexists _, _, _, _. split; [vm_compute; reflexivity|].
    split; [done|]. split; [done|].
    apply (Hall [set_best_action Pair.root1 [0]] Pair.unvisited_child).
    + vm_compute. reflexivity.
    + repeat constructor. exists 0. split; [reflexivity | lia].
    + exists (-1). split; [reflexivity | lia].
    + vm_compute. reflexivity.
    + cbn. lia.
Defined.

(** ** [CRoots::prepare] and [CRoots::prepare_no_noise] *)

Lemma prepared_as_prior_l {F} (i : nat) (tp : Z) (vp : F) (pol : list F)
    (n n0 n' : CNode F) :
  same_but_prior n n0 → prepared_as i tp vp pol n0 n' →
  prepared_as i tp vp pol n n'.
Proof. intros ->. done. Qed.

Lemma prepared_as_prior_r {F} (i : nat) (tp : Z) (vp : F) (pol : list F)
    (n n1 n' : CNode F) :
  prepared_as i tp vp pol n n1 → same_but_prior n1 n' →
  prepared_as i tp vp pol n n'.
Proof. intros H ->. done. Qed.

Section PrepareFacts.
Context {F : Type} `{FO : FloatOps F} `{U : Utils F} `{AL : Allocator}.

Lemma expand_prepared (h h1 : heap F) (r : addr) (n : CNode F) (i : nat)
    (tp : Z) (vp : F) (pol : list F) :
  h !! r = Some n →
  expand h r tp 0 (Z.of_nat i) vp pol = Some h1 →
  ∃ n1, h1 !! r = Some n1
    ∧ prepared_as i tp vp pol n (incr_visit_count n1).
Proof.
  intros Hn He.
  destruct (expand_lookup_this _ _ _ _ _ _ _ _ _ Hn He) as [ch Hn1].
  destruct (expand_node _ _ _ _ _ _ _ _ _ Hn He) as (n1 & Hn1' & Hl & Hdom).
  rewrite Hn1 in Hn1'. injection Hn1' as <-.
  eexists. split; [done|]. by repeat split.
Qed.

Lemma prepare_no_noise_root_prepares (R : CRoots) (vps : list F)
    (pols : list (list F)) (tps : list Z) :
  prepares R vps pols tps (prepare_no_noise_root R vps pols tps).
Proof.
  intros h h' i Hrun. unfold prepare_no_noise_root in Hrun.
  destruct (roots R !! i) as [r|]; [|done]. cbn in Hrun.
  destruct (tps !! i) as [tp|]; [|done]. cbn in Hrun.
  destruct (vps !! i) as [vp|]; [|done]. cbn in Hrun.
  destruct (pols !! i) as [pol|]; [|done]. cbn in Hrun.
  destruct (expand _ _ _ _ _ _ _) as [h1|] eqn:He; [|done]. cbn in Hrun.
  destruct (h1 !! r) as [n1|] eqn:Hn1; [|done]. cbn in Hrun.
  injection Hrun as <-. exists r, tp, vp, pol. repeat split; try done.
  - intros n Hn. destruct (expand_prepared _ _ _ _ _ _ _ _ Hn He)
      as (n1' & Hn1' & Hprep).
    rewrite Hn1 in Hn1'. injection Hn1' as <-.
    eexists. split; [apply lookup_insert_eq | done].
  - intros b n Hb Hnew Hn. exists n. split; [|done].
    rewrite lookup_insert_ne by done.
    by rewrite (expand_lookup_other _ _ _ _ _ _ _ _ _ He Hb Hnew).
Qed.

Lemma prepare_root_prepares (R : CRoots) (w : F) (noises : list (list F))
    (vps : list F) (pols : list (list F)) (tps : list Z) :
  prepares R vps pols tps (prepare_root R w noises vps pols tps).
Proof.
  intros h h' i Hrun. unfold prepare_root in Hrun.
  destruct (roots R !! i) as [r|]; [|done]. cbn in Hrun.
  destruct (tps !! i) as [tp|]; [|done]. cbn in Hrun.
  destruct (vps !! i) as [vp|]; [|done]. cbn in Hrun.
  destruct (pols !! i) as [pol|]; [|done]. cbn in Hrun.
  destruct (expand _ _ _ _ _ _ _) as [h1|] eqn:He; [|done]. cbn in Hrun.
  destruct (noises !! i) as [ns|]; [|done]. cbn in Hrun.
  destruct (add_exploration_noise _ _ _ _) as [h2|] eqn:Hnoise; [|done].
  cbn in Hrun.
  destruct (h2 !! r) as [n2|] eqn:Hn2; [|done]. cbn in Hrun.
  injection Hrun as <-.
  assert (Hrel : heap_rel same_but_prior h1 h2).
  { unfold add_exploration_noise in Hnoise.
    destruct (h1 !! r) as [n1|]; [|done]. cbn in Hnoise.
    by eapply add_noise_loop_rel. }
  exists r, tp, vp, pol. repeat split; try done.
  - intros n Hn. destruct (expand_prepared _ _ _ _ _ _ _ _ Hn He)
      as (n1 & Hn1 & Hprep).
    destruct (heap_rel_lookup _ _ _ _ _ Hrel Hn1) as (n2' & Hn2' & Hs).
    rewrite Hn2 in Hn2'. injection Hn2' as <-.
    eexists. split; [apply lookup_insert_eq|].
    eapply prepared_as_prior_r; [exact Hprep|]. rewrite Hs. done.
  - intros b n Hb Hnew Hn. rewrite lookup_insert_ne by done.
    rewrite <- (expand_lookup_other _ _ _ _ _ _ _ _ _ He Hb Hnew) in Hn.
    exact (heap_rel_lookup _ _ _ _ _ Hrel Hn).
Qed.

(** the roots that the iterations [ixs] do not prepare *)
Lemma for_each_other_roots (R : CRoots) (vps : list F)
    (pols : list (list F)) (tps : list Z)
    (body : heap F → nat → option (heap F)) (ixs : list nat)
    (h h' : heap F) (r : addr) (n : CNode F) :
  prepares R vps pols tps body →
  (∀ r' j, r' ∈ roots R → r ≠ new_addr r' j) →
  for_each body ixs h = Some h' →
  (∀ i, i ∈ ixs → roots R !! i ≠ Some r) →
  h !! r = Some n →
  ∃ n', h' !! r = Some n' ∧ same_but_prior n n'.
Proof.
  intros Hbody Hfresh. revert h n.
  induction ixs as [|i rest IH]; intros h n Hrun Hixs Hn.
  - cbn in Hrun. injection Hrun as <-. by exists n.
  - cbn [for_each] in Hrun.
    destruct (body h i) as [h1|] eqn:Hb; [|done]. cbn in Hrun.
    destruct (Hbody _ _ _ Hb) as (ri & tp & vp & pol & Hri & _ & _ & _ & _
                                  & Hother).
    destruct (Hother r n) as (n1 & Hn1 & Hs1); [| |done|].
    { intros ->. apply (Hixs i); [apply elem_of_cons; by left | done]. }
    { intros j. apply Hfresh. by eapply list_elem_of_lookup_2. }
    destruct (IH h1 n1 Hrun) as (n' & Hn' & Hs'); [|done|].
    { intros j Hj. apply Hixs, elem_of_cons. by right. }
    exists n'. split; [done | by etrans].
Qed.

Lemma for_each_prepared (R : CRoots) (vps : list F) (pols : list (list F))
    (tps : list Z) (body : heap F → nat → option (heap F))
    (ixs : list nat) (h h' : heap F) (i : nat) (r : addr) (n : CNode F) :
  prepares R vps pols tps body →
  NoDup (roots R) →
  (∀ r' r'' j, r' ∈ roots R → r'' ∈ roots R → r'' ≠ new_addr r' j) →
  NoDup ixs →
  for_each body ixs h = Some h' →
  i ∈ ixs →
  roots R !! i = Some r →
  h !! r = Some n →
  ∃ n' tp vp pol,
    tps !! i = Some tp ∧ vps !! i = Some vp ∧ pols !! i = Some pol
    ∧ h' !! r = Some n' ∧ prepared_as i tp vp pol n n'.
Proof.
  intros Hbody Hnd Hfresh. revert h n.
  induction ixs as [|i0 rest IH]; intros h n Hixs Hrun Hi Hr Hn;
    [by apply elem_of_nil in Hi|].
  apply NoDup_cons in Hixs as [Hi0 Hixs].
  assert (Hroot : r ∈ roots R) by (by eapply list_elem_of_lookup_2).
  cbn [for_each] in Hrun.
  destruct (body h i0) as [h1|] eqn:Hb; [|done]. cbn in Hrun.
  destruct (Hbody _ _ _ Hb) as (r0 & tp & vp & pol & Hr0 & Htp & Hvp & Hpol
                                & Hthis & Hother).
  apply elem_of_cons in Hi as [->|Hi].
  - rewrite Hr in Hr0. injection Hr0 as <-.
    destruct (Hthis n Hn) as (n1 & Hn1 & Hprep).
    destruct (for_each_other_roots R vps pols tps body rest h1 h' r n1)
      as (n' & Hn' & Hs); try done.
    { intros r' j Hr'. by apply Hfresh. }
    { intros j Hj Hrj. rewrite NoDup_alt in Hnd.
      pose proof (Hnd _ _ _ Hr Hrj) as <-. done. }
    exists n', tp, vp, pol. do 4 (split; [done|]).
    by eapply prepared_as_prior_r.
  - assert (Hne : r ≠ r0).
    { intros <-. rewrite NoDup_alt in Hnd.
      pose proof (Hnd _ _ _ Hr Hr0) as <-. done. }
    destruct (Hother r n Hne) as (n1 & Hn1 & Hs1); [|done|].
    { intros j. apply Hfresh; [by eapply list_elem_of_lookup_2 | done]. }
    destruct (IH h1 n1 Hixs Hrun Hi Hr Hn1)
      as (n' & tp' & vp' & pol' & ? & ? & ? & Hn' & Hprep).
    exists n', tp', vp', pol'. do 4 (split; [done|]).
    by eapply prepared_as_prior_l.
Qed.
End PrepareFacts.

(** X30.  [prepare] and [prepare_no_noise] give the root with index [i] one
    more visit and expand it with [to_play_batch[i]], the latent-state index
    [0], the batch index [i], [value_prefixs[i]] and [policies[i]], and
    leave its value sum as it is.  The roots are distinct nodes and the
    allocator does not return the address of a root. *)
Theorem prepare_expands_and_visits_roots {F} `{FO : FloatOps F}
    `{U : Utils F} `{AL : Allocator} (R : CRoots) (h h' : heap F) (w : F)
    (noises : list (list F)) (vps : list F) (pols : list (list F))
    (tps : list Z) :
  NoDup (roots R) →
  (∀ r r' j, r ∈ roots R → r' ∈ roots R → r' ≠ new_addr r j) →
  prepare R h w noises vps pols tps = Some h'
  ∨ prepare_no_noise R h vps pols tps = Some h' →
  ∀ i r n, (i < Z.to_nat (root_num R))%nat →
    roots R !! i = Some r →
    h !! r = Some n →
    ∃ n' tp vp pol,
      tps !! i = Some tp ∧ vps !! i = Some vp ∧ pols !! i = Some pol
      ∧ h' !! r = Some n'
      ∧ visit_count n' = visit_count n + 1
      ∧ to_play n' = tp
      ∧ current_latent_state_index n' = 0
      ∧ batch_index n' = Z.of_nat i
      ∧ value_prefix n' = vp
      ∧ value_sum n' = value_sum n
      ∧ legal_actions n' = default_legal_actions n (Z.of_nat (length pol))
      ∧ dom (children n') = dom (children n) ∪ list_to_set (legal_actions n').
Proof.
  intros Hnd Hfresh Hrun i r n Hi Hr Hn.
  assert (Hin : i ∈ seq 0 (Z.to_nat (root_num R)))
    by (apply elem_of_seq; lia).
  destruct Hrun as [Hrun|Hrun].
  - destruct (for_each_prepared R vps pols tps _ _ h h' i r n
                (prepare_root_prepares R w noises vps pols tps) Hnd Hfresh
                (NoDup_seq _ _) Hrun Hin Hr Hn)
      as (n' & tp & vp & pol & ? & ? & ? & ? & Hprep).
    exists n', tp, vp, pol. do 4 (split; [done|]). exact Hprep.
  - destruct (for_each_prepared R vps pols tps _ _ h h' i r n
                (prepare_no_noise_root_prepares R vps pols tps) Hnd Hfresh
                (NoDup_seq _ _) Hrun Hin Hr Hn)
      as (n' & tp & vp & pol & ? & ? & ? & ? & Hprep).
    exists n', tp, vp, pol. do 4 (split; [done|]). exact Hprep.
Qed.

Lemma prepare_expands_and_visits_roots_witness :
  ∃ h', Example.prepared = Some h'
    ∧ ∀ i r n, (i < Z.to_nat (root_num Example.two_roots))%nat →
        roots Example.two_roots !! i = Some r →
        Example.fresh_roots !! r = Some n →
        ∃ n' tp vp pol,
          [-1; -1] !! i = Some tp
          ∧ [Rat.Fin 0; Rat.Fin 0] !! i = Some vp
          ∧ [[Rat.Fin 0; Rat.Fin 0]; [Rat.Fin 0; Rat.Fin 0]] !! i = Some pol
          ∧ h' !! r = Some n'
          ∧ visit_count n' = visit_count n + 1
          ∧ to_play n' = tp
          ∧ current_latent_state_index n' = 0
          ∧ batch_index n' = Z.of_nat i
          ∧ value_prefix n' = vp
          ∧ value_sum n' = value_sum n
          ∧ legal_actions n'
            = default_legal_actions n (Z.of_nat (length pol))
          ∧ dom (children n')
            = dom (children n) ∪ list_to_set (legal_actions n').
Proof.
  eexists. split; [vm_compute; reflexivity|].
  apply (prepare_expands_and_visits_roots (U := Rat.utils) (AL := Rat.alloc)
           Example.two_roots Example.fresh_roots _ (Rat.Fin 0) []
           [Rat.Fin 0; Rat.Fin 0]
           [[Rat.Fin 0; Rat.Fin 0]; [Rat.Fin 0; Rat.Fin 0]] [-1; -1]).
  - apply (bool_decide_unpack _). vm_compute. exact I.
  - intros r r' j Hr Hr'. cbn [new_addr Rat.alloc].
    cbn in Hr, Hr'. set_unfold. lia.
  - right. vm_compute. reflexivity.
Defined.
